(** * vLGP: the coordinate-ascent variational optimizer

    A shallow embedding of [optimization.py] (the block-coordinate optimizer
    [variational], [saferate], [lowerbound]) and of [vb.saferate].

    Scalars are IEEE binary64 numbers (Rocq's primitive floats); NumPy arrays
    are lists of floats (vectors), lists of rows (matrices) and lists of
    matrices (the (L, T, T) tensors).  The local variables of [variational]
    that the loop mutates form a record that the block updaters pass along;
    Python exceptions are an error monad, [print] and warnings an event log.

    NumPy's [exp], the LAPACK-backed routines of [scipy.linalg] and the
    helpers of the repository's [util] module ([makeregressor], [inchol],
    [sqexpcov], which are not part of the sources at hand) are a class of
    external kernels: every theorem about the optimizer holds for whatever
    these kernels compute.  Reductions ([np.dot], [np.sum], [np.trace],
    [np.mean]) are left-to-right folds; NumPy fixes no summation order and no
    statement below depends on one.  The [spike] array has dtype float64 or
    int64, and with it the rate matrix, which is allocated with
    [np.empty_like(spike)]; every other array has dtype float64.  Arrays
    have the shapes the docstrings give; an index outside an array reads 0
    and writes nothing. *)

From Stdlib Require Import ZArith Floats Reals Lia Lra.
From stdpp Require Import base list gmap strings.

Open Scope float_scope.

(** ** Python effects *)

Inductive pyexn : Type :=
  | KeyError (key : string)
  | IndexError
  | ValueError
  | TypeError
  | ZeroDivisionError
  | LinAlgError
  | NotImplementedError.

Inductive res (A : Type) : Type :=
  | Ok (a : A)
  | Raise (e : pyexn).
Arguments Ok {A} a.
Arguments Raise {A} e.

#[export] Instance res_ret : MRet res := fun A a => Ok a.
#[export] Instance res_bind : MBind res :=
  fun A B f m => match m with Ok a => f a | Raise e => Raise e end.

(** What the program writes: [print] calls and [warnings.warn] calls. *)
Inductive event : Type :=
  | EvPrint (what : string)
  | EvWarn (what : string).

Definition is_warning (e : event) : bool :=
  match e with EvWarn _ => true | EvPrint _ => false end.

(** How the body of a [for] loop ends: by falling through or [continue]
    ([Next]), or by [break]. *)
Inductive flow : Type := Next | Break.

Fixpoint for_each {S : Type} (body : nat -> S -> res (flow * S))
    (ns : list nat) (s : S) : res S :=
  match ns with
  | [] => Ok s
  | n :: ns' =>
      match body n s with
      | Raise e => Raise e
      | Ok (Break, s') => Ok s'
      | Ok (Next, s') => for_each body ns' s'
      end
  end.

Definition range (n : nat) : list nat := seq 0 n.

(** Values of the [control] dictionary. *)
Inductive pyval : Type :=
  | PyInt (z : Z)
  | PyFloat (x : float)
  | PyBool (b : bool).

Definition getitem (d : gmap string pyval) (k : string) : res pyval :=
  match d !! k with
  | Some v => Ok v
  | None => Raise (KeyError k)
  end.

(** ** Floats and arrays *)

Abbreviation fvec := (list float).
Abbreviation fmat := (list (list float)).
Abbreviation ftens := (list (list (list float))).

(** [np.finfo(np.float).eps] and the largest finite double. *)
Definition finfo_eps : float := 0x1p-52.
Definition finfo_max : float := 0x1.fffffffffffffp+1023.

(** [np.nan_to_num]: NaN becomes 0, the infinities the largest finite
    doubles of their sign. *)
Definition nan_to_num (x : float) : float :=
  if is_nan x then 0
  else if is_infinity x then (if x <? 0 then - finfo_max else finfo_max)
  else x.

Definition getv (v : fvec) (i : nat) : float := default 0 (v !! i).
Definition row (M : fmat) (i : nat) : fvec := default [] (M !! i).
Definition col (M : fmat) (j : nat) : fvec := map (fun r => getv r j) M.
Definition getm (M : fmat) (i j : nat) : float := getv (row M i) j.
Definition slice (A : ftens) (l : nat) : fmat := default [] (A !! l).

Definition ncols (M : fmat) : nat := length (row M 0).

Definition vadd (u v : fvec) : fvec := zip_with PrimFloat.add u v.
Definition vsub (u v : fvec) : fvec := zip_with PrimFloat.sub u v.
Definition vmul (u v : fvec) : fvec := zip_with PrimFloat.mul u v.
Definition vscale (a : float) (v : fvec) : fvec := map (PrimFloat.mul a) v.
Definition vsq (v : fvec) : fvec := vmul v v.
Definition vsum (v : fvec) : float := fold_left PrimFloat.add v 0.
Definition dot (u v : fvec) : float := vsum (vmul u v).


Definition madd (A B : fmat) : fmat := zip_with vadd A B.
Definition msub (A B : fmat) : fmat := zip_with vsub A B.
Definition mhad (A B : fmat) : fmat := zip_with vmul A B.
Definition mscale (a : float) (A : fmat) : fmat := map (vscale a) A.
Definition transpose (M : fmat) : fmat := map (col M) (range (ncols M)).
Definition mat_vec (M : fmat) (v : fvec) : fvec := map (fun r => dot r v) M.
Definition mat_mul (A B : fmat) : fmat :=
  map (fun r => map (fun j => dot r (col B j)) (range (ncols B))) A.
Definition diagonal (M : fmat) : fvec := imap (fun i r => getv r i) M.
Definition np_diag (v : fvec) : fmat :=
  imap (fun i x => <[i := x]> (replicate (length v) 0)) v.
Definition trace (M : fmat) : float := vsum (diagonal M).
Definition identity (n : nat) : fmat := np_diag (replicate n 1).
Definition np_sum (M : fmat) : float := vsum (concat M).
Definition zeros_like (M : fmat) : fmat := map (map (fun _ => 0)) M.

(** [np.max] propagates NaN; Python's builtin [max] keeps its first
    argument unless a later one compares greater. *)
Definition np_maximum (x y : float) : float :=
  if is_nan x then x else if is_nan y then y else if x <? y then y else x.
Definition np_max_abs (v : fvec) : res float :=
  match map PrimFloat.abs v with
  | [] => Raise ValueError          (* zero-size array *)
  | x :: xs => Ok (fold_left np_maximum xs x)
  end.
Definition py_max (x y : float) : float := if x <? y then y else x.

(** Assignments [M[i, j] = x], [M[:, j] = c] and [M[i, :] = r]. *)
Definition set_elem (M : fmat) (i j : nat) (x : float) : fmat :=
  alter (fun r => <[j := x]> r) i M.

Fixpoint set_col (M : fmat) (j : nat) (c : fvec) : fmat :=
  match M, c with
  | r :: M', x :: c' => <[j := x]> r :: set_col M' j c'
  | _, _ => M
  end.

Definition set_row (M : fmat) (i : nat) (r : fvec) : fmat := <[i := r]> M.
Definition set_slice (A : ftens) (l : nat) (M : fmat) : ftens := <[l := M]> A.
Definition setv (v : fvec) (i : nat) (x : float) : fvec := <[i := x]> v.

(** A read [v[i]] that can leave the array. *)
Definition index (v : fvec) (i : nat) : res float :=
  match v !! i with
  | Some x => Ok x
  | None => Raise IndexError
  end.

(** Python numbers as NumPy uses them. *)
Definition float_of_Z (z : Z) : float :=
  match z with
  | Z0 => 0
  | Zpos _ => of_uint63 (Uint63.of_Z z)
  | Zneg _ => - of_uint63 (Uint63.of_Z (Z.opp z))
  end.
Definition float_of_nat (n : nat) : float := float_of_Z (Z.of_nat n).

Definition int_of (v : pyval) : Z :=
  match v with
  | PyInt z => z
  | PyBool b => if b then 1%Z else 0%Z
  | PyFloat _ => 0%Z
  end.
(** The shape argument of [np.full]: an [int]; a [float] and a [bool] raise
    [TypeError]. *)
Definition as_int (v : pyval) : res Z :=
  match v with
  | PyInt z => Ok z
  | _ => Raise TypeError
  end.
Definition as_float (v : pyval) : float :=
  match v with
  | PyInt z => float_of_Z z
  | PyBool b => if b then 1 else 0
  | PyFloat x => x
  end.
Definition truth (v : pyval) : bool :=
  match v with
  | PyInt z => negb (Z.eqb z 0)
  | PyBool b => b
  | PyFloat x => negb (x =? 0)
  end.

(** Python's [x / y] on two [float]s: a zero divisor raises. *)
Definition py_div (x y : float) : res float :=
  if y =? 0 then Raise ZeroDivisionError else Ok (x / y).

(** [a /= k] for an array [a] and a scalar [k]. *)
Definition vdiv (a : fvec) (k : float) : fvec := map (fun x => x / k) a.

(** [a0 /= linalg.norm(a0) / normofalpha]: the norm of a matrix is a NumPy
    scalar, whose division by zero raises nothing. *)
Definition renormalize (nrm target : float) (a : fvec) : fvec := vdiv a (nrm / target).

(** ** The dtype of the counts *)

(** [spike] holds doubles or 64-bit integers (the counts, which the model
    keeps as the doubles they convert to). *)
Inductive dtype : Type := Float64 | Int64.

(** The integer part of a double, toward zero. *)
Definition trunc (x : float) : Z :=
  match Prim2SF x with
  | S754_finite sg m ex =>
      let v := if (0 <=? ex)%Z then (Z.pos m * 2 ^ ex)%Z else (Z.pos m / 2 ^ (- ex))%Z in
      if sg then (- v)%Z else v
  | _ => 0%Z
  end.

(** An int64 read as a double, and int64 arithmetic, which wraps around. *)
Definition float_of_int64 (z : Z) : float :=
  if (z =? - 2 ^ 63)%Z then - 0x1p63 else float_of_Z z.
Definition int64_wrap (z : Z) : Z := ((z + 2 ^ 63) mod 2 ^ 64 - 2 ^ 63)%Z.

(** What an element of an array of dtype [dt] holds after [a[i, j] = x] for
    a double [x]: an int64 element takes the integer part, and the smallest
    int64 when that does not fit (the conversion of x86-64). *)
Definition astype (dt : dtype) (x : float) : float :=
  match dt with
  | Float64 => x
  | Int64 =>
      if is_finite x && (- 2 ^ 63 <=? trunc x)%Z && (trunc x <? 2 ^ 63)%Z
      then float_of_int64 (trunc x) else - 0x1p63
  end.

(** [x - y] for two elements of arrays of dtype [dt]. *)
Definition sub_as (dt : dtype) (x y : float) : float :=
  match dt with
  | Float64 => x - y
  | Int64 => float_of_int64 (int64_wrap (trunc x - trunc y))
  end.
Definition vsub_as (dt : dtype) (u v : fvec) : fvec := zip_with (sub_as dt) u v.
Definition msub_as (dt : dtype) (A B : fmat) : fmat := zip_with (vsub_as dt) A B.

(** ** External kernels *)

Class Extern : Type := {
  (** [np.exp] on a scalar *)
  np_exp : float -> float;
  (** [np.linalg.slogdet(A)[1]], the logarithm of [|det A|] *)
  slogdet : fmat -> float;
  (** [scipy.linalg.norm(v, ord=np.inf)] and [scipy.linalg.norm(v)] *)
  linalg_norm_inf : fvec -> res float;
  linalg_norm : fvec -> res float;
  (** [scipy.linalg.solve(A, b)]; a singular system raises [LinAlgError] *)
  linalg_solve : fmat -> fvec -> res fvec;
  (** [scipy.linalg.lstsq(A, B)[0]] *)
  linalg_lstsq : fmat -> fmat -> res fmat;
  (** [scipy.linalg.cholesky(A, lower=True)] *)
  linalg_cholesky : fmat -> res fmat;
  (** [scipy.linalg.svd(A)], as [(U, s, Vh)] *)
  linalg_svd : fmat -> res (fmat * fvec * fmat);
  (** [np.random.randn(L, N)] *)
  randn : nat -> nat -> fmat;
  (** [util.makeregressor(spike, p, intercept)] *)
  makeregressor : fmat -> nat -> bool -> fmat;
  (** [util.inchol(T, w, tol)] *)
  inchol : nat -> float -> float -> fmat;
  (** [util.sqexpcov(T, w, var)] *)
  sqexpcov : nat -> float -> float -> fmat
}.

(** ** [saferate] *)

Section Rate.
Context `{Extern}.

(** The guard of [optimization.saferate], applied to the value of
    [np.exp(lograte)]. *)
Definition safe_of_exp (e : float) : float :=
  let rate := nan_to_num e in
  if 0 <? rate then rate else finfo_eps.

Definition lograte (t n : nat) (regressor post_mean : fmat) (post_cov : ftens)
    (beta alpha : fmat) : float :=
  dot (row regressor t) (col beta n) + dot (row post_mean t) (col alpha n)
  + 0.5 * vsum (vmul (vsq (col alpha n)) (map (fun V => getm V t t) post_cov)).

Definition saferate (t n : nat) (regressor post_mean : fmat) (post_cov : ftens)
    (beta alpha : fmat) : float :=
  safe_of_exp (np_exp (lograte t n regressor post_mean post_cov beta alpha)).

(** [vb.saferate]: the same predictor, without the positivity guard. *)
Definition vb_saferate (t n : nat) (Y m : fmat) (V : ftens) (b a : fmat) : float :=
  nan_to_num (np_exp (lograte t n Y m V b a)).
End Rate.

(** ** [lowerbound] *)

Section LowerBound.
Context `{Extern}.

Definition lowerbound (spike beta alpha prior_mean : fmat)
    (prior_cov prior_inv : ftens) (post_mean : fmat) (post_cov : ftens)
    (regressor rate : fmat) : float :=
  let L := ncols prior_mean in
  let lbound :=
    np_sum (msub (mhad spike (madd (mat_mul regressor beta) (mat_mul post_mean alpha)))
                 rate) in
  fold_left
    (fun lbound l =>
       let d := vsub (col post_mean l) (col prior_mean l) in
       lbound
       + (((- 0.5) * dot d (mat_vec (slice prior_inv l) d)
           - 0.5 * trace (mat_mul (slice prior_inv l) (slice post_cov l)))
          + 0.5 * slogdet (slice post_cov l)))
    (range L) lbound.
End LowerBound.

(** ** The state of [variational] *)

(** The four optimized blocks. *)
Record params : Type := {
  beta : fmat;        (* (1 + p*N, N) *)
  alpha : fmat;       (* (L, N) *)
  post_mean : fmat;   (* (T, L) *)
  post_cov : ftens    (* (L, T, T) *)
}.

Definition set_beta (v : fmat) (q : params) : params :=
  {| beta := v; alpha := alpha q; post_mean := post_mean q; post_cov := post_cov q |}.
Definition set_alpha (v : fmat) (q : params) : params :=
  {| beta := beta q; alpha := v; post_mean := post_mean q; post_cov := post_cov q |}.
Definition set_post_mean (v : fmat) (q : params) : params :=
  {| beta := beta q; alpha := alpha q; post_mean := v; post_cov := post_cov q |}.
Definition set_post_cov (v : ftens) (q : params) : params :=
  {| beta := beta q; alpha := alpha q; post_mean := post_mean q; post_cov := v |}.

(** The prior, its hyperparameters, and the locals [w] and [bmat].  The
    names [w] and [bmat] are bound twice in the source: before the loop to
    the inverse squared lengthscales and to the matrix [-(i - j) ** 2], and
    inside the posterior-mean and posterior-covariance loops to the
    curvature weights and to an [np.matrix]; [bmat_is_matrix] records which
    kind of object [bmat] holds, since [ndarray * ndarray] is elementwise
    and [ndarray * matrix] is a matrix product. *)
Record priors : Type := {
  prior_cov : ftens;
  prior_inv : ftens;
  variance : fvec;
  w : fvec;
  bmat : fmat;
  bmat_is_matrix : bool
}.

Definition set_prior_cov (v : ftens) (q : priors) : priors :=
  {| prior_cov := v; prior_inv := prior_inv q; variance := variance q; w := w q;
     bmat := bmat q; bmat_is_matrix := bmat_is_matrix q |}.
Definition set_prior_inv (v : ftens) (q : priors) : priors :=
  {| prior_cov := prior_cov q; prior_inv := v; variance := variance q; w := w q;
     bmat := bmat q; bmat_is_matrix := bmat_is_matrix q |}.
Definition set_variance (v : fvec) (q : priors) : priors :=
  {| prior_cov := prior_cov q; prior_inv := prior_inv q; variance := v; w := w q;
     bmat := bmat q; bmat_is_matrix := bmat_is_matrix q |}.
Definition set_w (v : fvec) (q : priors) : priors :=
  {| prior_cov := prior_cov q; prior_inv := prior_inv q; variance := variance q; w := v;
     bmat := bmat q; bmat_is_matrix := bmat_is_matrix q |}.
Definition set_bmat (v : fmat) (m : bool) (q : priors) : priors :=
  {| prior_cov := prior_cov q; prior_inv := prior_inv q; variance := variance q; w := w q;
     bmat := v; bmat_is_matrix := m |}.

(** "temporary storage for recovery" *)
Record recovery : Type := {
  last_b : fmat;
  last_a : fmat;
  last_m : fmat;
  last_rate : fmat;
  last_V : ftens;
  last_prior_cov : ftens;
  last_prior_inv : ftens
}.

Definition set_last_b (v : fmat) (q : recovery) : recovery :=
  {| last_b := v; last_a := last_a q; last_m := last_m q; last_rate := last_rate q;
     last_V := last_V q; last_prior_cov := last_prior_cov q;
     last_prior_inv := last_prior_inv q |}.
Definition set_last_a (v : fmat) (q : recovery) : recovery :=
  {| last_b := last_b q; last_a := v; last_m := last_m q; last_rate := last_rate q;
     last_V := last_V q; last_prior_cov := last_prior_cov q;
     last_prior_inv := last_prior_inv q |}.
Definition set_last_m (v : fmat) (q : recovery) : recovery :=
  {| last_b := last_b q; last_a := last_a q; last_m := v; last_rate := last_rate q;
     last_V := last_V q; last_prior_cov := last_prior_cov q;
     last_prior_inv := last_prior_inv q |}.
Definition set_last_rate (v : fmat) (q : recovery) : recovery :=
  {| last_b := last_b q; last_a := last_a q; last_m := last_m q; last_rate := v;
     last_V := last_V q; last_prior_cov := last_prior_cov q;
     last_prior_inv := last_prior_inv q |}.
Definition set_last_prior (c i : ftens) (q : recovery) : recovery :=
  {| last_b := last_b q; last_a := last_a q; last_m := last_m q;
     last_rate := last_rate q; last_V := last_V q; last_prior_cov := c;
     last_prior_inv := i |}.

Record stepsizes : Type := {
  stepsize_alpha : fvec;
  stepsize_beta : fvec;
  stepsize_post_mean : fvec;
  stepsize_w : fvec
}.

Definition set_stepsize_alpha (v : fvec) (q : stepsizes) : stepsizes :=
  {| stepsize_alpha := v; stepsize_beta := stepsize_beta q;
     stepsize_post_mean := stepsize_post_mean q; stepsize_w := stepsize_w q |}.
Definition set_stepsize_beta (v : fvec) (q : stepsizes) : stepsizes :=
  {| stepsize_alpha := stepsize_alpha q; stepsize_beta := v;
     stepsize_post_mean := stepsize_post_mean q; stepsize_w := stepsize_w q |}.
Definition set_stepsize_post_mean (v : fvec) (q : stepsizes) : stepsizes :=
  {| stepsize_alpha := stepsize_alpha q; stepsize_beta := stepsize_beta q;
     stepsize_post_mean := v; stepsize_w := stepsize_w q |}.
Definition set_stepsize_w (v : fvec) (q : stepsizes) : stepsizes :=
  {| stepsize_alpha := stepsize_alpha q; stepsize_beta := stepsize_beta q;
     stepsize_post_mean := stepsize_post_mean q; stepsize_w := v |}.

(** Everything the loop of [variational] mutates. *)
Record vstate : Type := {
  cur : params;
  rate : fmat;
  prior : priors;
  saved : recovery;
  good : params;              (* good_alpha, good_beta, good_post_mean, good_post_cov *)
  steps : stepsizes;
  lbound : fvec;
  it : nat;
  converged : bool;
  stdout : list event
}.

Definition upd_cur (f : params -> params) (s : vstate) : vstate :=
  {| cur := f (cur s); rate := rate s; prior := prior s; saved := saved s;
     good := good s; steps := steps s; lbound := lbound s; it := it s;
     converged := converged s; stdout := stdout s |}.
Definition upd_rate (f : fmat -> fmat) (s : vstate) : vstate :=
  {| cur := cur s; rate := f (rate s); prior := prior s; saved := saved s;
     good := good s; steps := steps s; lbound := lbound s; it := it s;
     converged := converged s; stdout := stdout s |}.
Definition upd_prior (f : priors -> priors) (s : vstate) : vstate :=
  {| cur := cur s; rate := rate s; prior := f (prior s); saved := saved s;
     good := good s; steps := steps s; lbound := lbound s; it := it s;
     converged := converged s; stdout := stdout s |}.
Definition upd_saved (f : recovery -> recovery) (s : vstate) : vstate :=
  {| cur := cur s; rate := rate s; prior := prior s; saved := f (saved s);
     good := good s; steps := steps s; lbound := lbound s; it := it s;
     converged := converged s; stdout := stdout s |}.
Definition upd_good (f : params -> params) (s : vstate) : vstate :=
  {| cur := cur s; rate := rate s; prior := prior s; saved := saved s;
     good := f (good s); steps := steps s; lbound := lbound s; it := it s;
     converged := converged s; stdout := stdout s |}.
Definition upd_steps (f : stepsizes -> stepsizes) (s : vstate) : vstate :=
  {| cur := cur s; rate := rate s; prior := prior s; saved := saved s;
     good := good s; steps := f (steps s); lbound := lbound s; it := it s;
     converged := converged s; stdout := stdout s |}.
Definition upd_lbound (f : fvec -> fvec) (s : vstate) : vstate :=
  {| cur := cur s; rate := rate s; prior := prior s; saved := saved s;
     good := good s; steps := steps s; lbound := f (lbound s); it := it s;
     converged := converged s; stdout := stdout s |}.
Definition upd_it (f : nat -> nat) (s : vstate) : vstate :=
  {| cur := cur s; rate := rate s; prior := prior s; saved := saved s;
     good := good s; steps := steps s; lbound := lbound s; it := f (it s);
     converged := converged s; stdout := stdout s |}.
Definition set_converged (b : bool) (s : vstate) : vstate :=
  {| cur := cur s; rate := rate s; prior := prior s; saved := saved s;
     good := good s; steps := steps s; lbound := lbound s; it := it s;
     converged := b; stdout := stdout s |}.
Definition print (what : string) (s : vstate) : vstate :=
  {| cur := cur s; rate := rate s; prior := prior s; saved := saved s;
     good := good s; steps := steps s; lbound := lbound s; it := it s;
     converged := converged s; stdout := stdout s ++ [EvPrint what] |}.

(** The parameters of [variational]. *)
Record inputs : Type := {
  spike : fmat;                 (* (T, N) *)
  spike_dtype : dtype;
  p : nat;
  prior_mean : fmat;            (* (T, L) *)
  prior_var : fvec;             (* (L,) *)
  prior_w : fvec;               (* (L,) *)
  a0 : option fmat;
  b0 : option fmat;
  m0 : option fmat;
  fixalpha : bool;
  fixbeta : bool;
  fixpostmean : bool;
  fixpostcov : bool;
  normofalpha : float;
  intercept : bool;
  hyper : bool;
  inchol_tol : float;
  control : gmap string pyval
}.

(** The locals that are bound once, before the loop. *)
Record consts : Type := {
  args : inputs;
  maxiter : nat;
  tol : float;
  verbose : bool;
  dim_T : nat;
  dim_N : nat;
  dim_L : nat;
  regressor : fmat              (* (T, 1 + p*N) *)
}.

Definition eps : float := 2 * finfo_eps.
Definition deflation : float := 0.5.
Definition inflation : float := 1.5.
Definition thld : float := 0.75.

Definition default_control : gmap string pyval :=
  <["maxiter" := PyInt 200]>
    (<["fixed-point iteration" := PyInt 3]>
       (<["tol" := PyFloat 0x1.a36e2eb1c432dp-14]>      (* 1e-4 *)
          (<["verbose" := PyBool false]> ∅))).

Definition np_mean (v : fvec) : float := vsum v / float_of_nat (length v).

(** [bmat = -(i - j) ** 2] over [np.meshgrid(np.arange(T), np.arange(T))]. *)
Definition bmat0 (T : nat) : fmat :=
  map (fun r => map (fun c =>
         let d := (Z.of_nat c - Z.of_nat r)%Z in float_of_Z (- (d * d))) (range T))
      (range T).

(** ** The block updaters *)

Section Optimizer.
Context `{Extern}.
Variable e : consts.

(** [rate[row, col] = saferate(...)], into an array of the dtype of
    [spike]. *)
Definition updaterate (rows cols : list nat) (s : vstate) : vstate :=
  upd_rate (fun r0 =>
    fold_left (fun r (rc : nat * nat) =>
                 set_elem r rc.1 rc.2
                   (astype (spike_dtype (args e))
                      (saferate rc.1 rc.2 (regressor e) (post_mean (cur s))
                         (post_cov (cur s)) (beta (cur s)) (alpha (cur s)))))
              (list_prod rows cols) r0) s.

(** [lowerbound(spike, beta, alpha, prior_mean, prior_cov, prior_inv,
    post_mean, post_cov, regressor=regressor, rate=rate)] on the current
    values, and [lbound[it - 1]]. *)
Definition lb_now (s : vstate) : float :=
  lowerbound (spike (args e)) (beta (cur s)) (alpha (cur s)) (prior_mean (args e))
    (prior_cov (prior s)) (prior_inv (prior s)) (post_mean (cur s))
    (post_cov (cur s)) (regressor e) (rate s).

Definition prev_bound (s : vstate) : float := getv (lbound s) (it s - 1).

(** The rejection tests as the source writes them: [lb < lbound[it - 1]]
    for beta, the posterior mean and the hyperparameters,
    [lb - lbound[it - 1] < 0] for alpha. *)
Definition rejected (lb prev : float) : bool := is_nan lb || (lb <? prev).
Definition rejected_alpha (lb prev : float) : bool := is_nan lb || (lb - prev <? 0).

(** [stepsize[i] *= deflation; stepsize[i] += eps] and
    [stepsize[i] *= inflation]. *)
Definition shrink (v : fvec) (i : nat) : fvec :=
  let v1 := setv v i (getv v i * deflation) in
  setv v1 i (getv v1 i + eps).
Definition grow (v : fvec) (i : nat) : fvec := setv v i (getv v i * inflation).

(** Lines 217-218: gradient and negative Hessian of the bound in
    [beta[:, n]]. *)
Definition grad_b (n : nat) (s : vstate) : fvec :=
  mat_vec (transpose (regressor e))
    (vsub_as (spike_dtype (args e)) (col (spike (args e)) n) (col (rate s) n)).
Definition neg_hess_b (n : nat) (s : vstate) : fmat :=
  let regT := transpose (regressor e) in
  mat_mul regT (transpose (map (fun r => vmul r (col (rate s) n)) regT)).

(** Lines 226-230: save the block and its rate column, step, refresh the
    rate. *)
Definition beta_trial (n : nat) (delta_b : fvec) (s : vstate) : vstate :=
  let s1 := upd_saved (fun v => set_last_b (set_col (last_b v) n (col (beta (cur s)) n)) v) s in
  let s2 := upd_saved (fun v => set_last_rate (set_col (last_rate v) n (col (rate s) n)) v) s1 in
  let s3 := upd_cur (fun q => set_beta (set_col (beta q) n (vadd (col (beta q) n) delta_b)) q) s2 in
  updaterate (range (dim_T e)) [n] s3.

(** Lines 231-245: accept, or restore and shrink the step. *)
Definition beta_settle (n : nat) (predict : float) (s4 : vstate) : vstate :=
  let lb := lb_now s4 in
  if rejected lb (prev_bound s4) then
    let s5 := upd_steps (fun v => set_stepsize_beta (shrink (stepsize_beta v) n) v) s4 in
    let s6 := upd_cur (fun q => set_beta (set_col (beta q) n (col (last_b (saved s5)) n)) q) s5 in
    upd_rate (fun r => set_col r n (col (last_rate (saved s6)) n)) s6
  else if thld * predict <? lb - prev_bound s4 then
    upd_steps (fun v => set_stepsize_beta (grow (stepsize_beta v) n) v) s4
  else s4.

(** Lines 216-245: one pass of [for n in range(N)] over beta. *)
Definition beta_block (n : nat) (s : vstate) : res (flow * vstate) :=
  nrm ← linalg_norm_inf (grad_b n s);
  if nrm <? eps then mret (Break, s)
  else
    match linalg_solve (neg_hess_b n s) (grad_b n s) with
    | Raise LinAlgError => mret (Next, print "beta" s)
    | Raise ex => Raise ex
    | Ok sol =>
        let delta_b := vscale (getv (stepsize_beta (steps s)) n) sol in
        let predict :=
          dot (grad_b n s) delta_b - 0.5 * dot delta_b (mat_vec (neg_hess_b n s) delta_b) in
        mret (Next, beta_settle n predict (beta_trial n delta_b s))
    end.


(** Lines 249-254: gradient and (diagonal) negative Hessian in
    [alpha[l, :]]. *)
Definition grad_a (l : nat) (s : vstate) : fvec :=
  let vdiag := diagonal (slice (post_cov (cur s)) l) in
  vsub (mat_vec (transpose (msub_as (spike_dtype (args e)) (spike (args e)) (rate s)))
                (col (post_mean (cur s)) l))
       (vmul (mat_vec (transpose (rate s)) vdiag) (row (alpha (cur s)) l)).
Definition neg_hess_a (l : nat) (s : vstate) : fmat :=
  let vdiag := diagonal (slice (post_cov (cur s)) l) in
  let ml := col (post_mean (cur s)) l in
  let al := row (alpha (cur s)) l in
  let rateT := transpose (rate s) in
  np_diag (vadd (vadd (vadd (mat_vec rateT (vsq ml))
                            (vmul (vscale 2 (mat_vec rateT (vmul ml vdiag))) al))
                      (vmul (mat_vec rateT (vsq vdiag)) (vsq al)))
                (mat_vec rateT vdiag)).

(** Lines 262-268: save, step, renormalize, refresh the rate.  The norm of
    a vector is a Python [float], and so is [normofalpha]: the quotient is
    Python's. *)
Definition alpha_trial (l : nat) (delta_a : fvec) (s : vstate) : res vstate :=
  let s1 := upd_saved (fun v => set_last_a (set_row (last_a v) l (row (alpha (cur s)) l)) v) s in
  let s2 := upd_saved (set_last_rate (rate s1)) s1 in
  let s3 := upd_cur (fun q => set_alpha (set_row (alpha q) l (vadd (row (alpha q) l) delta_a)) q) s2 in
  nl ← linalg_norm (row (alpha (cur s3)) l);
  k ← py_div nl (normofalpha (args e));
  let s4 := upd_cur (fun q => set_alpha (set_row (alpha q) l (vdiv (row (alpha q) l) k)) q) s3 in
  mret (updaterate (range (dim_T e)) (range (dim_N e)) s4).

(** Lines 269-279. *)
Definition alpha_settle (l : nat) (predict : float) (s5 : vstate) : vstate :=
  let lb := lb_now s5 in
  if rejected_alpha lb (prev_bound s5) then
    let s6 := upd_steps (fun v => set_stepsize_alpha (shrink (stepsize_alpha v) l) v) s5 in
    let s7 := upd_cur (fun q => set_alpha (set_row (alpha q) l (row (last_a (saved s6)) l)) q) s6 in
    upd_rate (fun _ => last_rate (saved s7)) s7
  else if thld * predict <? lb - prev_bound s5 then
    upd_steps (fun v => set_stepsize_alpha (grow (stepsize_alpha v) l) v) s5
  else s5.

(** Lines 248-279: one pass of [for l in range(L)] over alpha.  The
    predicted gain uses the displacement after renormalization. *)
Definition alpha_block (l : nat) (s : vstate) : res (flow * vstate) :=
  nrm ← linalg_norm_inf (grad_a l s);
  if nrm <? eps then mret (Break, s)
  else
    step ← index (stepsize_alpha (steps s)) l;
    match linalg_solve (neg_hess_a l s) (grad_a l s) with
    | Raise LinAlgError => mret (Next, print "alpha" s)
    | Raise ex => Raise ex
    | Ok sol =>
        s5 ← alpha_trial l (vscale step sol) s;
        let delta_a := vsub (row (alpha (cur s5)) l) (row (last_a (saved s5)) l) in
        let predict :=
          dot (grad_a l s) delta_a - 0.5 * dot delta_a (mat_vec (neg_hess_a l s) delta_a) in
        mret (Next, alpha_settle l predict s5)
    end.

(** Lines 288-294 and 325-332, written twice in the source: the weights
    [w], [bmat = I + sqrt(W) Sigma sqrt(W)], its Cholesky factor and
    [Sigma - Sigma sqrt(W) bmat^-1 sqrt(W) Sigma].  The assignments to [w]
    and [bmat] rebind the two locals of the hyperparameter step. *)
Definition woodbury (l : nat) (s : vstate) : res (vstate * fmat) :=
  let pc := slice (prior_cov (prior s)) l in
  let w' := mat_vec (rate s) (vsq (row (alpha (cur s)) l)) in
  let wsqrt := np_diag (map PrimFloat.sqrt w') in
  let bmat' := madd (identity (dim_T e)) (mat_mul (mat_mul wsqrt pc) wsqrt) in
  let s1 := upd_prior (fun q => set_bmat bmat' true (set_w w' q)) s in
  bchol ← linalg_cholesky bmat';
  X1 ← linalg_lstsq bchol (mat_mul wsqrt pc);
  X2 ← linalg_lstsq (transpose bchol) X1;
  mret (s1, msub pc (mat_mul (mat_mul pc wsqrt) X2)).

(** [post_mean[:, l] -= np.mean(post_mean[:, l])] *)
Definition recenter (c : fvec) : fvec :=
  let mu := np_mean c in map (fun x => x - mu) c.

(** [linalg.lstsq(A, b)[0]] for a vector [b]. *)
Definition lstsq_vec (A : fmat) (b : fvec) : res fvec :=
  X ← linalg_lstsq A (map (fun x => [x]) b); mret (col X 0).

(** Lines 286-287: gradient in [post_mean[:, l]]. *)
Definition grad_m (l : nat) (s : vstate) : fvec :=
  vsub (mat_vec (msub_as (spike_dtype (args e)) (spike (args e)) (rate s))
                (row (alpha (cur s)) l))
       (mat_vec (slice (prior_inv (prior s)) l)
                (vsub (col (post_mean (cur s)) l) (col (prior_mean (args e)) l))).

(** Lines 303-309: save, step, re-center, refresh the rate. *)
Definition mean_trial (l : nat) (delta_m : fvec) (s0 : vstate) : vstate :=
  let s1 := upd_saved (fun v => set_last_m (set_col (last_m v) l (col (post_mean (cur s0)) l)) v) s0 in
  let s2 := upd_saved (set_last_rate (rate s1)) s1 in
  let s3 := upd_cur (fun q => set_post_mean (set_col (post_mean q) l (vadd (col (post_mean q) l) delta_m)) q) s2 in
  let s4 := upd_cur (fun q => set_post_mean (set_col (post_mean q) l (recenter (col (post_mean q) l))) q) s3 in
  updaterate (range (dim_T e)) (range (dim_N e)) s4.

(** Lines 310-320. *)
Definition mean_settle (l : nat) (predict : float) (s5 : vstate) : vstate :=
  let lb := lb_now s5 in
  if rejected lb (prev_bound s5) then
    let s6 := upd_steps (fun v => set_stepsize_post_mean (shrink (stepsize_post_mean v) l) v) s5 in
    let s7 := upd_cur (fun q => set_post_mean (set_col (post_mean q) l (col (last_m (saved s6)) l)) q) s6 in
    upd_rate (fun _ => last_rate (saved s7)) s7
  else if thld * predict <? lb - prev_bound s5 then
    upd_steps (fun v => set_stepsize_post_mean (grow (stepsize_post_mean v) l) v) s5
  else s5.

(** Lines 283-320: one pass of [for l in range(L)] over the posterior mean.
    [np.dot(hinv, grad_m)] raises no [LinAlgError], so the handler of the
    source's [try] is never entered. *)
Definition mean_block (l : nat) (s : vstate) : res (flow * vstate) :=
  let g := grad_m l s in
  '(s0, hinv) ← woodbury l s;
  nrm ← linalg_norm_inf g;
  if nrm <? eps then mret (Break, s0)
  else
    let step := getv (stepsize_post_mean (steps s0)) l in
    let s5 := mean_trial l (vscale step (mat_vec hinv g)) s0 in
    let delta_m := vsub (col (post_mean (cur s5)) l) (col (last_m (saved s5)) l) in
    X ← lstsq_vec hinv delta_m;
    let predict := dot g delta_m - 0.5 * dot delta_m X in
    mret (Next, mean_settle l predict s5).

(** Lines 324-333: the posterior covariance of latent [l]. *)
Definition postcov_block (l : nat) (s : vstate) : res (flow * vstate) :=
  '(s0, V) ← woodbury l s;
  let s1 := upd_cur (fun q => set_post_cov (set_slice (post_cov q) l V) q) s0 in
  mret (Next, updaterate (range (dim_T e)) (range (dim_N e)) s1).

(** [np.dot(Vh.T, np.dot(np.diag(np.nan_to_num(np.abs(1/s))), U.T))] for
    [U, s, Vh = linalg.svd(M)]. *)
Definition pinv_svd (M : fmat) : res fmat :=
  '(U, sv, Vh) ← linalg_svd M;
  mret (mat_mul (transpose Vh)
          (mat_mul (np_diag (map (fun x => nan_to_num (PrimFloat.abs (1 / x))) sv)) (transpose U))).

(** Lines 339-341: the closed-form update of the variance of latent [l]. *)
Definition new_var (l : nat) (s : vstate) (var_l : float) : float :=
  let d := vsub (col (post_mean (cur s)) l) (col (prior_mean (args e)) l) in
  let pinv := slice (prior_inv (prior s)) l in
  var_l * (dot d (mat_vec pinv d) + trace (mat_mul pinv (slice (post_cov (cur s)) l)))
  / float_of_nat (dim_T e).

(** Lines 352-355: the gradient in the inverse squared lengthscale.
    [prior_cov[l, :, :] * bmat] is elementwise for the [bmat] bound before
    the loop and a matrix product for the [np.matrix] the posterior updaters
    bind to the same name. *)
Definition grad_w (l : nat) (s : vstate) : float :=
  let d := vsub (col (post_mean (cur s)) l) (col (prior_mean (args e)) l) in
  let pinv := slice (prior_inv (prior s)) l in
  let pcov := slice (prior_cov (prior s)) l in
  let V := slice (post_cov (cur s)) l in
  let cb := if bmat_is_matrix (prior s) then mat_mul pcov (bmat (prior s))
            else mhad pcov (bmat (prior s)) in
  let amat := mat_mul (mat_mul pinv cb) pinv in
  (dot d (mat_vec amat d) + trace (mat_mul amat V) - trace (mat_mul pinv cb)) / 2.

(** Lines 339-369: the hyperparameter step of latent [l]. *)
Definition hyper_block (l : nat) (s : vstate) : res (flow * vstate) :=
  var_l ← index (variance (prior s)) l;
  let s1 := upd_prior (fun q => set_variance (setv (variance q) l (new_var l s var_l)) q) s in
  w_l ← index (w (prior s1)) l;
  let s2 := upd_prior (fun q => set_w (setv (w q) l
                (w_l + getv (stepsize_w (steps s1)) l * grad_w l s1)) q) s1 in
  let s3 := print "Hyper" s2 in
  let pc' := sqexpcov (dim_T e) (getv (w (prior s3)) l) (getv (variance (prior s3)) l) in
  let s4 := upd_prior (fun q => set_prior_cov (set_slice (prior_cov q) l pc') q) s3 in
  pinv' ← pinv_svd (slice (prior_cov (prior s4)) l);
  let s5 := upd_prior (fun q => set_prior_inv (set_slice (prior_inv q) l pinv') q) s4 in
  let lb := lb_now s5 in
  if rejected lb (prev_bound s5) then
    let s6 := print "new hyper failed" s5 in
    let s7 := upd_prior (fun q => set_prior_cov
                (set_slice (prior_cov q) l (slice (last_prior_cov (saved s6)) l)) q) s6 in
    let s8 := upd_prior (fun q => set_prior_inv
                (set_slice (prior_inv q) l (slice (last_prior_inv (saved s7)) l)) q) s7 in
    mret (Next, upd_steps (fun v => set_stepsize_w
                   (setv (stepsize_w v) l (getv (stepsize_w v) l * 0.5)) v) s8)
  else mret (Next, s5).

(** Lines 335-369. *)
Definition hyper_phase (s : vstate) : res vstate :=
  if hyper (args e) && (it s mod 5 =? 0)%nat then
    let s1 := upd_saved (set_last_prior (prior_cov (prior s)) (prior_inv (prior s))) s in
    for_each hyper_block (range (dim_L e)) s1
  else mret s.

(** Lines 376-380: the change of each block since the last outer
    iteration, and their maximum. *)
Definition change_of (s : vstate) : res float :=
  chg_alpha ← (if fixalpha (args e) then mret 0
               else np_max_abs (concat (msub (alpha (good s)) (alpha (cur s)))));
  chg_beta ← (if fixbeta (args e) then mret 0
              else np_max_abs (concat (msub (beta (good s)) (beta (cur s)))));
  chg_post_mean ← (if fixpostmean (args e) then mret 0
                   else np_max_abs (concat (msub (post_mean (good s)) (post_mean (cur s)))));
  chg_post_cov ← (if fixpostcov (args e) then mret 0
                  else np_max_abs (concat (concat
                         (zip_with msub (post_cov (good s)) (post_cov (cur s))))));
  mret (py_max (py_max (py_max chg_alpha chg_beta) chg_post_mean) chg_post_cov).

(** Lines 215-333: the three guarded updaters, then the posterior
    covariance. *)
Definition guarded_phases (s : vstate) : res vstate :=
  s1 ← (if fixbeta (args e) then mret s else for_each beta_block (range (dim_N e)) s);
  s2 ← (if fixalpha (args e) then mret s1 else for_each alpha_block (range (dim_L e)) s1);
  if fixpostmean (args e) then mret s2 else for_each mean_block (range (dim_L e)) s2.

Definition postcov_phase (s : vstate) : res vstate :=
  if fixpostcov (args e) then mret s else for_each postcov_block (range (dim_L e)) s.

(** Lines 371-401: store the bound, test convergence, take the snapshot. *)
Definition close_iteration (s : vstate) : res vstate :=
  let s1 := upd_lbound (fun lb => setv lb (it s) (lb_now s)) s in
  change ← change_of s1;
  let s2 := if change <? tol e then set_converged true s1 else s1 in
  let s3 := if verbose e then print "Iteration" s2 else s2 in
  let s4 := upd_good (fun _ => cur s3) s3 in
  mret (upd_it S s4).

(** Lines 215-369: all block updates of one outer iteration. *)
Definition block_updates (s : vstate) : res vstate :=
  s1 ← guarded_phases s;
  s2 ← postcov_phase s1;
  hyper_phase s2.

(** The body of the [while] loop. *)
Definition outer_iteration (s : vstate) : res vstate :=
  s3 ← block_updates s;
  close_iteration s3.

(** [while not converged and it < maxiter]; [None] when [fuel] iterations
    were not enough to leave the loop. *)
Fixpoint while_loop (fuel : nat) (s : vstate) : res (option vstate) :=
  if negb (converged s) && (it s <? maxiter e)%nat then
    match fuel with
    | O => mret None
    | S fuel' => s' ← outer_iteration s; while_loop fuel' s'
    end
  else mret (Some s).
End Optimizer.

(** ** [variational] *)

(** The returned tuple (without the elapsed wall time), and what was
    printed. *)
Record output : Type := {
  r_lbound : fvec;          (* lbound[:it] *)
  r_post_mean : fmat;
  r_post_cov : ftens;
  r_alpha : fmat;
  r_beta : fmat;
  r_a0 : fmat;
  r_b0 : fmat;
  r_converged : bool;
  r_stdout : list event
}.

Section Variational.
Context `{Extern}.

(** Lines 139-150: the prior covariance of latent [l] and its
    pseudo-inverse. *)
Definition init_prior (inp : inputs) (T l : nat) : res (fmat * fmat) :=
  w_l ← index (prior_w inp) l;
  let prior_chol := inchol T w_l (inchol_tol inp) in
  var_l ← index (prior_var inp) l;
  let pc := mscale var_l (sqexpcov T w_l 1) in
  pinv ← pinv_svd pc;
  mret (pc, pinv).

Definition returned (s : vstate) (a0' b0' : fmat) : output :=
  {| r_lbound := take (it s) (lbound s);
     r_post_mean := post_mean (cur s);
     r_post_cov := post_cov (cur s);
     r_alpha := alpha (cur s);
     r_beta := beta (cur s);
     r_a0 := a0';
     r_b0 := b0';
     r_converged := converged s;
     r_stdout := stdout s |}.

(** Lines 114-209: everything before the loop. *)
Definition initialize (inp : inputs) : res (consts * vstate * fmat * fmat) :=
  mi ← getitem (control inp) "max iteration";
  fpinter ← getitem (control inp) "fixed-point iteration";
  tl ← getitem (control inp) "tol";
  vb ← getitem (control inp) "verbose";
  let T := length (spike inp) in
  let N := ncols (spike inp) in
  let L := ncols (prior_mean inp) in
  pri ← mapM (init_prior inp T) (range L);
  let reg := makeregressor (spike inp) (p inp) (intercept inp) in
  let pm := match m0 inp with None => prior_mean inp | Some m => m end in
  a0' ← match a0 inp with
        | Some a => mret a
        | None =>
            let a := randn L N in
            nrm ← linalg_norm (concat a);
            mret (map (renormalize nrm (normofalpha inp)) a)
        end;
  b0' ← match b0 inp with
        | Some b => mret b
        | None => linalg_lstsq reg (spike inp)
        end;
  let q := {| beta := b0'; alpha := a0'; post_mean := pm; post_cov := pri.*1 |} in
  let c := {| args := inp;
              maxiter := Z.to_nat (int_of mi);
              tol := as_float tl; verbose := truth vb;
              dim_T := T; dim_N := N; dim_L := L; regressor := reg |} in
  let s0 :=
    {| cur := q;
       rate := zeros_like (spike inp);
       prior := {| prior_cov := pri.*1; prior_inv := pri.*2;
                   variance := prior_var inp; w := prior_w inp;
                   bmat := bmat0 T; bmat_is_matrix := false |};
       saved := {| last_b := zeros_like b0'; last_a := zeros_like a0';
                   last_m := zeros_like pm; last_rate := zeros_like (spike inp);
                   last_V := map zeros_like pri.*1;
                   last_prior_cov := map zeros_like pri.*1;
                   last_prior_inv := map zeros_like pri.*2 |};
       good := q;
       steps := {| stepsize_alpha := replicate N 1; stepsize_beta := replicate N 1;
                   stepsize_post_mean := replicate L 1; stepsize_w := replicate L 1 |};
       lbound := [];
       it := 1;
       converged := false;
       stdout := [] |} in
  let s1 := updaterate c (range T) (range N) s0 in
  mz ← as_int mi;
  if (mz <? 0)%Z then Raise ValueError          (* np.full(maxiter, np.NINF) *)
  else if (mz =? 0)%Z then Raise IndexError     (* lbound[0] = ... *)
  else
    let s2 := upd_lbound (fun _ => setv (replicate (Z.to_nat mz) neg_infinity) 0 (lb_now c s1)) s1 in
    mret (c, s2, a0', b0').

Definition variational_fuel (fuel : nat) (inp : inputs) : res (option output) :=
  match initialize inp with
  | Raise ex => Raise ex
  | Ok (c, s, a0', b0') =>
      match while_loop c fuel s with
      | Raise ex => Raise ex
      | Ok None => Ok None
      | Ok (Some s') => Ok (Some (returned s' a0' b0'))
      end
  end.

(** The iteration budget [control['max iteration']]. *)
Definition max_iterations (inp : inputs) : nat :=
  match control inp !! "max iteration" with
  | Some v => Z.to_nat (int_of v)
  | None => 0
  end.

(** [maxiter] iterations of fuel are enough: with them the result is never
    [Ok None]. *)
Definition variational (inp : inputs) : res (option output) :=
  variational_fuel (max_iterations inp) inp.
End Variational.

(** ** Reference kernels

    An executable instance of the external kernels, used to run the model
    on concrete inputs.  [exp] and [log] are exact at the points NumPy's
    are exact (0 and 1, overflow, underflow, the infinities) and a range
    reduction and a series elsewhere; the LAPACK routines are given for
    systems of order 1 (and [solve] of order 2), where they amount to one
    division or one square root; wider systems raise
    [NotImplementedError]. *)

Module Ref.

Definition ln2 : float := 0x1.62e42fefa39efp-1.

(** The integer nearest to a float of moderate size. *)
Definition nearest (x : float) : Z :=
  match Prim2SF (x + 0x1.8p52 - 0x1.8p52) with
  | S754_finite sg m ex =>
      let v := if (0 <=? ex)%Z then (Zpos m * 2 ^ ex)%Z else (Zpos m / 2 ^ (- ex))%Z in
      if sg then (- v)%Z else v
  | _ => 0%Z
  end.

Definition horner (cs : list float) (x : float) : float :=
  fold_right (fun c acc => c + x * acc) 0 cs.

Definition factorials : list float :=
  [1; 1; 2; 6; 24; 120; 720; 5040; 40320; 362880; 3628800; 39916800; 479001600;
   6227020800; 87178291200].

Definition exp (x : float) : float :=
  if is_nan x then x
  else if 0x1.62e42fefa39efp+9 <? x then infinity
  else if x <? - 0x1.74910d52d3051p+9 then 0
  else
    let k := nearest (x / ln2) in
    let r := x - float_of_Z k * ln2 in
    Z.ldexp (horner (map (fun f => 1 / f) factorials) r) k.

Definition log (x : float) : float :=
  if is_nan x then x
  else if x <? 0 then nan
  else if x =? 0 then neg_infinity
  else if x =? infinity then infinity
  else
    let '(m, ex) := Z.frexp x in
    let '(m, ex) := if m <? 0x1.6a09e667f3bcdp-1 then (2 * m, (ex - 1)%Z) else (m, ex) in
    let s := (m - 1) / (m + 1) in
    float_of_Z ex * ln2
    + 2 * s * horner (map (fun k => 1 / float_of_Z k) [1; 3; 5; 7; 9; 11; 13; 15; 17; 19; 21]%Z)
                     (s * s).

Definition all_finite (v : fvec) : bool := forallb is_finite v.

Definition norm_inf (v : fvec) : res float :=
  if all_finite v then Ok (fold_left np_maximum (map PrimFloat.abs v) 0) else Raise ValueError.

Definition norm (v : fvec) : res float :=
  if all_finite v then
    match v with
    | [x] => Ok (PrimFloat.abs x)
    | _ => Ok (PrimFloat.sqrt (vsum (vsq v)))
    end
  else Raise ValueError.

Definition solve (A : fmat) (b : fvec) : res fvec :=
  if negb (all_finite (concat A) && all_finite b) then Raise ValueError
  else
    match A, b with
    | [[a]], [y] => if a =? 0 then Raise LinAlgError else Ok [y / a]
    | [[a11; a12]; [a21; a22]], [y1; y2] =>
        let det := a11 * a22 - a12 * a21 in
        if det =? 0 then Raise LinAlgError
        else Ok [(y1 * a22 - a12 * y2) / det; (a11 * y2 - y1 * a21) / det]
    | _, _ => Raise NotImplementedError
    end.

Definition lstsq (A B : fmat) : res fmat :=
  if negb (all_finite (concat A) && all_finite (concat B)) then Raise ValueError
  else
    match A, B with
    | [[a]], [r] => Ok [map (fun y => if a =? 0 then 0 else y / a) r]
    | _, _ => Raise NotImplementedError
    end.

Definition cholesky (A : fmat) : res fmat :=
  if negb (all_finite (concat A)) then Raise ValueError
  else
    match A with
    | [[a]] => if 0 <? a then Ok [[PrimFloat.sqrt a]] else Raise LinAlgError
    | _ => Raise NotImplementedError
    end.

Definition svd (A : fmat) : res (fmat * fvec * fmat) :=
  if negb (all_finite (concat A)) then Raise ValueError
  else
    match A with
    | [[a]] => Ok ([[1]], [PrimFloat.abs a], [[if a <? 0 then -1 else 1]])
    | _ => Raise NotImplementedError
    end.

Definition logabsdet (A : fmat) : float :=
  match A with
  | [[a]] => log (PrimFloat.abs a)
  | _ => nan
  end.

(** The design matrix as [vb.variational] builds it (lines 120-126 of
    [vb.py]): a column of ones, then the [p] previous rows of [y],
    flattened, with zeros where the history is not available. *)
Definition lagged (y : fmat) (p : nat) (icpt : bool) : fmat :=
  let N := ncols y in
  imap (fun t _ =>
          let hist :=
            if (p <=? t)%nat then concat (take p (drop (t - p) y))
            else replicate ((p - t) * N) 0 ++ concat (take t y) in
          if icpt then 1 :: hist else hist) y.

(** The squared exponential covariance [var * exp(-w * (i - j) ** 2)], the
    kernel [simulation.sqexp] has. *)
Definition sqexp_cov (T : nat) (w var : float) : fmat :=
  map (fun i => map (fun j =>
         let d := float_of_Z (Z.of_nat i - Z.of_nat j) in var * exp (- w * (d * d)))
         (range T)) (range T).

#[export] Instance kernels : Extern := {|
  np_exp := exp;
  slogdet := logabsdet;
  linalg_norm_inf := norm_inf;
  linalg_norm := norm;
  linalg_solve := solve;
  linalg_lstsq := lstsq;
  linalg_cholesky := cholesky;
  linalg_svd := svd;
  randn := fun L N => replicate L (replicate N 1);
  makeregressor := lagged;
  inchol := fun T w tol => identity T;
  sqexpcov := sqexp_cov
|}.

End Ref.

(** ** Shapes

    The recovery buffers are allocated with [np.empty_like]; the restores
    read back what was saved when the buffers have the shapes of the arrays
    they shadow. *)

Definition well_formed (e : consts) (s : vstate) : Prop :=
  length (last_b (saved s)) = length (beta (cur s)) /\
  Forall (fun r => length r = dim_N e) (last_b (saved s)) /\
  length (last_rate (saved s)) = length (rate s) /\
  Forall (fun r => length r = dim_N e) (last_rate (saved s)) /\
  Forall (fun r => length r = dim_N e) (rate s) /\
  length (last_a (saved s)) = length (alpha (cur s)) /\
  length (last_m (saved s)) = length (post_mean (cur s)) /\
  Forall (fun r => length r = dim_L e) (last_m (saved s)).

(** Two states of the same outer iteration: the iteration counter, the
    trace and the convergence flag agree, and the second has printed
    zero or more further lines (and raised no warning); the snapshot of
    the last outer iteration is untouched. *)
Definition same_iteration (s s' : vstate) : Prop :=
  it s' = it s /\ lbound s' = lbound s /\ converged s' = converged s /\
  good s' = good s /\
  exists lines, stdout s' = stdout s ++ map EvPrint lines.

(** ** The run of the loop *)

(** The condition of the [while] loop. *)
Definition running (e : consts) (s : vstate) : bool :=
  negb (converged s) && (it s <? maxiter e)%nat.

(** [k] outer iterations lead from [s] to [t]: the loop condition holds
    before each of them, and none raises. *)
Inductive iterates `{Extern} (e : consts) : nat -> vstate -> vstate -> Prop :=
  | iterates_stay (s : vstate) : iterates e 0 s s
  | iterates_step (k : nat) (s s1 t : vstate) :
      running e s = true -> outer_iteration e s = Ok s1 -> iterates e k s1 t ->
      iterates e (S k) s t.

(** The changes the stopping rule looks at, as the claim words it: the
    absolute change of every entry of the four blocks since the snapshot, a
    frozen block counting for one change of 0. *)
Definition changes (e : consts) (s : vstate) : fvec :=
  (if fixalpha (args e) then [0]
   else map PrimFloat.abs (concat (msub (alpha (good s)) (alpha (cur s)))))
  ++ (if fixbeta (args e) then [0]
      else map PrimFloat.abs (concat (msub (beta (good s)) (beta (cur s)))))
  ++ (if fixpostmean (args e) then [0]
      else map PrimFloat.abs (concat (msub (post_mean (good s)) (post_mean (cur s)))))
  ++ (if fixpostcov (args e) then [0]
      else map PrimFloat.abs
             (concat (concat (zip_with msub (post_cov (good s)) (post_cov (cur s)))))).

(** ** Classes of binary64 values *)

Definition emin64 : Z := -1074.

Definition sf_nonneg (x : spec_float) : Prop :=
  match x with
  | S754_zero false | S754_infinity false => True
  | S754_finite false _ ex => (emin64 <= ex)%Z
  | _ => False
  end.

Definition sf_pos (x : spec_float) : Prop :=
  match x with
  | S754_infinity false => True
  | S754_finite false _ ex => (emin64 <= ex)%Z
  | _ => False
  end.

(** ** Concrete fits

    One time bin, one latent, no autoregressive history ([p = 0]), so that
    the design matrix is a column of ones and every matrix a scalar. *)

Definition control_of (max_iteration : Z) : gmap string pyval :=
  <["max iteration" := PyInt max_iteration]>
    (<["fixed-point iteration" := PyInt 3]>
       (<["tol" := PyFloat 0x1.a36e2eb1c432dp-14]>
          (<["verbose" := PyBool false]> ∅))).

Definition fit (y : fmat) (order : nat) (var : float) (a b : fmat) (m : option fmat)
    (fa fb fm fc hy : bool) (target : float) (max_iteration : Z) : inputs :=
  {| spike := y; spike_dtype := Float64; p := order; prior_mean := [[0]];
     prior_var := [var]; prior_w := [1];
     a0 := Some a; b0 := Some b; m0 := m;
     fixalpha := fa; fixbeta := fb; fixpostmean := fm; fixpostcov := fc;
     normofalpha := target; intercept := true; hyper := hy;
     inchol_tol := 0x1p-20; control := control_of max_iteration |}.

(** Only the posterior covariance is optimized; [alpha = 2^30],
    [beta = -2^59]. *)
Definition fit_covariance_only : inputs :=
  fit [[0]] 0 1 [[0x1p30]] [[- 0x1p59]] None true true true false false 1 2.

(** Only beta is optimized, from [beta = 1000], where the rate saturates. *)
Definition fit_saturated : inputs :=
  fit [[0]] 0 1 [[0]] [[1000]] None true false true true false 1 2.

(** Two channels with counts 1 and 2, [beta = 0]: channel 0 is stationary,
    channel 1 is not.  Only beta is optimized. *)
Definition fit_two_channels : inputs :=
  fit [[1; 2]] 0 1 [[0; 0]] [[0; 0]] None true false true true false 1 200.

(** Only alpha is optimized, with target norm 7, from [alpha = 8]. *)
Definition fit_loading : inputs :=
  fit [[0]] 0 1 [[8]] [[-40]] (Some [[1]]) false true true true false 7 2.


(** The posterior covariance and the hyperparameters are optimized; prior
    variance 2000, [beta = -1000]. *)
Definition fit_hyper : inputs :=
  fit [[0]] 0 2000 [[1]] [[-1000]] None true true true false true 1 6.

(** One time bin and one lag ([p = 1]): the lagged column of the design
    matrix is zero and the Newton system of beta singular. *)
Definition fit_no_history : inputs :=
  fit [[3]] 1 1 [[0]] [[0]; [0]] None true false true true false 1 3.

(** The state in which the loop starts, and in which it ends. *)
Definition start_of `{Extern} (inp : inputs) : option (consts * vstate) :=
  match initialize inp with
  | Ok (c, s, _, _) => Some (c, s)
  | Raise _ => None
  end.

Definition end_of `{Extern} (inp : inputs) (fuel : nat) : option vstate :=
  match initialize inp with
  | Ok (c, s, _, _) =>
      match while_loop c fuel s with
      | Ok (Some s') => Some s'
      | _ => None
      end
  | Raise _ => None
  end.

(** A call that leaves [control] to its default. *)
Definition fit_default : inputs :=
  {| spike := [[1; 2]]; spike_dtype := Float64; p := 0; prior_mean := [[0]];
     prior_var := [1]; prior_w := [1];
     a0 := None; b0 := None; m0 := None;
     fixalpha := false; fixbeta := false; fixpostmean := false; fixpostcov := false;
     normofalpha := 1; intercept := true; hyper := false;
     inchol_tol := 0x1.ad7f29abcaf48p-24;               (* 1e-7 *)
     control := default_control |}.

(** The Euclidean norm in exact arithmetic. *)
Definition norm2R (a : list R) : R :=
  sqrt (fold_right (fun x acc => (x * x + acc)%R) 0%R a).

(** Explicit states of a scalar fit with count 3 and target norm 2.
    [state_overshoot] is the state in which the fit with [alpha = 1],
    [beta = -1.5] and [post_mean = 1] starts: there the full Newton step of
    each of the three blocks lowers the bound.  In [state_cancelled] the
    alpha system is singular although the gradient is not zero: a posterior
    variance of -1 cancels the curvature. *)
Definition fit_overshoot : inputs :=
  fit [[3]] 0 1 [[1]] [[-1.5]] (Some [[1]]) false false false true false 2 3.

Definition consts_scalar : consts :=
  {| args := fit_overshoot;
     maxiter := 3; tol := 0x1.a36e2eb1c432dp-14; verbose := false;
     dim_T := 1; dim_N := 1; dim_L := 1; regressor := [[1]] |}.

Definition state_scalar (b a m v : float) (bound : float) : vstate :=
  let q := {| beta := [[b]]; alpha := [[a]]; post_mean := [[m]]; post_cov := [[[v]]] |} in
  {| cur := q; rate := [[1]];
     prior := {| prior_cov := [[[1]]]; prior_inv := [[[1]]]; variance := [1]; w := [1];
                 bmat := [[0]]; bmat_is_matrix := false |};
     saved := {| last_b := [[0]]; last_a := [[0]]; last_m := [[0]]; last_rate := [[0]];
                 last_V := [[[0]]]; last_prior_cov := [[[0]]]; last_prior_inv := [[[0]]] |};
     good := q;
     steps := {| stepsize_alpha := [1]; stepsize_beta := [1]; stepsize_post_mean := [1];
                 stepsize_w := [1] |};
     lbound := [bound; neg_infinity; neg_infinity]; it := 1; converged := false;
     stdout := [] |}.

Definition state_overshoot : vstate := state_scalar (-1.5) 1 1 1 (-3.5).
Definition state_cancelled : vstate := state_scalar 0 0 1 (-1) (-1).

(** The state in which the fit [fit_no_history] starts: the design matrix
    is [[1, 0]] and the Newton system of beta singular. *)
Definition consts_lagged : consts :=
  {| args := fit_no_history;
     maxiter := 3; tol := 0x1.a36e2eb1c432dp-14; verbose := false;
     dim_T := 1; dim_N := 1; dim_L := 1; regressor := [[1; 0]] |}.

Definition state_lagged : vstate :=
  let q := {| beta := [[0]; [0]]; alpha := [[0]]; post_mean := [[0]]; post_cov := [[[1]]] |} in
  {| cur := q; rate := [[1]];
     prior := {| prior_cov := [[[1]]]; prior_inv := [[[1]]]; variance := [1]; w := [1];
                 bmat := [[0]]; bmat_is_matrix := false |};
     saved := {| last_b := [[0]; [0]]; last_a := [[0]]; last_m := [[0]]; last_rate := [[0]];
                 last_V := [[[0]]]; last_prior_cov := [[[0]]]; last_prior_inv := [[[0]]] |};
     good := q;
     steps := {| stepsize_alpha := [1]; stepsize_beta := [1]; stepsize_post_mean := [1];
                 stepsize_w := [1] |};
     lbound := [-1.5; neg_infinity; neg_infinity]; it := 1; converged := false;
     stdout := [] |}.

(** ** Notions used by the properties of whole runs *)

(** Strictly negative values. *)
Definition sf_neg (x : spec_float) : Prop :=
  match x with
  | S754_infinity true => True
  | S754_finite true _ ex => (emin64 <= ex)%Z
  | _ => False
  end.

(** A matrix with [k] columns. *)
Definition rectangular (k : nat) (M : fmat) : Prop := Forall (fun r => length r = k) M.

(** The current bound does not compare below the last recorded one. *)
Definition not_below `{Extern} (e : consts) (s : vstate) : Prop :=
  (lb_now e s <? prev_bound s) = false.

(** Two sets of loop constants that agree on everything the loop body
    reads, the [hyper] switch apart. *)
Definition same_fit (c1 c2 : consts) : Prop :=
  spike (args c1) = spike (args c2) /\
  spike_dtype (args c1) = spike_dtype (args c2) /\
  prior_mean (args c1) = prior_mean (args c2) /\
  fixalpha (args c1) = fixalpha (args c2) /\
  fixbeta (args c1) = fixbeta (args c2) /\
  fixpostmean (args c1) = fixpostmean (args c2) /\
  fixpostcov (args c1) = fixpostcov (args c2) /\
  normofalpha (args c1) = normofalpha (args c2) /\
  maxiter c1 = maxiter c2 /\ tol c1 = tol c2 /\ verbose c1 = verbose c2 /\
  dim_T c1 = dim_T c2 /\ dim_N c1 = dim_N c2 /\ dim_L c1 = dim_L c2 /\
  regressor c1 = regressor c2.

(** The call with another [control] dictionary, and with another value of
    the [hyper] switch. *)
Definition with_control (ctl : gmap string pyval) (inp : inputs) : inputs :=
  {| spike := spike inp; spike_dtype := spike_dtype inp; p := p inp;
     prior_mean := prior_mean inp;
     prior_var := prior_var inp; prior_w := prior_w inp;
     a0 := a0 inp; b0 := b0 inp; m0 := m0 inp;
     fixalpha := fixalpha inp; fixbeta := fixbeta inp;
     fixpostmean := fixpostmean inp; fixpostcov := fixpostcov inp;
     normofalpha := normofalpha inp; intercept := intercept inp; hyper := hyper inp;
     inchol_tol := inchol_tol inp; control := ctl |}.

Definition with_hyper (h : bool) (inp : inputs) : inputs :=
  {| spike := spike inp; spike_dtype := spike_dtype inp; p := p inp;
     prior_mean := prior_mean inp;
     prior_var := prior_var inp; prior_w := prior_w inp;
     a0 := a0 inp; b0 := b0 inp; m0 := m0 inp;
     fixalpha := fixalpha inp; fixbeta := fixbeta inp;
     fixpostmean := fixpostmean inp; fixpostcov := fixpostcov inp;
     normofalpha := normofalpha inp; intercept := intercept inp; hyper := h;
     inchol_tol := inchol_tol inp; control := control inp |}.

(** A finite, strictly positive double. *)
Definition positive_finite (x : float) : bool := is_finite x && (0 <? x).

(** Every rate the optimizer holds is finite and strictly positive. *)
Definition rates_positive (s : vstate) : Prop :=
  Forall (Forall (fun x => positive_finite x = true)) (rate s).

(** The step sizes of the three guarded updaters are strictly positive. *)
Definition steps_positive (s : vstate) : Prop :=
  Forall (fun x => (0 <? x) = true) (stepsize_alpha (steps s)) /\
  Forall (fun x => (0 <? x) = true) (stepsize_beta (steps s)) /\
  Forall (fun x => (0 <? x) = true) (stepsize_post_mean (steps s)).

(** The rate matrix holds the rates of the current parameters, as an array
    of the dtype of [spike] stores them. *)
Definition rate_consistent `{Extern} (e : consts) (s : vstate) : Prop :=
  length (rate s) = dim_T e /\
  forall t n r x, rate s !! t = Some r -> r !! n = Some x ->
    x = astype (spike_dtype (args e))
          (saferate t n (regressor e) (post_mean (cur s)) (post_cov (cur s))
             (beta (cur s)) (alpha (cur s))).

(** ** [vb.lowerbound] and the design matrix of [vb.variational] *)

(** Lines 28-30 of [vb.py]: the rate matrix [vb.lowerbound] builds for
    itself. *)
Definition vb_rates `{Extern} (y Y m : fmat) (V : ftens) (b a : fmat) : fmat :=
  fold_left (fun r (rc : nat * nat) =>
               set_elem r rc.1 rc.2 (vb_saferate rc.1 rc.2 Y m V b a))
            (list_prod (range (length y)) (range (ncols y))) (zeros_like y).

(** Lines 10-38 of [vb.py]. *)
Definition vb_lowerbound `{Extern} (y Y mu : fmat) (omega : ftens) (m : fmat) (V : ftens)
    (b a : fmat) : float :=
  let L := ncols mu in
  let rate := vb_rates y Y m V b a in
  let lbound := np_sum (msub (mhad y (madd (mat_mul Y b) (mat_mul m a))) rate) in
  fold_left
    (fun lbound l =>
       let d := vsub (col m l) (col mu l) in
       lbound
       + (((- 0.5) * dot d (mat_vec (slice omega l) d)
           + (- 0.5) * trace (mat_mul (slice omega l) (slice V l)))
          + 0.5 * slogdet (slice V l)))
    (range L) lbound.

(** Lines 120-126 of [vb.py]: the design matrix, a column of ones and the
    [p] bins before each bin, oldest first, with zeros where the record
    has not started. *)
Definition vb_regressor (y : fmat) (p : nat) : fmat := Ref.lagged y p true.

(** ** Doubles as real numbers *)

Definition bpow (e : Z) : R := powerRZ 2 e.

(** The real number a double stands for (0 for NaN and the infinities). *)
Definition SF2R (x : spec_float) : R :=
  match x with
  | S754_finite s m e => ((if s then -1 else 1) * IZR (Z.pos m) * bpow e)%R
  | _ => 0%R
  end.
Definition value (x : float) : R := SF2R (Prim2SF x).

(** Zero or a finite number. *)
Definition sf_finite (x : spec_float) : Prop :=
  match x with
  | S754_zero _ | S754_finite _ _ _ => True
  | _ => False
  end.

(** A number whose exponent is not below the least one. *)
Definition sf_valid (x : spec_float) : Prop :=
  match x with
  | S754_finite _ _ e => (emin64 <= e)%Z
  | _ => True
  end.

(** The sum and the mean of a list of real numbers. *)
Definition sumR (a : list R) : R := fold_right Rplus 0%R a.
Definition meanR (a : list R) : R := (sumR a / INR (length a))%R.

(** The sum of the squares, and of the products entry by entry. *)
Definition sumsq (a : list R) : R := fold_right (fun x acc => (x * x + acc)%R) 0%R a.
Definition sumprod {A : Type} (f g : A -> R) (l : list A) : R :=
  fold_right (fun x acc => (f x * g x + acc)%R) 0%R l.

(** The largest magnitude of a list of real numbers. *)
Definition maxabsR (a : list R) : R := fold_right (fun x acc => Rmax (Rabs x) acc) 0%R a.

(** * Facts about binary64 arithmetic *)

Section FloatFacts.
Local Open Scope Z_scope.

Lemma digits2_pos_lower (p : positive) : 2 ^ (Z.pos (digits2_pos p) - 1) <= Z.pos p.
Proof.
  induction p as [p IH | p IH |]; simpl digits2_pos.
  - rewrite Pos2Z.inj_succ.
    replace (Z.succ (Z.pos (digits2_pos p)) - 1) with (Z.succ (Z.pos (digits2_pos p) - 1)) by lia.
    rewrite Z.pow_succ_r by lia. lia.
  - rewrite Pos2Z.inj_succ.
    replace (Z.succ (Z.pos (digits2_pos p)) - 1) with (Z.succ (Z.pos (digits2_pos p) - 1)) by lia.
    rewrite Z.pow_succ_r by lia. lia.
  - simpl. lia.
Qed.

Lemma shr_1_m (mrs : shr_record) : 0 <= shr_m mrs -> shr_m (shr_1 mrs) = shr_m mrs / 2.
Proof.
  destruct mrs as [m r s]. cbn [shr_m]. intros Hm.
  destruct m as [| [q | q |] |]; cbn [shr_1 shr_m]; try lia.
  - reflexivity.
  - apply Z.div_unique with (r := 1); lia.
  - apply Z.div_unique with (r := 0); lia.
  - reflexivity.
Qed.

Lemma pow2_xI (p : positive) : 2 ^ Z.pos p~1 = 2 * 2 ^ Z.pos p * 2 ^ Z.pos p.
Proof.
  replace (Z.pos p~1) with (1 + Z.pos p + Z.pos p) by lia.
  rewrite !Z.pow_add_r by lia. reflexivity.
Qed.

Lemma pow2_xO (p : positive) : 2 ^ Z.pos p~0 = 2 ^ Z.pos p * 2 ^ Z.pos p.
Proof.
  replace (Z.pos p~0) with (Z.pos p + Z.pos p) by lia.
  rewrite !Z.pow_add_r by lia. reflexivity.
Qed.

Lemma iter_shr_1_m (p : positive) : forall mrs, 0 <= shr_m mrs ->
  shr_m (SpecFloat.iter_pos shr_1 p mrs) = shr_m mrs / 2 ^ Z.pos p.
Proof.
  assert (Hp : forall q : positive, 0 < 2 ^ Z.pos q) by (intros; apply Z.pow_pos_nonneg; lia).
  assert (Hd : forall a b, 0 <= a -> 0 < b -> 0 <= a / b) by (intros; apply Z.div_pos; lia).
  induction p as [p IH | p IH |]; intros mrs Hm; cbn [SpecFloat.iter_pos].
  - assert (H1 : 0 <= shr_m (shr_1 mrs)).
    { rewrite shr_1_m by exact Hm. apply Hd; lia. }
    assert (H2 : 0 <= shr_m (SpecFloat.iter_pos shr_1 p (shr_1 mrs))).
    { rewrite IH by exact H1. apply Hd; [exact H1 | apply Hp]. }
    rewrite (IH _ H2), (IH _ H1), (shr_1_m _ Hm).
    rewrite !Z.div_div by (try apply Hp; lia). rewrite pow2_xI. f_equal. ring.
  - assert (H2 : 0 <= shr_m (SpecFloat.iter_pos shr_1 p mrs)).
    { rewrite IH by exact Hm. apply Hd; [exact Hm | apply Hp]. }
    rewrite (IH _ H2), (IH _ Hm).
    rewrite !Z.div_div by (try apply Hp; lia). rewrite pow2_xO. f_equal; ring.
  - rewrite shr_1_m by lia. reflexivity.
Qed.

Lemma shr_record_of_loc_m m l : shr_m (shr_record_of_loc m l) = m.
Proof. destruct l as [| []]; reflexivity. Qed.

(** Shifting to the canonical exponent keeps a mantissa non-negative, and
    positive when the exponent is not below [emin]. *)
Lemma shr_fexp_nonneg m e l :
  0 <= m -> 0 <= shr_m (fst (shr_fexp prec emax m e l)) /\ emin64 <= snd (shr_fexp prec emax m e l).
Proof.
  intros Hm. unfold shr_fexp, shr, fexp, SpecFloat.emin, prec, emax, emin64.
  destruct (Z.max (Zdigits2 m + e - 53) (3 - 1024 - 53) - e) as [| q | q] eqn:E; cbn [fst snd].
  - rewrite shr_record_of_loc_m. lia.
  - rewrite iter_shr_1_m by (rewrite shr_record_of_loc_m; lia).
    rewrite shr_record_of_loc_m. split; [apply Z.div_pos; [lia | apply Z.pow_pos_nonneg; lia] | lia].
  - rewrite shr_record_of_loc_m. lia.
Qed.

Lemma shr_fexp_pos m e l :
  0 < m -> emin64 <= e ->
  0 < shr_m (fst (shr_fexp prec emax m e l)) /\ emin64 <= snd (shr_fexp prec emax m e l).
Proof.
  intros Hm He. unfold shr_fexp, shr, fexp, SpecFloat.emin, prec, emax, emin64 in *.
  destruct (Z.max (Zdigits2 m + e - 53) (3 - 1024 - 53) - e) as [| q | q] eqn:E; cbn [fst snd].
  - rewrite shr_record_of_loc_m. lia.
  - rewrite iter_shr_1_m by (rewrite shr_record_of_loc_m; lia).
    rewrite shr_record_of_loc_m. split; [| lia].
    destruct m as [| pm |]; try lia. cbn [Zdigits2] in E.
    pose proof (digits2_pos_lower pm) as Hd.
    assert (Hq : Z.pos q <= Z.pos (digits2_pos pm) - 1) by lia.
    assert (2 ^ Z.pos q <= 2 ^ (Z.pos (digits2_pos pm) - 1)) by (apply Z.pow_le_mono_r; lia).
    apply Z.div_str_pos. split; [apply Z.pow_pos_nonneg; lia | lia].
  - rewrite shr_record_of_loc_m. lia.
Qed.

Lemma round_nearest_even_ge m l : m <= round_nearest_even m l.
Proof. destruct l as [| []]; cbn; try destruct (Z.even m); lia. Qed.

Lemma binary_round_aux_nonneg m e l :
  0 <= m -> sf_nonneg (binary_round_aux prec emax false m e l).
Proof.
  intros Hm. unfold binary_round_aux.
  pose proof (shr_fexp_nonneg m e l Hm) as [H1 _].
  destruct (shr_fexp prec emax m e l) as [mrs' e'] eqn:E1. cbn [fst snd] in *.
  pose proof (round_nearest_even_ge (shr_m mrs') (loc_of_shr_record mrs')) as Hr.
  pose proof (shr_fexp_nonneg (round_nearest_even (shr_m mrs') (loc_of_shr_record mrs')) e' loc_Exact
                ltac:(lia)) as [H2 H3].
  destruct (shr_fexp prec emax _ e' loc_Exact) as [mrs'' e''] eqn:E2. cbn [fst snd] in *.
  destruct (shr_m mrs'') as [| q | q]; cbn; try lia; try exact I.
  destruct (e'' <=? emax - prec); cbn; [exact H3 | exact I].
Qed.

Lemma binary_round_aux_pos m e l :
  0 < m -> emin64 <= e -> sf_pos (binary_round_aux prec emax false m e l).
Proof.
  intros Hm He. unfold binary_round_aux.
  pose proof (shr_fexp_pos m e l Hm He) as [H1 H1'].
  destruct (shr_fexp prec emax m e l) as [mrs' e'] eqn:E1. cbn [fst snd] in *.
  pose proof (round_nearest_even_ge (shr_m mrs') (loc_of_shr_record mrs')) as Hr.
  pose proof (shr_fexp_pos (round_nearest_even (shr_m mrs') (loc_of_shr_record mrs')) e' loc_Exact
                ltac:(lia) H1') as [H2 H3].
  destruct (shr_fexp prec emax _ e' loc_Exact) as [mrs'' e''] eqn:E2. cbn [fst snd] in *.
  destruct (shr_m mrs'') as [| q | q]; cbn; try lia.
  destruct (e'' <=? emax - prec); cbn; [exact H3 | exact I].
Qed.

Lemma binary_round_pos m e :
  emin64 <= e -> sf_pos (binary_round prec emax false m e).
Proof.
  intros He. unfold binary_round, shl_align.
  destruct (fexp prec emax (Z.pos (digits2_pos m) + e) - e) as [| q | q] eqn:E.
  - apply binary_round_aux_pos; lia.
  - apply binary_round_aux_pos; lia.
  - apply binary_round_aux_pos; [lia |].
    unfold fexp, SpecFloat.emin, prec, emax, emin64 in *. lia.
Qed.

(** Adding a positive valid number to a non-negative one gives a positive
    one. *)
Lemma SFadd_nonneg_pos x m e :
  sf_nonneg x -> emin64 <= e -> sf_pos (SF64add x (S754_finite false m e)).
Proof.
  intros Hx He. destruct x as [[] | [] | | [] mx ex]; cbn in Hx; try contradiction;
    try exact He; try exact I.
  unfold SF64add, SFadd. cbn [cond_Zopp].
  set (a := fst (shl_align mx ex (Z.min ex e))).
  set (b := fst (shl_align m e (Z.min ex e))).
  change (Z.pos a + Z.pos b) with (Z.pos (a + b)). cbn [binary_normalize].
  apply binary_round_pos. lia.
Qed.

Lemma SFmul_nonneg m e m' e' :
  sf_nonneg (SF64mul (S754_finite false m e) (S754_finite false m' e')).
Proof. cbn. apply binary_round_aux_nonneg. lia. Qed.

Lemma sf_pos_ltb x : sf_pos x -> SFltb (S754_zero false) x = true.
Proof. destruct x as [[] | [] | | [] mx ex]; cbn; intros; try contradiction; reflexivity. Qed.
End FloatFacts.

Open Scope float_scope.

(** [x * 0.5 + eps], the shrunk step size, is positive when [x] is. *)
Lemma shrink_positive (x : float) :
  (0 <? x) = true -> (0 <? x * deflation + eps) = true.
Proof.
  rewrite !FloatAxioms.ltb_spec, FloatAxioms.add_spec, FloatAxioms.mul_spec.
  change (Prim2SF 0) with (S754_zero false).
  change (Prim2SF eps) with (S754_finite false 4503599627370496 (-103)).
  change (Prim2SF deflation) with (S754_finite false 4503599627370496 (-53)).
  intros Hx. apply sf_pos_ltb, SFadd_nonneg_pos; [| unfold emin64; lia].
  destruct (Prim2SF x) as [[] | [] | | [] mx ex]; cbn in Hx; try discriminate.
  - exact I.
  - apply SFmul_nonneg.
Qed.

(** * Arrays: column and row assignment *)

Section Arrays.
Implicit Types (M R : fmat) (c : fvec) (i j n : nat).

Lemma insert_getv (r : fvec) j : <[j := getv r j]> r = r.
Proof.
  unfold getv. destruct (r !! j) as [x |] eqn:E; cbn.
  - by apply list_insert_id.
  - apply list_insert_ge. by apply lookup_ge_None.
Qed.

Lemma col_cons (r : fvec) M j : col (r :: M) j = getv r j :: col M j.
Proof. reflexivity. Qed.

Lemma set_col_col M j : set_col M j (col M j) = M.
Proof.
  induction M as [| r M IH]; [done |].
  rewrite col_cons. cbn [set_col]. by rewrite insert_getv, IH.
Qed.

Lemma length_set_col M j c : length (set_col M j c) = length M.
Proof.
  revert c. induction M as [| r M IH]; intros [| x c]; cbn; try done. by rewrite IH.
Qed.

Lemma length_col M j : length (col M j) = length M.
Proof. unfold col. by rewrite length_map. Qed.

(** A column assignment overwrites an earlier one, as long as it covers
    all rows. *)
Lemma set_col_set_col M j c c' :
  length M <= length c' -> set_col (set_col M j c) j c' = set_col M j c'.
Proof.
  revert c c'. induction M as [| r M IH]; intros c c' Hl; [by destruct c |].
  destruct c' as [| y c']; [cbn in Hl; lia |].
  destruct c as [| x c]; cbn; [done |].
  rewrite list_insert_insert_eq. f_equal. apply IH. cbn in Hl. lia.
Qed.

Lemma set_col_set_elem M i j x c' :
  length M <= length c' -> set_col (set_elem M i j x) j c' = set_col M j c'.
Proof.
  revert i c'. induction M as [| r M IH]; intros i c' Hl; [done |].
  destruct c' as [| y c']; [cbn in Hl; lia |].
  destruct i as [| i]; cbn.
  - by rewrite list_insert_insert_eq.
  - f_equal. apply (IH i). cbn in Hl. lia.
Qed.

Lemma length_set_elem M i j x : length (set_elem M i j x) = length M.
Proof. unfold set_elem. apply length_alter. Qed.

(** Reading back the column that was just written. *)
Lemma col_set_col M j c :
  length c = length M -> Forall (fun r => j < length r) M -> col (set_col M j c) j = c.
Proof.
  revert c. induction M as [| r M IH]; intros [| x c] Hl Hc; cbn in Hl; try done.
  inversion Hc as [| ? ? Hr HM]; subst.
  cbn [set_col]. rewrite col_cons, IH by (try done; lia). f_equal.
  unfold getv. by rewrite list_lookup_insert_eq.
Qed.

Lemma Forall_length_set_col (k : nat) M j c :
  Forall (fun r => length r = k) M -> Forall (fun r => length r = k) (set_col M j c).
Proof.
  revert c. induction M as [| r M IH]; intros [| x c] HM; cbn; try done.
  inversion HM; subst. constructor; [by rewrite length_insert | by apply IH].
Qed.

Lemma Forall_length_set_elem (k : nat) M i j x :
  Forall (fun r => length r = k) M -> Forall (fun r => length r = k) (set_elem M i j x).
Proof.
  revert i. induction M as [| r M IH]; intros i HM; [done |].
  inversion HM; subst. destruct i; cbn; constructor; try done.
  - by rewrite length_insert.
  - by apply IH.
Qed.

Lemma row_set_row M i r : i < length M -> row (set_row M i r) i = r.
Proof. intros Hi. unfold row, set_row. by rewrite list_lookup_insert_eq. Qed.

Lemma set_row_row M i : set_row M i (row M i) = M.
Proof.
  unfold set_row, row. destruct (M !! i) as [r |] eqn:E; cbn.
  - by apply list_insert_id.
  - apply list_insert_ge. by apply lookup_ge_None.
Qed.

Lemma set_row_set_row M i r r' : set_row (set_row M i r) i r' = set_row M i r'.
Proof. unfold set_row. apply list_insert_insert_eq. Qed.
End Arrays.

(** * Loops *)

Section ForEach.
Context {S : Type}.
Implicit Types (body : nat -> S -> res (flow * S)) (s : S).

Lemma for_each_break body n ns s :
  body n s = Ok (Break, s) -> for_each body (n :: ns) s = Ok s.
Proof. intros Hb. cbn. by rewrite Hb. Qed.

Lemma for_each_next body n ns s s' :
  body n s = Ok (Next, s') -> for_each body (n :: ns) s = for_each body ns s'.
Proof. intros Hb. cbn. by rewrite Hb. Qed.

(** A property that every pass of the body keeps, the loop keeps. *)
Lemma for_each_invariant (P : S -> Prop) body ns :
  (forall n s fl s', P s -> body n s = Ok (fl, s') -> P s') ->
  forall s s', P s -> for_each body ns s = Ok s' -> P s'.
Proof.
  intros Hbody. induction ns as [| n ns IH]; intros s s' HP Hrun; cbn in Hrun.
  - by inversion Hrun; subst.
  - destruct (body n s) as [[[] s1] | ex] eqn:Eb; try discriminate.
    + eapply IH; [eapply Hbody; eassumption | exact Hrun].
    + inversion Hrun; subst. eapply Hbody; eassumption.
Qed.
End ForEach.

(** * The rate refresh *)

Section Refresh.
Context `{Extern}.
Variable e : consts.

Lemma list_prod_single (rows : list nat) (n : nat) :
  Forall (fun rc : nat * nat => rc.2 = n) (list_prod rows [n]).
Proof. induction rows as [| t rows IH]; cbn; by constructor. Qed.

Lemma fold_set_elem_length (f : nat * nat -> float) ps (M : fmat) :
  length (fold_left (fun r (rc : nat * nat) => set_elem r rc.1 rc.2 (f rc)) ps M) = length M.
Proof.
  revert M. induction ps as [| rc ps IH]; intros M; cbn; [done |].
  by rewrite IH, length_set_elem.
Qed.

Lemma fold_set_elem_rows (k : nat) (f : nat * nat -> float) ps (M : fmat) :
  Forall (fun r => length r = k) M ->
  Forall (fun r => length r = k)
    (fold_left (fun r (rc : nat * nat) => set_elem r rc.1 rc.2 (f rc)) ps M).
Proof.
  revert M. induction ps as [| rc ps IH]; intros M HM; cbn; [done |].
  by apply IH, Forall_length_set_elem.
Qed.

Lemma fold_set_elem_col (f : nat * nat -> float) ps (M : fmat) (n : nat) (c' : fvec) :
  Forall (fun rc : nat * nat => rc.2 = n) ps -> length M <= length c' ->
  set_col (fold_left (fun r (rc : nat * nat) => set_elem r rc.1 rc.2 (f rc)) ps M) n c'
  = set_col M n c'.
Proof.
  revert M. induction ps as [| rc ps IH]; intros M Hps Hl; cbn; [done |].
  inversion Hps as [| ? ? Hrc Hps']; subst.
  rewrite IH by (try done; by rewrite length_set_elem).
  by apply set_col_set_elem.
Qed.

(** Refreshing column [n] changes nothing that a later assignment to the
    whole column does not overwrite. *)
Lemma updaterate_col rows n (s : vstate) (c' : fvec) :
  length (rate s) <= length c' ->
  set_col (rate (updaterate e rows [n] s)) n c' = set_col (rate s) n c'.
Proof. intros Hl. cbn. by apply fold_set_elem_col; [apply list_prod_single |]. Qed.

Lemma updaterate_length rows cols (s : vstate) :
  length (rate (updaterate e rows cols s)) = length (rate s).
Proof. cbn. apply fold_set_elem_length. Qed.

Lemma updaterate_rows (k : nat) rows cols (s : vstate) :
  Forall (fun r => length r = k) (rate s) ->
  Forall (fun r => length r = k) (rate (updaterate e rows cols s)).
Proof. cbn. apply fold_set_elem_rows. Qed.

(** The bound reads the four blocks, the rate and the prior matrices. *)
Lemma lb_now_frame (s s' : vstate) :
  cur s' = cur s -> rate s' = rate s ->
  prior_cov (prior s') = prior_cov (prior s) ->
  prior_inv (prior s') = prior_inv (prior s) ->
  lb_now e s' = lb_now e s.
Proof. unfold lb_now. by intros -> -> -> ->. Qed.
End Refresh.

(** * The step-size update *)

Lemma getv_setv (v : fvec) (i : nat) (x : float) :
  i < length v -> getv (setv v i x) i = x.
Proof. intros Hi. unfold getv, setv. by rewrite list_lookup_insert_eq. Qed.

Lemma getv_shrink (v : fvec) (i : nat) :
  i < length v -> getv (shrink v i) i = getv v i * deflation + eps.
Proof.
  intros Hi. unfold shrink. rewrite getv_setv by (unfold setv; by rewrite length_insert).
  by rewrite getv_setv.
Qed.

Lemma shrink_stays_positive (v : fvec) (i : nat) :
  (0 <? getv v i) = true -> (0 <? getv (shrink v i) i) = true.
Proof.
  intros Hpos. destruct (decide (i < length v)) as [Hi | Hi].
  - rewrite getv_shrink by done. by apply shrink_positive.
  - unfold getv in Hpos. rewrite lookup_ge_None_2 in Hpos by lia. discriminate.
Qed.

(** * Rejected steps *)

Section Rollback.
Context `{Extern}.
Variable e : consts.

Lemma beta_reject (n : nat) (delta : fvec) (predict : float) (s : vstate) :
  well_formed e s -> n < dim_N e ->
  rejected (lb_now e (beta_trial e n delta s)) (prev_bound s) = true ->
  let s' := beta_settle e n predict (beta_trial e n delta s) in
  cur s' = cur s /\ rate s' = rate s /\
  stepsize_beta (steps s') = shrink (stepsize_beta (steps s)) n /\
  stepsize_alpha (steps s') = stepsize_alpha (steps s) /\
  stepsize_post_mean (steps s') = stepsize_post_mean (steps s) /\
  stepsize_w (steps s') = stepsize_w (steps s) /\
  prior s' = prior s /\ lbound s' = lbound s /\ it s' = it s.
Proof.
  intros (Hb & Hbr & Hr & Hrr & Hrate & _) Hn Hrej. cbn zeta.
  unfold beta_settle.
  change (prev_bound (beta_trial e n delta s)) with (prev_bound s). rewrite Hrej.
  destruct s as [[b a m V] r pr [lb la lm lr lV lpc lpi] gd st lbd i cv out].
  cbn -[col set_col list_prod] in *. repeat split.
  - rewrite (col_set_col lb).
    + rewrite set_col_set_col by (by rewrite length_col). by rewrite set_col_col.
    + by rewrite length_col.
    + eapply Forall_impl; [exact Hbr |]. cbn. intros; lia.
  - rewrite (col_set_col lr).
    + rewrite fold_set_elem_col; [apply set_col_col | apply list_prod_single |].
      by rewrite length_col.
    + by rewrite length_col.
    + eapply Forall_impl; [exact Hrr |]. cbn. intros; lia.
Qed.

Lemma alpha_reject (l : nat) (delta : fvec) (predict : float) (s s5 : vstate) :
  well_formed e s ->
  alpha_trial e l delta s = Ok s5 ->
  rejected_alpha (lb_now e s5) (prev_bound s) = true ->
  let s' := alpha_settle e l predict s5 in
  cur s' = cur s /\ rate s' = rate s /\
  stepsize_alpha (steps s') = shrink (stepsize_alpha (steps s)) l /\
  stepsize_beta (steps s') = stepsize_beta (steps s) /\
  stepsize_post_mean (steps s') = stepsize_post_mean (steps s) /\
  stepsize_w (steps s') = stepsize_w (steps s) /\
  prior s' = prior s /\ lbound s' = lbound s /\ it s' = it s.
Proof.
  intros (_ & _ & _ & _ & _ & Ha & _) Htrial Hrej. cbn zeta.
  unfold alpha_trial in Htrial. cbn -[row set_row] in Htrial.
  destruct (linalg_norm _) as [nl | ex] eqn:En; [| discriminate].
  cbn -[row set_row] in Htrial.
  destruct (py_div _ _) as [k | ex] eqn:Ek; [| discriminate].
  cbn -[row set_row] in Htrial. inversion Htrial as [Hs5]. clear Htrial.
  subst s5. unfold alpha_settle.
  match goal with |- context [prev_bound ?t] => change (prev_bound t) with (prev_bound s) end.
  rewrite Hrej.
  destruct s as [[b a m V] r pr [lb la lm lr lV lpc lpi] gd st lbd i cv out].
  cbn -[row set_row list_prod] in *. repeat split.
  rewrite !set_row_set_row.
  destruct (decide (l < length a)) as [Hl | Hl].
  - rewrite row_set_row by lia. by rewrite set_row_row.
  - unfold set_row. by rewrite list_insert_ge by lia.
Qed.

Lemma mean_reject (l : nat) (delta : fvec) (predict : float) (s : vstate) :
  well_formed e s -> l < dim_L e ->
  rejected (lb_now e (mean_trial e l delta s)) (prev_bound s) = true ->
  let s' := mean_settle e l predict (mean_trial e l delta s) in
  cur s' = cur s /\ rate s' = rate s /\
  stepsize_post_mean (steps s') = shrink (stepsize_post_mean (steps s)) l /\
  stepsize_alpha (steps s') = stepsize_alpha (steps s) /\
  stepsize_beta (steps s') = stepsize_beta (steps s) /\
  stepsize_w (steps s') = stepsize_w (steps s) /\
  prior s' = prior s /\ lbound s' = lbound s /\ it s' = it s.
Proof.
  intros (_ & _ & _ & _ & _ & _ & Hm & Hmr) Hl Hrej. cbn zeta.
  unfold mean_settle.
  change (prev_bound (mean_trial e l delta s)) with (prev_bound s). rewrite Hrej.
  destruct s as [[b a m V] r pr [lb la lm lr lV lpc lpi] gd st lbd i cv out].
  cbn -[col set_col list_prod] in *. repeat split.
  rewrite (col_set_col lm).
  - rewrite (set_col_set_col _ _ _ (col m l)) by (rewrite ?length_set_col, ?length_col; lia).
    rewrite (set_col_set_col _ _ _ (col m l)) by (rewrite ?length_col; lia).
    by rewrite set_col_col.
  - by rewrite length_col.
  - eapply Forall_impl; [exact Hmr |]. cbn. intros; lia.
Qed.

(** The Woodbury helper rebinds [w] and [bmat] and nothing else. *)
Lemma woodbury_frame (l : nat) (s s0 : vstate) (hinv : fmat) :
  woodbury e l s = Ok (s0, hinv) ->
  s0 = upd_prior (fun q =>
         set_bmat (bmat (prior s0)) true (set_w (w (prior s0)) q)) s.
Proof.
  unfold woodbury. intros Hw. cbn in Hw.
  destruct (linalg_cholesky _) as [bchol | ex]; [| discriminate]. cbn in Hw.
  destruct (linalg_lstsq bchol _) as [X1 | ex]; [| discriminate]. cbn in Hw.
  destruct (linalg_lstsq (transpose bchol) X1) as [X2 | ex]; [| discriminate]. cbn in Hw.
  by inversion Hw.
Qed.
End Rollback.

(** * C2: rejected steps *)

Lemma bind_ok {A B : Type} (a : A) (f : A -> res B) : (Ok a ≫= f) = f a.
Proof. reflexivity. Qed.

Section RejectedStep.
Context `{Extern}.
Variable e : consts.

Lemma well_formed_woodbury (l : nat) (s s0 : vstate) (hinv : fmat) :
  woodbury e l s = Ok (s0, hinv) ->
  cur s0 = cur s /\ rate s0 = rate s /\ steps s0 = steps s /\ saved s0 = saved s /\
  lbound s0 = lbound s /\ it s0 = it s /\ converged s0 = converged s /\
  stdout s0 = stdout s /\ good s0 = good s /\
  prior_cov (prior s0) = prior_cov (prior s) /\
  prior_inv (prior s0) = prior_inv (prior s) /\
  variance (prior s0) = variance (prior s).
Proof. intros Hw. rewrite (woodbury_frame e l s s0 hinv Hw). by repeat split. Qed.

(** C2 (as amended).  For each of the three block updaters, in a state
    whose recovery buffers have the shapes of the arrays they shadow: when
    the tentative step is rejected by the test the source applies (the new
    bound is NaN or compares below [lbound[it - 1]]; for alpha, the
    difference compares below zero), the updater call ends normally, the
    four parameter blocks and the whole rate matrix are exactly what they
    were before the call, the step size of the block is
    [old * deflation + eps], and it is positive if the old one was. *)
Theorem rejected_step_is_rolled_back (s : vstate) (i : nat) :
  well_formed e s ->
  (forall x sol,
      i < dim_N e ->
      linalg_norm_inf (grad_b e i s) = Ok x -> (x <? eps) = false ->
      linalg_solve (neg_hess_b e i s) (grad_b e i s) = Ok sol ->
      rejected (lb_now e (beta_trial e i (vscale (getv (stepsize_beta (steps s)) i) sol) s))
               (prev_bound s) = true ->
      exists s', beta_block e i s = Ok (Next, s') /\
        cur s' = cur s /\ rate s' = rate s /\
        stepsize_beta (steps s') = shrink (stepsize_beta (steps s)) i /\
        ((0 <? getv (stepsize_beta (steps s)) i) = true ->
         (0 <? getv (stepsize_beta (steps s')) i) = true))
  /\
  (forall x step sol s5,
      linalg_norm_inf (grad_a e i s) = Ok x -> (x <? eps) = false ->
      index (stepsize_alpha (steps s)) i = Ok step ->
      linalg_solve (neg_hess_a i s) (grad_a e i s) = Ok sol ->
      alpha_trial e i (vscale step sol) s = Ok s5 ->
      rejected_alpha (lb_now e s5) (prev_bound s) = true ->
      exists s', alpha_block e i s = Ok (Next, s') /\
        cur s' = cur s /\ rate s' = rate s /\
        stepsize_alpha (steps s') = shrink (stepsize_alpha (steps s)) i /\
        ((0 <? getv (stepsize_alpha (steps s)) i) = true ->
         (0 <? getv (stepsize_alpha (steps s')) i) = true))
  /\
  (forall x s0 hinv X,
      i < dim_L e ->
      woodbury e i s = Ok (s0, hinv) ->
      linalg_norm_inf (grad_m e i s) = Ok x -> (x <? eps) = false ->
      let s5 := mean_trial e i
                  (vscale (getv (stepsize_post_mean (steps s)) i) (mat_vec hinv (grad_m e i s)))
                  s0 in
      lstsq_vec hinv (vsub (col (post_mean (cur s5)) i) (col (last_m (saved s5)) i)) = Ok X ->
      rejected (lb_now e s5) (prev_bound s) = true ->
      exists s', mean_block e i s = Ok (Next, s') /\
        cur s' = cur s /\ rate s' = rate s /\
        stepsize_post_mean (steps s') = shrink (stepsize_post_mean (steps s)) i /\
        ((0 <? getv (stepsize_post_mean (steps s)) i) = true ->
         (0 <? getv (stepsize_post_mean (steps s')) i) = true)).
Proof.
  intros Hwf. repeat split.
  - intros x sol Hi Hn Hx Hsol Hrej.
    eexists. split.
    + unfold beta_block. rewrite Hn, bind_ok, Hx, Hsol. reflexivity.
    + destruct (beta_reject e i _ 
        (dot (grad_b e i s) (vscale (getv (stepsize_beta (steps s)) i) sol)
         - 0.5 * dot (vscale (getv (stepsize_beta (steps s)) i) sol)
                     (mat_vec (neg_hess_b e i s) (vscale (getv (stepsize_beta (steps s)) i) sol)))
        s Hwf Hi Hrej) as (Hc & Hr & Hs & _).
      repeat split; try done. rewrite Hs. apply shrink_stays_positive.
  - intros x step sol s5 Hn Hx Hstep Hsol Htrial Hrej.
    eexists. split.
    + unfold alpha_block. rewrite Hn, bind_ok, Hx, Hstep, bind_ok, Hsol, Htrial, bind_ok.
      reflexivity.
    + destruct (alpha_reject e i _
        (dot (grad_a e i s) (vsub (row (alpha (cur s5)) i) (row (last_a (saved s5)) i))
         - 0.5 * dot (vsub (row (alpha (cur s5)) i) (row (last_a (saved s5)) i))
                     (mat_vec (neg_hess_a i s)
                        (vsub (row (alpha (cur s5)) i) (row (last_a (saved s5)) i))))
        s s5 Hwf Htrial Hrej) as (Hc & Hr & Hs & _).
      repeat split; try done. rewrite Hs. apply shrink_stays_positive.
  - intros x s0 hinv X Hi Hw Hn Hx s5 HX Hrej.
    destruct (well_formed_woodbury i s s0 hinv Hw)
      as (Hc0 & Hr0 & Hst0 & Hsv0 & Hlb0 & Hit0 & _ & _ & _ & Hpc0 & Hpi0 & _).
    assert (Hwf0 : well_formed e s0).
    { unfold well_formed. by rewrite Hc0, Hr0, Hsv0. }
    assert (Hprev : prev_bound s0 = prev_bound s).
    { unfold prev_bound. by rewrite Hlb0, Hit0. }
    eexists. split.
    + unfold mean_block. rewrite Hw, bind_ok, Hn, bind_ok, Hx.
      rewrite Hst0. fold s5. rewrite HX, bind_ok. reflexivity.
    + cbn zeta. rewrite <- Hprev in Hrej. subst s5.
      destruct (mean_reject e i _
        (dot (grad_m e i s)
           (vsub (col (post_mean (cur (mean_trial e i
                    (vscale (getv (stepsize_post_mean (steps s)) i)
                       (mat_vec hinv (grad_m e i s))) s0))) i)
                 (col (last_m (saved (mean_trial e i
                    (vscale (getv (stepsize_post_mean (steps s)) i)
                       (mat_vec hinv (grad_m e i s))) s0))) i))
         - 0.5 * dot
           (vsub (col (post_mean (cur (mean_trial e i
                    (vscale (getv (stepsize_post_mean (steps s)) i)
                       (mat_vec hinv (grad_m e i s))) s0))) i)
                 (col (last_m (saved (mean_trial e i
                    (vscale (getv (stepsize_post_mean (steps s)) i)
                       (mat_vec hinv (grad_m e i s))) s0))) i)) X)
        s0 Hwf0 Hi Hrej) as (Hc & Hr & Hs & _).
      rewrite Hc, Hr, Hs, Hc0, Hr0, Hst0.
      repeat split; try done. apply shrink_stays_positive.
Qed.
End RejectedStep.

Lemma overshoot_is_a_start :
  start_of (H := Ref.kernels) fit_overshoot = Some (consts_scalar, state_overshoot).
Proof. vm_compute. reflexivity. Qed.

Lemma well_formed_overshoot : well_formed consts_scalar state_overshoot.
Proof. unfold well_formed. cbn. repeat split; repeat constructor. Defined.

Lemma rejected_step_is_rolled_back_witness :
  (exists s', beta_block (H := Ref.kernels) consts_scalar 0 state_overshoot = Ok (Next, s') /\
     cur s' = cur state_overshoot /\ rate s' = rate state_overshoot /\
     stepsize_beta (steps s') = [1 * deflation + eps] /\
     (0 <? getv (stepsize_beta (steps s')) 0) = true)
  /\
  (exists s', alpha_block (H := Ref.kernels) consts_scalar 0 state_overshoot = Ok (Next, s') /\
     cur s' = cur state_overshoot /\ rate s' = rate state_overshoot /\
     stepsize_alpha (steps s') = [1 * deflation + eps] /\
     (0 <? getv (stepsize_alpha (steps s')) 0) = true)
  /\
  (exists s', mean_block (H := Ref.kernels) consts_scalar 0 state_overshoot = Ok (Next, s') /\
     cur s' = cur state_overshoot /\ rate s' = rate state_overshoot /\
     stepsize_post_mean (steps s') = [1 * deflation + eps] /\
     (0 <? getv (stepsize_post_mean (steps s')) 0) = true).
Proof.
  destruct (rejected_step_is_rolled_back (H := Ref.kernels) consts_scalar state_overshoot 0
              well_formed_overshoot) as (Hb & Ha & Hm).
  split; [| split].
  - edestruct Hb as (s' & Hrun & Hc & Hr & Hs & Hpos);
      [cbn; lia | lazy; reflexivity | reflexivity | lazy; reflexivity | lazy; reflexivity |].
    exists s'. repeat split; try assumption. apply Hpos. reflexivity.
  - edestruct Ha as (s' & Hrun & Hc & Hr & Hs & Hpos);
      [lazy; reflexivity | reflexivity | lazy; reflexivity | lazy; reflexivity
      | lazy; reflexivity | lazy; reflexivity |].
    exists s'. repeat split; try assumption. apply Hpos. reflexivity.
  - edestruct Hm as (s' & Hrun & Hc & Hr & Hs & Hpos);
      [cbn; lia | lazy; reflexivity | lazy; reflexivity | reflexivity
      | lazy; reflexivity | lazy; reflexivity |].
    exists s'. repeat split; try assumption. apply Hpos. reflexivity.
Defined.

(** C2 (as stated) fails when the bound is unchanged: started at
    [beta = 1000] the rate saturates at the largest double before and after
    the Newton step, the new bound equals [lbound[it - 1]] (it did not
    increase), and the updater keeps the step: beta moves from 1000 to 999
    and the step size is not shrunk. *)
Lemma flat_step_is_accepted :
  match start_of (H := Ref.kernels) fit_saturated with
  | Some (c, s) =>
      exists s', beta_block (H := Ref.kernels) c 0 s = Ok (Next, s') /\
        lb_now (H := Ref.kernels) c s' = prev_bound s /\
        (prev_bound s <? lb_now (H := Ref.kernels) c s') = false /\
        beta (cur s) = [[1000]] /\ beta (cur s') = [[999]] /\
        stepsize_beta (steps s') = stepsize_beta (steps s)
  | None => False
  end.
Proof. vm_compute. eexists. repeat split. Qed.

(** * C7: singular Newton systems *)

Section Singular.
Context `{Extern}.
Variable e : consts.

(** C7.  When [linalg.solve] raises [LinAlgError] for the beta system of
    channel [i], or for the alpha system of latent [i], the block ends
    normally with nothing but a printed line: parameters, rate, step sizes,
    recovery buffers, prior and lower-bound trace are unchanged, no
    exception leaves the updater, and the loop goes on with the remaining
    blocks. *)
Theorem singular_system_skips_block (s : vstate) (i : nat) (rest : list nat) :
  (forall x,
      linalg_norm_inf (grad_b e i s) = Ok x -> (x <? eps) = false ->
      linalg_solve (neg_hess_b e i s) (grad_b e i s) = Raise LinAlgError ->
      exists s', beta_block e i s = Ok (Next, s') /\
        cur s' = cur s /\ rate s' = rate s /\ steps s' = steps s /\
        lbound s' = lbound s /\ prior s' = prior s /\ saved s' = saved s /\
        good s' = good s /\ it s' = it s /\ converged s' = converged s /\
        for_each (beta_block e) (i :: rest) s = for_each (beta_block e) rest s')
  /\
  (forall x step,
      linalg_norm_inf (grad_a e i s) = Ok x -> (x <? eps) = false ->
      index (stepsize_alpha (steps s)) i = Ok step ->
      linalg_solve (neg_hess_a i s) (grad_a e i s) = Raise LinAlgError ->
      exists s', alpha_block e i s = Ok (Next, s') /\
        cur s' = cur s /\ rate s' = rate s /\ steps s' = steps s /\
        lbound s' = lbound s /\ prior s' = prior s /\ saved s' = saved s /\
        good s' = good s /\ it s' = it s /\ converged s' = converged s /\
        for_each (alpha_block e) (i :: rest) s = for_each (alpha_block e) rest s').
Proof.
  split.
  - intros x Hn Hx Hsol. exists (print "beta" s).
    assert (Hrun : beta_block e i s = Ok (Next, print "beta" s)).
    { unfold beta_block. by rewrite Hn, bind_ok, Hx, Hsol. }
    repeat split; try done. by apply for_each_next.
  - intros x step Hn Hx Hstep Hsol. exists (print "alpha" s).
    assert (Hrun : alpha_block e i s = Ok (Next, print "alpha" s)).
    { unfold alpha_block. by rewrite Hn, bind_ok, Hx, Hstep, bind_ok, Hsol. }
    repeat split; try done. by apply for_each_next.
Qed.

(** * C3: stationary blocks *)

(** A block whose gradient is below [eps] ends the whole loop: the state
    is returned as it is (for the posterior mean, with [w] and [bmat]
    rebound) and no later block of the list is visited. *)
Lemma stationary_block_ends_loop (s : vstate) (i : nat) (rest : list nat) :
  (forall x, linalg_norm_inf (grad_b e i s) = Ok x -> (x <? eps) = true ->
     for_each (beta_block e) (i :: rest) s = Ok s)
  /\
  (forall x, linalg_norm_inf (grad_a e i s) = Ok x -> (x <? eps) = true ->
     for_each (alpha_block e) (i :: rest) s = Ok s)
  /\
  (forall x s0 hinv, woodbury e i s = Ok (s0, hinv) ->
     linalg_norm_inf (grad_m e i s) = Ok x -> (x <? eps) = true ->
     for_each (mean_block e) (i :: rest) s = Ok s0).
Proof.
  repeat split.
  - intros x Hn Hx. apply for_each_break. unfold beta_block. by rewrite Hn, bind_ok, Hx.
  - intros x Hn Hx. apply for_each_break. unfold alpha_block. by rewrite Hn, bind_ok, Hx.
  - intros x s0 hinv Hw Hn Hx. cbn. unfold mean_block.
    by rewrite Hw, bind_ok, Hn, bind_ok, Hx.
Qed.
End Singular.

Lemma lagged_is_a_start :
  start_of (H := Ref.kernels) fit_no_history = Some (consts_lagged, state_lagged).
Proof. vm_compute. reflexivity. Qed.

Lemma singular_system_skips_block_witness :
  (exists s', beta_block (H := Ref.kernels) consts_lagged 0 state_lagged = Ok (Next, s') /\
     cur s' = cur state_lagged /\ rate s' = rate state_lagged /\
     steps s' = steps state_lagged /\ lbound s' = lbound state_lagged /\
     for_each (beta_block (H := Ref.kernels) consts_lagged) [0%nat; 1%nat] state_lagged
     = for_each (beta_block (H := Ref.kernels) consts_lagged) [1%nat] s')
  /\
  (exists s', alpha_block (H := Ref.kernels) consts_scalar 0 state_cancelled = Ok (Next, s') /\
     cur s' = cur state_cancelled /\ rate s' = rate state_cancelled /\
     steps s' = steps state_cancelled /\ lbound s' = lbound state_cancelled /\
     for_each (alpha_block (H := Ref.kernels) consts_scalar) [0%nat; 1%nat] state_cancelled
     = for_each (alpha_block (H := Ref.kernels) consts_scalar) [1%nat] s').
Proof.
  split.
  - destruct (singular_system_skips_block (H := Ref.kernels) consts_lagged state_lagged 0 [1%nat])
      as (Hb & _).
    edestruct Hb as (s' & Hrun & Hc & Hr & Hs & Hl & _ & _ & _ & _ & _ & Hloop);
      [lazy; reflexivity | reflexivity | lazy; reflexivity |].
    exists s'. by repeat split.
  - destruct (singular_system_skips_block (H := Ref.kernels) consts_scalar state_cancelled 0 [1%nat])
      as (_ & Ha).
    edestruct Ha as (s' & Hrun & Hc & Hr & Hs & Hl & _ & _ & _ & _ & _ & Hloop);
      [lazy; reflexivity | reflexivity | lazy; reflexivity | lazy; reflexivity |].
    exists s'. by repeat split.
Defined.

(** C3 on a concrete fit.  Two channels with counts 1 and 2 and
    [beta = 0]: the gradient of channel 0 is zero and that of channel 1 is
    1, well above [eps].  The beta loop leaves at channel 0, channel 1 is
    never updated, and the optimizer returns [beta = 0] for it and reports
    convergence, although the updater called on channel 1 in the same state
    accepts a step that moves its coefficient away from 0 and raises the
    bound. *)
Theorem stationary_channel_stops_beta_loop :
  (exists r, variational (H := Ref.kernels) fit_two_channels = Ok (Some r) /\
     r_beta r = [[0; 0]] /\ r_converged r = true /\ r_lbound r = [-2.5; -2.5])
  /\
  match start_of (H := Ref.kernels) fit_two_channels with
  | Some (c, s) =>
      @linalg_norm_inf Ref.kernels (grad_b c 0 s) = Ok 0 /\
      @linalg_norm_inf Ref.kernels (grad_b c 1 s) = Ok 1 /\
      (1 <? eps) = false /\
      for_each (beta_block (H := Ref.kernels) c) [0%nat; 1%nat] s = Ok s /\
      exists s', beta_block (H := Ref.kernels) c 1 s = Ok (Next, s') /\
        col (beta (cur s')) 1 = [1] /\
        (prev_bound s <? lb_now (H := Ref.kernels) c s') = true
  | None => False
  end.
Proof.
  split.
  - eexists. split; [vm_compute; reflexivity |]. by repeat split.
  - vm_compute. repeat split. eexists. by repeat split.
Qed.

(** * What an outer iteration leaves alone *)

Ltac res_cases H :=
  repeat (cbv beta in H;
    match type of H with
    | (Ok _ ≫= _) = _ => rewrite bind_ok in H
    | (?m ≫= _) = _ => destruct m eqn:?; [| discriminate H]
    | (if ?b then _ else _) = _ => destruct b eqn:?
    | match ?m with _ => _ end = _ => destruct m eqn:?
    | Raise _ = Ok _ => discriminate H
    | Ok _ = Ok _ => inversion H; subst; clear H
    | mret _ = Ok _ => inversion H; subst; clear H
    end).

Lemma same_iteration_refl (s : vstate) : same_iteration s s.
Proof. repeat split. exists []. cbn. by rewrite app_nil_r. Qed.

Lemma same_iteration_trans (s1 s2 s3 : vstate) :
  same_iteration s1 s2 -> same_iteration s2 s3 -> same_iteration s1 s3.
Proof.
  intros (Hi & Hl & Hc & Hg & l1 & Ho) (Hi' & Hl' & Hc' & Hg' & l2 & Ho').
  repeat split; try congruence.
  exists (l1 ++ l2). rewrite Ho', Ho, map_app. by rewrite app_assoc.
Qed.

Lemma same_iteration_print (what : string) (s : vstate) : same_iteration s (print what s).
Proof. repeat split. by exists [what]. Qed.

Lemma same_iteration_silent (s s' : vstate) :
  it s' = it s -> lbound s' = lbound s -> converged s' = converged s ->
  good s' = good s -> stdout s' = stdout s -> same_iteration s s'.
Proof. intros. repeat split; try done. exists []. cbn. by rewrite app_nil_r. Qed.

Section Frames.
Context `{Extern}.
Variable e : consts.

Lemma beta_block_frame (n : nat) (s : vstate) (fl : flow) (s' : vstate) :
  beta_block e n s = Ok (fl, s') -> same_iteration s s'.
Proof.
  unfold beta_block. intros Hrun. res_cases Hrun.
  - apply same_iteration_refl.
  - unfold beta_settle.
    repeat match goal with |- context [if ?b then _ else _] => destruct b end;
      by apply same_iteration_silent.
  - apply same_iteration_print.
Qed.

Lemma alpha_block_frame (l : nat) (s : vstate) (fl : flow) (s' : vstate) :
  alpha_block e l s = Ok (fl, s') -> same_iteration s s'.
Proof.
  unfold alpha_block. intros Hrun. res_cases Hrun.
  - apply same_iteration_refl.
  - match goal with Ht : alpha_trial _ _ _ _ = Ok _ |- _ =>
      unfold alpha_trial in Ht; res_cases Ht end.
    unfold alpha_settle.
    repeat match goal with |- context [if ?b then _ else _] => destruct b end;
      by apply same_iteration_silent.
  - apply same_iteration_print.
Qed.

Lemma woodbury_same_iteration (l : nat) (s s0 : vstate) (hinv : fmat) :
  woodbury e l s = Ok (s0, hinv) -> same_iteration s s0.
Proof.
  intros Hw. destruct (well_formed_woodbury e l s s0 hinv Hw)
    as (_ & _ & _ & _ & Hl & Hi & Hc & Ho & Hg & _).
  by apply same_iteration_silent.
Qed.

Lemma mean_block_frame (l : nat) (s : vstate) (fl : flow) (s' : vstate) :
  mean_block e l s = Ok (fl, s') -> same_iteration s s'.
Proof.
  unfold mean_block. intros Hrun.
  destruct (woodbury e l s) as [[s0 hinv] | ex] eqn:Hw; [| discriminate].
  rewrite bind_ok in Hrun. apply woodbury_same_iteration in Hw.
  res_cases Hrun; (eapply same_iteration_trans; [exact Hw |]).
  - apply same_iteration_refl.
  - unfold mean_settle.
    repeat match goal with |- context [if ?b then _ else _] => destruct b end;
      by apply same_iteration_silent.
Qed.

Lemma postcov_block_frame (l : nat) (s : vstate) (fl : flow) (s' : vstate) :
  postcov_block e l s = Ok (fl, s') -> same_iteration s s'.
Proof.
  unfold postcov_block. intros Hrun.
  destruct (woodbury e l s) as [[s0 V] | ex] eqn:Hw; [| discriminate].
  rewrite bind_ok in Hrun. apply woodbury_same_iteration in Hw.
  res_cases Hrun. eapply same_iteration_trans; [exact Hw |].
  by apply same_iteration_silent.
Qed.

Lemma hyper_block_frame (l : nat) (s : vstate) (fl : flow) (s' : vstate) :
  hyper_block e l s = Ok (fl, s') -> same_iteration s s'.
Proof.
  unfold hyper_block. intros Hrun. res_cases Hrun.
  - repeat split. exists ["Hyper"; "new hyper failed"]%string. cbn. by rewrite <- app_assoc.
  - repeat split. by exists ["Hyper"]%string.
Qed.

Lemma for_each_frame (body : nat -> vstate -> res (flow * vstate)) (ns : list nat) :
  (forall n s fl s', body n s = Ok (fl, s') -> same_iteration s s') ->
  forall s s', for_each body ns s = Ok s' -> same_iteration s s'.
Proof.
  intros Hbody s s' Hrun.
  apply (for_each_invariant (same_iteration s) body ns) with (s := s); try done.
  - intros n s1 fl s2 H1 H2. eapply same_iteration_trans; [exact H1 | by eapply Hbody].
  - apply same_iteration_refl.
Qed.

Lemma optional_loop_frame (skip : bool) (body : nat -> vstate -> res (flow * vstate))
    (ns : list nat) (s s' : vstate) :
  (forall n s fl s', body n s = Ok (fl, s') -> same_iteration s s') ->
  (if skip then mret s else for_each body ns s) = Ok s' -> same_iteration s s'.
Proof.
  intros Hbody Hrun. destruct skip.
  - inversion Hrun; subst. apply same_iteration_refl.
  - by apply (for_each_frame body ns Hbody).
Qed.

Lemma guarded_phases_frame (s s' : vstate) :
  guarded_phases e s = Ok s' -> same_iteration s s'.
Proof.
  unfold guarded_phases. intros Hrun.
  destruct (if fixbeta (args e) then _ else _) as [s1 |] eqn:E1; [| discriminate].
  rewrite bind_ok in Hrun.
  destruct (if fixalpha (args e) then _ else _) as [s2 |] eqn:E2; [| discriminate].
  rewrite bind_ok in Hrun.
  apply (optional_loop_frame _ _ _ _ _ beta_block_frame) in E1.
  apply (optional_loop_frame _ _ _ _ _ alpha_block_frame) in E2.
  apply (optional_loop_frame _ _ _ _ _ mean_block_frame) in Hrun.
  eapply same_iteration_trans; [| exact Hrun].
  eapply same_iteration_trans; [exact E1 | exact E2].
Qed.

Lemma postcov_phase_frame (s s' : vstate) :
  postcov_phase e s = Ok s' -> same_iteration s s'.
Proof.
  unfold postcov_phase. intros Hrun.
  by apply (optional_loop_frame _ _ _ _ _ postcov_block_frame) in Hrun.
Qed.

Lemma hyper_phase_frame (s s' : vstate) :
  hyper_phase e s = Ok s' -> same_iteration s s'.
Proof.
  unfold hyper_phase. intros Hrun.
  destruct (hyper (args e) && (it s mod 5 =? 0)%nat).
  - apply (for_each_frame _ _ (hyper_block_frame)) in Hrun.
    eapply same_iteration_trans; [| exact Hrun]. by apply same_iteration_silent.
  - inversion Hrun; subst. apply same_iteration_refl.
Qed.

(** Storing the bound, testing convergence and taking the snapshot. *)
Lemma close_iteration_spec (s s' : vstate) :
  close_iteration e s = Ok s' ->
  exists change, change_of e s = Ok change /\
    it s' = S (it s) /\
    lbound s' = setv (lbound s) (it s) (lb_now e s) /\
    converged s' = (if change <? tol e then true else converged s) /\
    good s' = cur s /\ cur s' = cur s /\
    exists lines, stdout s' = stdout s ++ map EvPrint lines.
Proof.
  unfold close_iteration. intros Hrun.
  change (change_of e (upd_lbound (fun lb => setv lb (it s) (lb_now e s)) s))
    with (change_of e s) in Hrun.
  destruct (change_of e s) as [change | ex] eqn:Ec; [| discriminate].
  rewrite bind_ok in Hrun. exists change. split; [done |].
  inversion Hrun as [Hs']. clear Hrun.
  destruct (change <? tol e), (verbose e); cbn; repeat split;
    first [by exists ["Iteration"%string] | (exists []; cbn; by rewrite app_nil_r)].
Qed.

Lemma block_updates_frame (s s' : vstate) :
  block_updates e s = Ok s' -> same_iteration s s'.
Proof.
  unfold block_updates. intros Hrun.
  destruct (guarded_phases e s) as [s1 |] eqn:E1; [| discriminate]. rewrite bind_ok in Hrun.
  destruct (postcov_phase e s1) as [s2 |] eqn:E2; [| discriminate]. rewrite bind_ok in Hrun.
  apply guarded_phases_frame in E1. apply postcov_phase_frame in E2.
  apply hyper_phase_frame in Hrun.
  exact (same_iteration_trans _ _ _ (same_iteration_trans _ _ _ E1 E2) Hrun).
Qed.

Lemma outer_iteration_spec (s s' : vstate) :
  outer_iteration e s = Ok s' ->
  it s' = S (it s) /\ length (lbound s') = length (lbound s) /\
  (converged s = false ->
   exists s3 change, block_updates e s = Ok s3 /\ good s3 = good s /\
     change_of e s3 = Ok change /\ converged s' = (change <? tol e) /\
     good s' = cur s') /\
  exists lines, stdout s' = stdout s ++ map EvPrint lines.
Proof.
  unfold outer_iteration. intros Hrun.
  destruct (block_updates e s) as [s3 |] eqn:E3; [| discriminate]. rewrite bind_ok in Hrun.
  pose proof (block_updates_frame s s3 E3) as (Hi & Hl & Hc & Hg & l1 & Ho).
  destruct (close_iteration_spec s3 s' Hrun)
    as (change & Ech & Hi' & Hl' & Hc' & Hg' & Hcur' & l2 & Ho').
  repeat split.
  - by rewrite Hi', Hi.
  - rewrite Hl'. unfold setv. by rewrite length_insert, Hl.
  - intros Hconv. exists s3, change. repeat split; try done.
    + rewrite Hc', Hc, Hconv. by destruct (change <? tol e).
    + by rewrite Hg', Hcur'.
  - exists (l1 ++ l2). by rewrite Ho', Ho, map_app, app_assoc.
Qed.

(** [maxiter - it] iterations of fuel are enough, and the loop ends
    converged or with [it = maxiter]. *)
Lemma while_loop_spec (fuel : nat) : forall s,
  maxiter e - it s <= fuel ->
  while_loop e fuel s <> Ok None /\
  forall s', while_loop e fuel s = Ok (Some s') ->
    length (lbound s') = length (lbound s) /\
    (converged s' = false -> maxiter e <= it s') /\
    (it s <= maxiter e -> it s' <= maxiter e) /\
    exists lines, stdout s' = stdout s ++ map EvPrint lines.
Proof.
  induction fuel as [| fuel IH]; intros s Hfuel; cbn [while_loop].
  - destruct (negb (converged s) && (it s <? maxiter e)%nat) eqn:Ec.
    + apply andb_true_iff in Ec as [_ Hlt]. apply Nat.ltb_lt in Hlt. lia.
    + split; [done |]. intros s' Hs'. inversion Hs'; subst.
      apply andb_false_iff in Ec. repeat split; try done.
      * intros Hconv. destruct Ec as [Ec | Ec]; [by rewrite Hconv in Ec |].
        apply Nat.ltb_ge in Ec. lia.
      * exists []. cbn. by rewrite app_nil_r.
  - destruct (negb (converged s) && (it s <? maxiter e)%nat) eqn:Ec.
    + apply andb_true_iff in Ec as [_ Hlt]. apply Nat.ltb_lt in Hlt.
      destruct (outer_iteration e s) as [s1 | ex] eqn:E1.
      * rewrite bind_ok.
        destruct (outer_iteration_spec s s1 E1) as (Hi & Hl & _ & l1 & Ho).
        destruct (IH s1 ltac:(lia)) as (Hnone & Hsome).
        split; [done |]. intros s' Hs'.
        destruct (Hsome s' Hs') as (Hl' & Hc' & Hit' & l2 & Ho').
        repeat split; try done; try congruence.
        -- intros _. apply Hit'. lia.
        -- exists (l1 ++ l2). by rewrite Ho', Ho, map_app, app_assoc.
      * split; [done |]. intros s' Hs'. discriminate.
    + split; [done |]. intros s' Hs'. inversion Hs'; subst.
      apply andb_false_iff in Ec. repeat split; try done.
      * intros Hconv. destruct Ec as [Ec | Ec]; [by rewrite Hconv in Ec |].
        apply Nat.ltb_ge in Ec. lia.
      * exists []. cbn. by rewrite app_nil_r.
Qed.
End Frames.

(** * C9: termination and the convergence report *)

Section Termination.
Context `{Extern}.

Lemma initialize_spec (inp : inputs) (c : consts) (s : vstate) (a b : fmat) :
  initialize inp = Ok (c, s, a, b) ->
  maxiter c = max_iterations inp /\ length (lbound s) = maxiter c /\
  it s = 1%nat /\ converged s = false /\ stdout s = [] /\ (1 <= maxiter c)%nat.
Proof.
  unfold initialize, max_iterations. intros Hinit.
  unfold getitem in Hinit.
  destruct (control inp !! "max iteration") as [mi |] eqn:Emi; [| discriminate].
  rewrite bind_ok in Hinit.
  destruct (control inp !! "fixed-point iteration") as [fp |]; [| discriminate].
  rewrite bind_ok in Hinit.
  destruct (control inp !! "tol") as [tl |]; [| discriminate]. rewrite bind_ok in Hinit.
  destruct (control inp !! "verbose") as [vb |]; [| discriminate]. rewrite bind_ok in Hinit.
  destruct (mapM _ _) as [pri |]; [| discriminate]. rewrite bind_ok in Hinit.
  destruct (match a0 inp with Some _ => _ | None => _ end) as [a0' |]; [| discriminate].
  rewrite bind_ok in Hinit.
  destruct (match b0 inp with Some _ => _ | None => _ end) as [b0' |]; [| discriminate].
  rewrite bind_ok in Hinit.
  destruct (as_int mi) as [mz |] eqn:Emz; [| discriminate]. rewrite bind_ok in Hinit.
  assert (Hmz : mz = int_of mi) by (destruct mi; cbn in *; congruence).
  destruct (mz <? 0)%Z eqn:Eneg; [discriminate |].
  destruct (mz =? 0)%Z eqn:Ezero; [discriminate |].
  apply Z.ltb_ge in Eneg. apply Z.eqb_neq in Ezero.
  inversion Hinit; subst. cbn. unfold setv. rewrite length_insert, length_replicate.
  repeat split; lia.
Qed.

End Termination.

(** * The order of binary64 numbers *)

Section FloatCompare.

Ltac compare_cases :=
  repeat match goal with
  | H : context [Pos.compare_cont Eq ?a ?b] |- _ =>
      change (Pos.compare_cont Eq a b) with (a ?= b)%positive in H
  | |- context [Pos.compare_cont Eq ?a ?b] =>
      change (Pos.compare_cont Eq a b) with (a ?= b)%positive
  end;
  repeat match goal with
  | H : context [(?a ?= ?b)%Z] |- _ => destruct (Z.compare_spec a b); cbn in H
  | |- context [(?a ?= ?b)%Z] => destruct (Z.compare_spec a b); cbn
  | H : context [(?a ?= ?b)%positive] |- _ => destruct (Pos.compare_spec a b); cbn in H
  | |- context [(?a ?= ?b)%positive] => destruct (Pos.compare_spec a b); cbn
  end;
  try discriminate; try reflexivity; try lia.

Lemma SFltb_trans (x y z : spec_float) :
  SFltb x y = true -> SFltb y z = true -> SFltb x z = true.
Proof.
  unfold SFltb, SFcompare.
  destruct x as [[] | [] | | [] mx ex], y as [[] | [] | | [] my ey], z as [[] | [] | | [] mz ez];
    cbn; intros Hxy Hyz; try discriminate; try reflexivity; compare_cases.
Qed.

(** [y <= x < z] gives [y < z]. *)
Lemma SFltb_below (x y z : spec_float) :
  x <> S754_nan -> y <> S754_nan ->
  SFltb x y = false -> SFltb x z = true -> SFltb y z = true.
Proof.
  unfold SFltb, SFcompare.
  destruct x as [[] | [] | | [] mx ex], y as [[] | [] | | [] my ey], z as [[] | [] | | [] mz ez];
    cbn; intros Hx Hy Hxy Hxz; try discriminate; try reflexivity; try congruence;
    compare_cases.
Qed.
End FloatCompare.

Lemma is_nan_false (x : float) : is_nan x = false -> Prim2SF x <> S754_nan.
Proof.
  unfold is_nan. rewrite FloatAxioms.eqb_spec. intros Hx Hnan. rewrite Hnan in Hx. discriminate.
Qed.

Lemma ltb_trans (a b t : float) : (a <? b) = true -> (b <? t) = true -> (a <? t) = true.
Proof. rewrite !ltb_spec. apply SFltb_trans. Qed.

Lemma ltb_below (a b t : float) :
  is_nan a = false -> is_nan b = false ->
  (a <? b) = false -> (a <? t) = true -> (b <? t) = true.
Proof.
  intros Ha Hb. rewrite !ltb_spec. apply SFltb_below; by apply is_nan_false.
Qed.

(** * The greatest change *)

Section Greatest.
Variable t : float.

Lemma py_max_below (x y : float) :
  is_nan x = false -> is_nan y = false ->
  is_nan (py_max x y) = false /\
  ((py_max x y <? t) = true <-> (x <? t) = true /\ (y <? t) = true).
Proof.
  intros Hx Hy. unfold py_max. destruct (x <? y) eqn:Exy.
  - split; [done |]. split; [| by intros []].
    intros Hyt. split; [by apply (ltb_trans x y t) | done].
  - split; [done |]. split; [| by intros []].
    intros Hxt. split; [done | by apply (ltb_below x y t)].
Qed.

Lemma np_maximum_below (x y : float) :
  is_nan x = false -> is_nan y = false ->
  is_nan (np_maximum x y) = false /\
  ((np_maximum x y <? t) = true <-> (x <? t) = true /\ (y <? t) = true).
Proof.
  intros Hx Hy. unfold np_maximum. rewrite Hx, Hy. by apply py_max_below.
Qed.

Lemma fold_np_maximum_below (xs : fvec) : forall x,
  Forall (fun d => is_nan d = false) (x :: xs) ->
  is_nan (fold_left np_maximum xs x) = false /\
  ((fold_left np_maximum xs x <? t) = true
   <-> Forall (fun d => (d <? t) = true) (x :: xs)).
Proof.
  induction xs as [| y xs IH]; intros x Hall; cbn [fold_left].
  - apply Forall_cons in Hall as [Hx _]. split; [done |].
    split; [by repeat constructor | by intros [? _]%Forall_cons].
  - apply Forall_cons in Hall as [Hx [Hy Hxs]%Forall_cons].
    destruct (np_maximum_below x y Hx Hy) as [Hm Hiff].
    destruct (IH (np_maximum x y)) as [Hn IHiff]; [by constructor |].
    split; [done |]. rewrite IHiff, !Forall_cons, Hiff. tauto.
Qed.

Lemma np_max_abs_below (v : fvec) (m : float) :
  np_max_abs v = Ok m ->
  Forall (fun d => is_nan d = false) (map PrimFloat.abs v) ->
  is_nan m = false /\
  ((m <? t) = true <-> Forall (fun d => (d <? t) = true) (map PrimFloat.abs v)).
Proof.
  unfold np_max_abs. destruct (map PrimFloat.abs v) as [| x xs]; [discriminate |].
  intros Hm Hall. inversion Hm; subst. by apply fold_np_maximum_below.
Qed.

(** The change of one block, as [change_of] computes it, against the list
    of its entries. *)
Lemma block_change_below (frozen : bool) (v : fvec) (m : float) :
  (if frozen then mret 0 else np_max_abs v) = Ok m ->
  Forall (fun d => is_nan d = false) (if frozen then [0] else map PrimFloat.abs v) ->
  is_nan m = false /\
  ((m <? t) = true
   <-> Forall (fun d => (d <? t) = true) (if frozen then [0] else map PrimFloat.abs v)).
Proof.
  destruct frozen; [| apply np_max_abs_below].
  intros Hm _. inversion Hm; subst. split; [done |].
  split; [by repeat constructor | by intros [? _]%Forall_cons].
Qed.
End Greatest.

Section StoppingRule.
Context `{Extern}.
Variable e : consts.

Lemma change_of_below (s : vstate) (change : float) :
  change_of e s = Ok change ->
  Forall (fun d => is_nan d = false) (changes e s) ->
  ((change <? tol e) = true <-> Forall (fun d => (d <? tol e) = true) (changes e s)).
Proof.
  unfold change_of, changes. intros Hc Hall.
  apply Forall_app in Hall as [Ha Hall]. apply Forall_app in Hall as [Hb Hall].
  apply Forall_app in Hall as [Hm Hv].
  destruct (if fixalpha (args e) then mret 0 else np_max_abs _) as [ca |] eqn:Eca;
    [| discriminate].
  rewrite bind_ok in Hc.
  destruct (if fixbeta (args e) then mret 0 else np_max_abs _) as [cb |] eqn:Ecb;
    [| discriminate].
  rewrite bind_ok in Hc.
  destruct (if fixpostmean (args e) then mret 0 else np_max_abs _) as [cm |] eqn:Ecm;
    [| discriminate].
  rewrite bind_ok in Hc.
  destruct (if fixpostcov (args e) then mret 0 else np_max_abs _) as [cv |] eqn:Ecv;
    [| discriminate].
  rewrite bind_ok in Hc. inversion Hc; subst. clear Hc.
  destruct (block_change_below (tol e) _ _ ca Eca Ha) as [Na Ia].
  destruct (block_change_below (tol e) _ _ cb Ecb Hb) as [Nb Ib].
  destruct (block_change_below (tol e) _ _ cm Ecm Hm) as [Nm Im].
  destruct (block_change_below (tol e) _ _ cv Ecv Hv) as [Nv Iv].
  destruct (py_max_below (tol e) ca cb Na Nb) as [N1 I1].
  destruct (py_max_below (tol e) _ cm N1 Nm) as [N2 I2].
  destruct (py_max_below (tol e) _ cv N2 Nv) as [N3 I3].
  rewrite I3, I2, I1, Ia, Ib, Im, Iv, !Forall_app. tauto.
Qed.

(** The iteration counter along a run. *)
Lemma iterates_it (k : nat) (s t : vstate) : iterates e k s t -> it t = (it s + k)%nat.
Proof.
  induction 1 as [s | k s s1 t Hrun Hstep _ IH]; [lia |].
  destruct (outer_iteration_spec e s s1 Hstep) as (Hi & _). lia.
Qed.

Lemma iterates_budget (k : nat) (s t : vstate) :
  iterates e k s t -> (it s <= maxiter e)%nat -> (it t <= maxiter e)%nat.
Proof.
  induction 1 as [s | k s s1 t Hrun Hstep _ IH]; [done |]. intros _. apply IH.
  destruct (outer_iteration_spec e s s1 Hstep) as (Hi & _).
  apply andb_true_iff in Hrun as [_ Hlt]. apply Nat.ltb_lt in Hlt. lia.
Qed.

(** The loop goes through outer iterations until its condition fails or
    one of them raises; [maxiter - it] iterations of fuel are enough. *)
Lemma while_loop_run (fuel : nat) : forall s,
  (maxiter e - it s <= fuel)%nat ->
  exists k t, iterates e k s t /\
    ((running e t = false /\ while_loop e fuel s = Ok (Some t)) \/
     (running e t = true /\
      exists ex, outer_iteration e t = Raise ex /\ while_loop e fuel s = Raise ex)).
Proof.
  induction fuel as [| fuel IH]; intros s Hfuel; cbn [while_loop];
    fold (running e s); destruct (running e s) eqn:Ec.
  - apply andb_true_iff in Ec as [_ Hlt]. apply Nat.ltb_lt in Hlt. lia.
  - exists 0%nat, s. split; [constructor |]. by left.
  - destruct (outer_iteration e s) as [s1 | ex] eqn:E1.
    + rewrite bind_ok.
      destruct (outer_iteration_spec e s s1 E1) as (Hi & _).
      destruct (IH s1 ltac:(lia)) as (k & t & Hk & Hend).
      exists (S k), t. split; [by apply (iterates_step e k s s1 t) | exact Hend].
    + exists 0%nat, s. split; [constructor |]. right. split; [done |]. by exists ex.
  - exists 0%nat, s. split; [constructor |]. by left.
Qed.
End StoppingRule.

(** C9 (as amended).  A call ends, and it ends in one of three ways.
    Initialization raises; or the loop goes through [k] outer iterations,
    the loop condition holding before each, and stops in a state [t] in
    which it has converged or [it] has reached [maxiter], and the call
    returns the blocks of [t] with the flag; or one of the iterations that
    the budget still allowed raises, and the call raises the same.  So
    reaching the budget raises nothing.  A returned trace has exactly
    [maxiter] entries when the flag says "not converged"; nothing that was
    written is a warning.  In every outer iteration the flag is set exactly
    when all changes of the blocks since the snapshot, which is the state
    the previous iteration left, are below [tol], provided none of them is
    NaN; the snapshot is then replaced by the current blocks. *)
Theorem variational_stops_and_reports `{Extern} (inp : inputs) :
  match initialize inp with
  | Raise ex => variational inp = Raise ex
  | Ok (c, s, a, b) =>
      exists k t, iterates c k s t /\ it t = S k /\ (it t <= maxiter c)%nat /\
        ((running c t = false /\ variational inp = Ok (Some (returned t a b))) \/
         (running c t = true /\
          exists ex, outer_iteration c t = Raise ex /\ variational inp = Raise ex))
  end /\
  (forall r, variational inp = Ok (Some r) ->
     (length (r_lbound r) <= max_iterations inp)%nat /\
     (r_converged r = false -> length (r_lbound r) = max_iterations inp) /\
     Forall (fun ev => is_warning ev = false) (r_stdout r)) /\
  (forall c s s3 s', converged s = false ->
     block_updates c s = Ok s3 -> close_iteration c s3 = Ok s' ->
     Forall (fun d => is_nan d = false) (changes c s3) ->
     good s3 = good s /\ good s' = cur s' /\
     (converged s' = true <-> Forall (fun d => (d <? tol c) = true) (changes c s3))).
Proof.
  split; [| split].
  - unfold variational, variational_fuel.
    destruct (initialize inp) as [[[[c s] a] b] | ex] eqn:Ei; [| done].
    destruct (initialize_spec inp c s a b Ei) as (Hm & Hl & Hi & _ & _ & H1).
    destruct (while_loop_run c (max_iterations inp) s ltac:(lia)) as (k & t & Hk & Hend).
    pose proof (iterates_it c k s t Hk) as Hit.
    exists k, t. split; [exact Hk |]. split; [lia |]. split.
    + apply (iterates_budget c k s t Hk). lia.
    + destruct Hend as [[Hstop ->] | (Hgo & ex & Hex & ->)]; [by left | right].
      split; [done |]. by exists ex.
  - intros r. unfold variational, variational_fuel.
    destruct (initialize inp) as [[[[c s] a] b] | ex] eqn:Ei; [| done].
    destruct (initialize_spec inp c s a b Ei) as (Hm & Hl & Hi & Hc & Ho & H1).
    destruct (while_loop_spec c (max_iterations inp) s ltac:(lia)) as (_ & Hsome).
    destruct (while_loop c (max_iterations inp) s) as [[s' |] | ex']; try done.
    intros Hr. inversion Hr; subst. clear Hr.
    destruct (Hsome s' eq_refl) as (Hl' & Hc' & Hit' & lines & Ho').
    cbn. rewrite length_take, Hl', Hl, <- Hm. repeat split.
    + lia.
    + intros Hconv. specialize (Hc' Hconv). lia.
    + rewrite Ho', Ho. cbn. apply Forall_forall. intros ev Hev.
      apply list_elem_of_fmap in Hev as (line & -> & _). reflexivity.
  - intros c s s3 s' Hconv Hblocks Hclose Hnan.
    pose proof (block_updates_frame c s s3 Hblocks) as (_ & _ & Hc3 & Hg3 & _).
    destruct (close_iteration_spec c s3 s' Hclose)
      as (change & Ech & _ & _ & Hc' & Hg' & Hcur' & _).
    split; [exact Hg3 |]. split; [by rewrite Hg', Hcur' |].
    rewrite <- (change_of_below c s3 change Ech Hnan), Hc', Hc3, Hconv.
    by destruct (change <? tol c).
Qed.

(** C9 (as stated) fails in its last part: a run that stops at the
    iteration cap without converging returns the flag [false] and writes
    nothing, in particular no warning. *)
Lemma non_convergence_without_warning :
  exists r, variational (H := Ref.kernels) fit_loading = Ok (Some r) /\
    r_converged r = false /\ length (r_lbound r) = 2%nat /\ r_stdout r = [] /\
    existsb is_warning (r_stdout r) = false.
Proof. eexists. split; [vm_compute; reflexivity |]. by repeat split. Qed.

Lemma variational_stops_and_reports_witness :
  (exists r, variational (H := Ref.kernels) fit_loading = Ok (Some r) /\
     (length (r_lbound r) <= 2)%nat /\ length (r_lbound r) = 2%nat /\
     Forall (fun ev => is_warning ev = false) (r_stdout r))
  /\
  (exists s3 s',
     block_updates (H := Ref.kernels) consts_scalar state_overshoot = Ok s3 /\
     close_iteration (H := Ref.kernels) consts_scalar s3 = Ok s' /\
     (converged s' = true
      <-> Forall (fun d => (d <? tol consts_scalar) = true) (changes consts_scalar s3))).
Proof.
  destruct (variational_stops_and_reports (H := Ref.kernels) fit_loading)
    as (_ & Hrun & Hflag).
  split.
  - eexists. split; [vm_compute; reflexivity |].
    match goal with
    | |- context [r_lbound ?r] =>
        destruct (Hrun r) as (Hle & Hcap & Hquiet); [vm_compute; reflexivity |]
    end.
    split; [exact Hle | split; [exact (Hcap eq_refl) | exact Hquiet]].
  - destruct (block_updates (H := Ref.kernels) consts_scalar state_overshoot)
      as [s3 | ex] eqn:E3; [| vm_compute in E3; discriminate E3].
    destruct (close_iteration (H := Ref.kernels) consts_scalar s3) as [s' | ex] eqn:Ec.
    + exists s3, s'. split; [reflexivity |]. split; [exact Ec |].
      assert (Hnan : Forall (fun d => is_nan d = false) (changes consts_scalar s3)).
      { clear Ec. vm_compute in E3. inversion E3; subst. vm_compute. repeat constructor. }
      exact (proj2 (proj2 (Hflag consts_scalar state_overshoot s3 s' eq_refl E3 Ec Hnan))).
    + exfalso. vm_compute in E3. inversion E3; subst. vm_compute in Ec. discriminate Ec.
Defined.

(** * C4: the rate *)

(** C4 (as stated) fails in what it says about the floor: when the
    exponential underflows to 0 the rate returned is [np.finfo(float).eps],
    2^-52, and not the smallest positive double, 2^-1074, which lies
    strictly between 0 and the value returned. *)
Lemma floor_is_machine_epsilon :
  saferate (H := Ref.kernels) 0 0 [[1]] [[0]] [[[1]]] [[-1000]] [[0]] = 0x1p-52 /\
  (0 <? 0x1p-1074) = true /\
  (0x1p-1074 <? saferate (H := Ref.kernels) 0 0 [[1]] [[0]] [[[1]]] [[-1000]] [[0]]) = true.
Proof. vm_compute. by repeat split. Qed.

(** [vb.saferate] has no floor at all: on the same input it returns 0. *)
Lemma vb_saferate_can_be_zero :
  vb_saferate (H := Ref.kernels) 0 0 [[1]] [[0]] [[[1]]] [[-1000]] [[0]] = 0.
Proof. vm_compute. reflexivity. Qed.

Lemma is_infinity_sign (x : float) :
  is_infinity x = true -> x = infinity \/ x = neg_infinity.
Proof.
  unfold is_infinity. rewrite FloatAxioms.eqb_spec, FloatAxioms.abs_spec. intros Hx.
  destruct (Prim2SF x) as [[] | [] | | [] mx ex] eqn:E; cbn in Hx; try discriminate.
  - right. apply Prim2SF_inj. by rewrite E.
  - left. apply Prim2SF_inj. by rewrite E.
Qed.

(** C4 (as amended).  Whatever [np.exp] returns for the predictor (a
    number, an infinity or NaN), [optimization.saferate] returns a finite,
    strictly positive double: the exponential itself when it is finite and
    positive, the largest finite double when it is [+inf], and machine
    epsilon 2^-52 when it is NaN, zero or negative. *)
Theorem saferate_positive_finite `{Extern} (t n : nat) (regressor post_mean : fmat)
    (post_cov : ftens) (beta alpha : fmat) :
  let x := np_exp (lograte t n regressor post_mean post_cov beta alpha) in
  let r := saferate t n regressor post_mean post_cov beta alpha in
  is_finite r = true /\ (0 <? r) = true /\
  ((is_finite x = true /\ (0 <? x) = true /\ r = x) \/
   (x = infinity /\ r = finfo_max) \/
   ((0 <? nan_to_num x) = false /\ r = finfo_eps)).
Proof.
  cbn zeta. unfold saferate, safe_of_exp.
  generalize (np_exp (lograte t n regressor post_mean post_cov beta alpha)). intros x.
  unfold nan_to_num.
  destruct (is_nan x) eqn:En.
  - change (0 <? 0) with false. cbn iota. repeat split. right. right. by split.
  - destruct (is_infinity x) eqn:Ei.
    + destruct (is_infinity_sign x Ei) as [-> | ->]; vm_compute; repeat split.
      * right. left. by split.
      * right. right. by split.
    + destruct (0 <? x) eqn:Ep.
      * assert (Hf : is_finite x = true) by (unfold is_finite; by rewrite En, Ei).
        repeat split; try done. left. by repeat split.
      * repeat split. right. right. by split.
Qed.

(** * C10: the default configuration *)

(** C10.  Called with [control] left to [default_control], [variational]
    raises [KeyError: 'max iteration'], whatever the other arguments and
    the kernels: the lookup is the first thing the function does, so no
    array is built and no iteration runs. *)
Theorem default_control_raises_KeyError `{Extern} (inp : inputs) (fuel : nat) :
  control inp = default_control ->
  variational inp = Raise (KeyError "max iteration") /\
  variational_fuel fuel inp = Raise (KeyError "max iteration") /\
  initialize inp = Raise (KeyError "max iteration") /\
  default_control !! "maxiter" = Some (PyInt 200).
Proof.
  intros Hc.
  assert (Hi : initialize inp = Raise (KeyError "max iteration")).
  { unfold initialize, getitem. rewrite Hc.
    replace (default_control !! "max iteration") with (@None pyval)
      by (vm_compute; reflexivity).
    reflexivity. }
  unfold variational, variational_fuel. rewrite Hi. by repeat split.
Qed.

Lemma default_control_raises_KeyError_witness :
  variational (H := Ref.kernels) fit_default = Raise (KeyError "max iteration").
Proof.
  exact (proj1 (default_control_raises_KeyError (H := Ref.kernels) fit_default 0 eq_refl)).
Defined.

(** * C1: the trace *)

(** C1 on a concrete fit.  Only the posterior covariance is optimized
    (the three guarded blocks are frozen), [alpha = 2^30], [beta = -2^59],
    prior variance 1, one observation equal to 0.  The bound of the initial
    state is -1.5; the first outer iteration replaces the posterior variance
    1 by [1 - 2^30 * 2^-30 = 0], nothing rolls the update back, and the
    bound recorded for the iteration is minus infinity. *)
Theorem covariance_update_lowers_bound :
  exists r, variational (H := Ref.kernels) fit_covariance_only = Ok (Some r) /\
    r_lbound r = [-1.5; neg_infinity] /\
    r_post_cov r = [[[0]]] /\
    (getv (r_lbound r) 1 <? getv (r_lbound r) 0 - 1) = true.
Proof. eexists. split; [vm_compute; reflexivity |]. by repeat split. Qed.

(** The same on moderate numbers (prior variance 2000, [beta = -1000],
    [alpha = 1]): the posterior variance alternates between about 1 and
    about 2000 and the recorded bound goes down by more than 1 in every
    other iteration. *)
Lemma bound_oscillates :
  match end_of (H := Ref.kernels) fit_hyper 6 with
  | Some s =>
      (getv (lbound s) 1 <? getv (lbound s) 0 - 1) = true /\
      (getv (lbound s) 0 <? getv (lbound s) 2) = true /\
      (getv (lbound s) 3 <? getv (lbound s) 2 - 1) = true /\
      (getv (lbound s) 5 <? getv (lbound s) 4 - 1) = true
  | None => False
  end.
Proof. vm_compute. by repeat split. Qed.

(** * C8: the hyperparameter step *)

Section Hyper.
Context `{Extern}.
Variable e : consts.

(** Accepted or rejected, the hyperparameter step of latent [l] leaves
    the new variance and the new inverse squared lengthscale in place. *)
Lemma hyper_block_keeps_new_hyperparameters (l : nat) (s s' : vstate) (fl : flow) :
  hyper_block e l s = Ok (fl, s') ->
  exists var_l w_l,
    index (variance (prior s)) l = Ok var_l /\ index (w (prior s)) l = Ok w_l /\
    variance (prior s') = setv (variance (prior s)) l (new_var e l s var_l) /\
    w (prior s') =
      setv (w (prior s)) l
        (w_l + getv (stepsize_w (steps s)) l
               * grad_w e l (upd_prior (fun q =>
                   set_variance (setv (variance q) l (new_var e l s var_l)) q) s)).
Proof.
  unfold hyper_block. intros Hrun.
  destruct (index (variance (prior s)) l) as [var_l |] eqn:Ev; [| discriminate].
  rewrite bind_ok in Hrun. cbv beta zeta in Hrun.
  change (w (prior (upd_prior (fun q =>
            set_variance (setv (variance q) l (new_var e l s var_l)) q) s)))
    with (w (prior s)) in Hrun.
  destruct (index (w (prior s)) l) as [w_l |] eqn:Ew; [| discriminate].
  rewrite bind_ok in Hrun. exists var_l, w_l.
  res_cases Hrun; by repeat split.
Qed.
End Hyper.

(** C8 on a concrete fit (prior variance 2000, [beta = -1000],
    [alpha = 1], hyperparameter steps enabled, six iterations allowed).
    The step at [it = 5] is rejected: the prior covariance and precision
    are back to 2000 and 1/2000 and the step size is halved, but the stored
    variance is the rejected one, below 1, and the stored inverse squared
    lengthscale is negative (it started from the curvature weight the
    posterior-covariance update had bound to [w], not from [prior_w]). *)
Theorem rejected_hyper_step_keeps_hyperparameters :
  match end_of (H := Ref.kernels) fit_hyper 6 with
  | Some s =>
      stdout s = [EvPrint "Hyper"; EvPrint "new hyper failed"] /\
      prior_cov (prior s) = [[[2000]]] /\
      prior_inv (prior s) = [[[1 / 2000]]] /\
      stepsize_w (steps s) = [0.5] /\
      (getv (variance (prior s)) 0 <? 1) = true /\
      (getv (w (prior s)) 0 <? 0) = true /\
      prior_var fit_hyper = [2000] /\ prior_w fit_hyper = [1]
  | None => False
  end.
Proof. vm_compute. by repeat split. Qed.

(** * Invariants of a run *)

Section ForEachIn.
Context {S : Type}.

(** As [for_each_invariant], for a body that keeps the property on the
    indices the loop visits. *)
Lemma for_each_invariant_in (P : S -> Prop) (body : nat -> S -> res (flow * S))
    (ns : list nat) :
  (forall n s fl s', n ∈ ns -> P s -> body n s = Ok (fl, s') -> P s') ->
  forall s s', P s -> for_each body ns s = Ok s' -> P s'.
Proof.
  induction ns as [| n ns IH]; intros Hbody s s' HP Hrun; cbn in Hrun.
  - by inversion Hrun; subst.
  - destruct (body n s) as [[[] s1] | ex] eqn:Eb; try discriminate.
    + eapply IH; [| | exact Hrun].
      * intros m t fl t' Hm. apply Hbody. by right.
      * eapply Hbody; [by left | exact HP | exact Eb].
    + inversion Hrun; subst. eapply Hbody; [by left | exact HP | exact Eb].
Qed.
End ForEachIn.

Lemma elem_of_range (n k : nat) : n ∈ range k <-> n < k.
Proof. unfold range. rewrite elem_of_seq. lia. Qed.

Section RunInvariant.
Context `{Extern}.
Variable e : consts.
Variable P : vstate -> Prop.

Hypothesis P_beta : fixbeta (args e) = false ->
  forall n s fl s', n < dim_N e -> P s -> beta_block e n s = Ok (fl, s') -> P s'.
Hypothesis P_alpha : fixalpha (args e) = false ->
  forall l s fl s', l < dim_L e -> P s -> alpha_block e l s = Ok (fl, s') -> P s'.
Hypothesis P_mean : fixpostmean (args e) = false ->
  forall l s fl s', l < dim_L e -> P s -> mean_block e l s = Ok (fl, s') -> P s'.
Hypothesis P_postcov : fixpostcov (args e) = false ->
  forall l s fl s', l < dim_L e -> P s -> postcov_block e l s = Ok (fl, s') -> P s'.
Hypothesis P_hyper : hyper (args e) = true ->
  forall l s fl s', l < dim_L e -> P s -> hyper_block e l s = Ok (fl, s') -> P s'.
Hypothesis P_snapshot : hyper (args e) = true ->
  forall s c i, P s -> P (upd_saved (set_last_prior c i) s).
Hypothesis P_close :
  forall s s', P s -> it s < maxiter e -> close_iteration e s = Ok s' -> P s'.

Lemma optional_loop_invariant (skip : bool) (body : nat -> vstate -> res (flow * vstate))
    (k : nat) (s s' : vstate) :
  (skip = false -> forall n s fl s', n < k -> P s -> body n s = Ok (fl, s') -> P s') ->
  P s -> (if skip then mret s else for_each body (range k) s) = Ok s' -> P s'.
Proof.
  intros Hbody HP Hrun. destruct skip.
  - by inversion Hrun; subst.
  - eapply (for_each_invariant_in P body (range k)); [| exact HP | exact Hrun].
    intros n t fl t' Hn. apply Hbody; [done | by apply elem_of_range].
Qed.

Lemma block_updates_invariant (s s' : vstate) :
  P s -> block_updates e s = Ok s' -> P s'.
Proof.
  unfold block_updates, guarded_phases, postcov_phase, hyper_phase. intros HP Hrun.
  destruct (if fixbeta (args e) then _ else _) as [s1 |] eqn:E1; [| discriminate].
  rewrite bind_ok in Hrun.
  destruct (if fixalpha (args e) then _ else _) as [s2 |] eqn:E2; [| discriminate].
  rewrite bind_ok in Hrun.
  destruct (if fixpostmean (args e) then _ else _) as [s3 |] eqn:E3; [| discriminate].
  rewrite bind_ok in Hrun.
  destruct (if fixpostcov (args e) then _ else _) as [s4 |] eqn:E4; [| discriminate].
  rewrite bind_ok in Hrun.
  apply (optional_loop_invariant _ _ _ _ _ P_beta) in E1; [| exact HP].
  apply (optional_loop_invariant _ _ _ _ _ P_alpha) in E2; [| exact E1].
  apply (optional_loop_invariant _ _ _ _ _ P_mean) in E3; [| exact E2].
  apply (optional_loop_invariant _ _ _ _ _ P_postcov) in E4; [| exact E3].
  destruct (hyper (args e)) eqn:Eh; cbn [andb] in Hrun.
  - destruct (it s4 mod 5 =? 0)%nat.
    + eapply (for_each_invariant_in P (hyper_block e) (range (dim_L e)));
        [| apply (P_snapshot eq_refl); exact E4 | exact Hrun].
      intros l t fl t' Hl. apply (P_hyper eq_refl). by apply elem_of_range.
    + by inversion Hrun; subst.
  - by inversion Hrun; subst.
Qed.

Lemma outer_iteration_invariant (s s' : vstate) :
  P s -> it s < maxiter e -> outer_iteration e s = Ok s' -> P s'.
Proof.
  unfold outer_iteration. intros HP Hit Hrun.
  destruct (block_updates e s) as [s3 |] eqn:E3; [| discriminate]. rewrite bind_ok in Hrun.
  pose proof (block_updates_frame e s s3 E3) as (Hi & _).
  eapply P_close; [eapply block_updates_invariant; eassumption | lia | exact Hrun].
Qed.

Lemma while_loop_invariant (fuel : nat) : forall s s',
  P s -> while_loop e fuel s = Ok (Some s') -> P s'.
Proof.
  induction fuel as [| fuel IH]; intros s s' HP Hrun; cbn [while_loop] in Hrun.
  - destruct (negb (converged s) && (it s <? maxiter e)%nat); [discriminate |].
    by inversion Hrun; subst.
  - destruct (negb (converged s) && (it s <? maxiter e)%nat) eqn:Ec.
    + apply andb_true_iff in Ec as [_ Hlt]. apply Nat.ltb_lt in Hlt.
      destruct (outer_iteration e s) as [s1 | ex] eqn:E1; [| discriminate].
      rewrite bind_ok in Hrun.
      eapply IH; [| exact Hrun]. eapply outer_iteration_invariant; eassumption.
    + by inversion Hrun; subst.
Qed.
End RunInvariant.

(** What [variational] returns is the state in which its loop ends. *)
Lemma variational_returns `{Extern} (inp : inputs) (c : consts) (s : vstate) (a b : fmat)
    (r : output) :
  initialize inp = Ok (c, s, a, b) -> variational inp = Ok (Some r) ->
  exists s', while_loop c (max_iterations inp) s = Ok (Some s') /\ r = returned s' a b.
Proof.
  unfold variational, variational_fuel. intros ->.
  destruct (while_loop c (max_iterations inp) s) as [[s' |] | ex]; try discriminate.
  intros Hr. inversion Hr; subst. by exists s'.
Qed.

(** A property that the block updates and the end of the iteration keep
    is kept by every outer iteration, and holds when the loop ends. *)
Section Keeps.
Context `{Extern}.
Variable e : consts.
Variable Q : vstate -> Prop.
Hypothesis Q_blocks : forall t t', Q t -> block_updates e t = Ok t' -> Q t'.
Hypothesis Q_close : forall t t', Q t -> close_iteration e t = Ok t' -> Q t'.

Lemma outer_iteration_keeps (t t' : vstate) :
  Q t -> outer_iteration e t = Ok t' -> Q t'.
Proof.
  intros HQt. unfold outer_iteration. intros Hrun.
  destruct (block_updates e t) as [t3 |] eqn:E3; [| discriminate].
  rewrite bind_ok in Hrun. eapply Q_close; [| exact Hrun]. by eapply Q_blocks.
Qed.

Lemma while_loop_keeps (fuel : nat) : forall t s',
  Q t -> while_loop e fuel t = Ok (Some s') -> Q s'.
Proof.
  induction fuel as [| fuel IH]; intros t s' HQt Hrun; cbn [while_loop] in Hrun.
  - destruct (negb (converged t) && (it t <? maxiter e)%nat); [discriminate |].
    by inversion Hrun; subst.
  - destruct (negb (converged t) && (it t <? maxiter e)%nat).
    + destruct (outer_iteration e t) as [t1 | ex] eqn:E1; [| discriminate].
      rewrite bind_ok in Hrun. eapply IH; [| exact Hrun].
      by eapply outer_iteration_keeps.
    + by inversion Hrun; subst.
Qed.
End Keeps.

(** * What each block updater leaves alone *)

Section BlockFrames.
Context `{Extern}.
Variable e : consts.

Ltac settle_cases :=
  repeat match goal with |- context [if ?b then _ else _] => destruct b end.

Lemma beta_block_others (n : nat) (s : vstate) (fl : flow) (s' : vstate) :
  beta_block e n s = Ok (fl, s') ->
  alpha (cur s') = alpha (cur s) /\ post_mean (cur s') = post_mean (cur s) /\
  post_cov (cur s') = post_cov (cur s) /\ prior s' = prior s /\
  stepsize_alpha (steps s') = stepsize_alpha (steps s) /\
  stepsize_post_mean (steps s') = stepsize_post_mean (steps s) /\
  stepsize_w (steps s') = stepsize_w (steps s).
Proof.
  unfold beta_block. intros Hrun. res_cases Hrun; try done.
  unfold beta_settle. settle_cases; done.
Qed.

Lemma alpha_block_others (l : nat) (s : vstate) (fl : flow) (s' : vstate) :
  alpha_block e l s = Ok (fl, s') ->
  beta (cur s') = beta (cur s) /\ post_mean (cur s') = post_mean (cur s) /\
  post_cov (cur s') = post_cov (cur s) /\ prior s' = prior s /\
  stepsize_beta (steps s') = stepsize_beta (steps s) /\
  stepsize_post_mean (steps s') = stepsize_post_mean (steps s) /\
  stepsize_w (steps s') = stepsize_w (steps s).
Proof.
  unfold alpha_block. intros Hrun. res_cases Hrun; try done.
  match goal with Ht : alpha_trial _ _ _ _ = Ok _ |- _ =>
    unfold alpha_trial in Ht; res_cases Ht end.
  unfold alpha_settle. settle_cases; done.
Qed.

Lemma mean_block_others (l : nat) (s : vstate) (fl : flow) (s' : vstate) :
  mean_block e l s = Ok (fl, s') ->
  beta (cur s') = beta (cur s) /\ alpha (cur s') = alpha (cur s) /\
  post_cov (cur s') = post_cov (cur s) /\
  prior_cov (prior s') = prior_cov (prior s) /\
  prior_inv (prior s') = prior_inv (prior s) /\
  variance (prior s') = variance (prior s) /\
  stepsize_beta (steps s') = stepsize_beta (steps s) /\
  stepsize_alpha (steps s') = stepsize_alpha (steps s) /\
  stepsize_w (steps s') = stepsize_w (steps s).
Proof.
  unfold mean_block. intros Hrun.
  destruct (woodbury e l s) as [[s0 hinv] | ex] eqn:Hw; [| discriminate].
  rewrite bind_ok in Hrun.
  destruct (well_formed_woodbury e l s s0 hinv Hw)
    as (Hc & Hr & Hst & Hsv & _ & _ & _ & _ & _ & Hpc & Hpi & Hv).
  res_cases Hrun.
  - by rewrite Hc, Hst.
  - unfold mean_settle. settle_cases; cbn; by rewrite Hc, Hst.
Qed.

Lemma postcov_block_others (l : nat) (s : vstate) (fl : flow) (s' : vstate) :
  postcov_block e l s = Ok (fl, s') ->
  beta (cur s') = beta (cur s) /\ alpha (cur s') = alpha (cur s) /\
  post_mean (cur s') = post_mean (cur s) /\
  prior_cov (prior s') = prior_cov (prior s) /\
  prior_inv (prior s') = prior_inv (prior s) /\
  variance (prior s') = variance (prior s) /\
  steps s' = steps s /\ saved s' = saved s.
Proof.
  unfold postcov_block. intros Hrun.
  destruct (woodbury e l s) as [[s0 V] | ex] eqn:Hw; [| discriminate].
  rewrite bind_ok in Hrun.
  destruct (well_formed_woodbury e l s s0 V Hw)
    as (Hc & Hr & Hst & Hsv & _ & _ & _ & _ & _ & Hpc & Hpi & Hv).
  res_cases Hrun. cbn. by rewrite Hc, Hst, Hsv.
Qed.

Lemma hyper_block_others (l : nat) (s : vstate) (fl : flow) (s' : vstate) :
  hyper_block e l s = Ok (fl, s') ->
  cur s' = cur s /\ rate s' = rate s /\ saved s' = saved s /\
  stepsize_beta (steps s') = stepsize_beta (steps s) /\
  stepsize_alpha (steps s') = stepsize_alpha (steps s) /\
  stepsize_post_mean (steps s') = stepsize_post_mean (steps s).
Proof. unfold hyper_block. intros Hrun. res_cases Hrun; done. Qed.

Lemma close_iteration_others (s s' : vstate) :
  close_iteration e s = Ok s' ->
  cur s' = cur s /\ rate s' = rate s /\ prior s' = prior s /\ saved s' = saved s /\
  steps s' = steps s.
Proof.
  unfold close_iteration. intros Hrun.
  destruct (change_of e _) as [change | ex]; [| discriminate].
  rewrite bind_ok in Hrun. inversion Hrun as [Hs']. clear Hrun.
  by destruct (change <? tol e), (verbose e).
Qed.
End BlockFrames.

(** * The state in which the loop starts *)

Section Start.
Context `{Extern}.

Lemma initialize_start (inp : inputs) (c : consts) (s : vstate) (a b : fmat) :
  initialize inp = Ok (c, s, a, b) ->
  args c = inp /\
  dim_T c = length (spike inp) /\ dim_N c = ncols (spike inp) /\
  dim_L c = ncols (prior_mean inp) /\
  regressor c = makeregressor (spike inp) (p inp) (intercept inp) /\
  beta (cur s) = b /\ alpha (cur s) = a /\
  post_mean (cur s) = match m0 inp with None => prior_mean inp | Some m => m end /\
  post_cov (cur s) = prior_cov (prior s) /\
  good s = cur s /\
  (forall a', a0 inp = Some a' -> a = a') /\
  (forall b', b0 inp = Some b' -> b = b') /\
  rate s = rate (updaterate c (range (dim_T c)) (range (dim_N c))
                   (upd_rate (fun _ => zeros_like (spike inp)) s)) /\
  saved s = {| last_b := zeros_like b; last_a := zeros_like a;
               last_m := zeros_like (post_mean (cur s));
               last_rate := zeros_like (spike inp);
               last_V := map zeros_like (prior_cov (prior s));
               last_prior_cov := map zeros_like (prior_cov (prior s));
               last_prior_inv := map zeros_like (prior_inv (prior s)) |} /\
  steps s = {| stepsize_alpha := replicate (dim_N c) 1;
               stepsize_beta := replicate (dim_N c) 1;
               stepsize_post_mean := replicate (dim_L c) 1;
               stepsize_w := replicate (dim_L c) 1 |} /\
  lbound s = setv (replicate (maxiter c) neg_infinity) 0 (lb_now c s).
Proof.
  unfold initialize. intros Hinit. unfold getitem in Hinit.
  destruct (control inp !! "max iteration") as [mi |] eqn:Emi; [| discriminate].
  rewrite bind_ok in Hinit.
  destruct (control inp !! "fixed-point iteration") as [fp |]; [| discriminate].
  rewrite bind_ok in Hinit.
  destruct (control inp !! "tol") as [tl |]; [| discriminate]. rewrite bind_ok in Hinit.
  destruct (control inp !! "verbose") as [vb |]; [| discriminate]. rewrite bind_ok in Hinit.
  destruct (mapM _ _) as [pri |]; [| discriminate]. rewrite bind_ok in Hinit.
  destruct (match a0 inp with Some _ => _ | None => _ end) as [a0' |] eqn:Ea; [| discriminate].
  rewrite bind_ok in Hinit.
  destruct (match b0 inp with Some _ => _ | None => _ end) as [b0' |] eqn:Eb; [| discriminate].
  rewrite bind_ok in Hinit.
  destruct (as_int mi) as [mz |] eqn:Emz; [| discriminate]. rewrite bind_ok in Hinit.
  assert (Hmz : mz = int_of mi) by (destruct mi; cbn in *; congruence).
  destruct (mz <? 0)%Z eqn:Eneg; [discriminate |].
  destruct (mz =? 0)%Z eqn:Ezero; [discriminate |].
  inversion Hinit; subst. clear Hinit.
  repeat split.
  - intros a' Ha'. rewrite Ha' in Ea. by inversion Ea.
  - intros b' Hb'. rewrite Hb' in Eb. by inversion Eb.
Qed.
End Start.

(** * Frozen blocks *)

(** X2.  A block whose [fix...] switch is set is returned exactly as it entered
    the loop: [alpha] and [beta] as the initial values that are returned
    beside them (the arguments [a0] and [b0] when they are given), the
    posterior mean as [m0] (or the prior mean), the posterior covariance as
    the prior covariance built before the loop. *)
Theorem frozen_blocks_are_returned_unchanged `{Extern} (inp : inputs) (r : output) :
  variational inp = Ok (Some r) ->
  (forall a', a0 inp = Some a' -> r_a0 r = a') /\
  (forall b', b0 inp = Some b' -> r_b0 r = b') /\
  (fixalpha inp = true -> r_alpha r = r_a0 r) /\
  (fixbeta inp = true -> r_beta r = r_b0 r) /\
  (fixpostmean inp = true ->
   r_post_mean r = match m0 inp with None => prior_mean inp | Some m => m end) /\
  (fixpostcov inp = true ->
   exists c s, start_of inp = Some (c, s) /\ r_post_cov r = prior_cov (prior s)).
Proof.
  intros Hrun.
  destruct (initialize inp) as [[[[c s] a] b] | ex] eqn:Ei;
    [| unfold variational, variational_fuel in Hrun; by rewrite Ei in Hrun].
  destruct (variational_returns inp c s a b r Ei Hrun) as (s' & Hloop & ->).
  destruct (initialize_start inp c s a b Ei)
    as (Hargs & _ & _ & _ & _ & Hb & Ha & Hm & Hv & _ & Ha0 & Hb0 & _).
  set (P := fun t : vstate =>
    (fixalpha inp = true -> alpha (cur t) = a) /\
    (fixbeta inp = true -> beta (cur t) = b) /\
    (fixpostmean inp = true -> post_mean (cur t) = post_mean (cur s)) /\
    (fixpostcov inp = true -> post_cov (cur t) = post_cov (cur s))).
  assert (HP : P s') .
  { apply (while_loop_invariant c P) with (fuel := max_iterations inp) (s := s);
      try exact Hloop; unfold P; rewrite ?Hargs.
    - intros Hfix n t fl t' _ (H1 & H2 & H3 & H4) Hblock.
      destruct (beta_block_others c n t fl t' Hblock) as (E1 & E2 & E3 & _).
      rewrite E1, E2, E3. repeat split; try done. intros Hf. congruence.
    - intros Hfix n t fl t' _ (H1 & H2 & H3 & H4) Hblock.
      destruct (alpha_block_others c n t fl t' Hblock) as (E1 & E2 & E3 & _).
      rewrite E1, E2, E3. repeat split; try done. intros Hf. congruence.
    - intros Hfix n t fl t' _ (H1 & H2 & H3 & H4) Hblock.
      destruct (mean_block_others c n t fl t' Hblock) as (E1 & E2 & E3 & _).
      rewrite E1, E2, E3. repeat split; try done. intros Hf. congruence.
    - intros Hfix n t fl t' _ (H1 & H2 & H3 & H4) Hblock.
      destruct (postcov_block_others c n t fl t' Hblock) as (E1 & E2 & E3 & _).
      rewrite E1, E2, E3. repeat split; try done. intros Hf. congruence.
    - intros _ n t fl t' _ HPt Hblock.
      destruct (hyper_block_others c n t fl t' Hblock) as (E1 & _). by rewrite E1.
    - intros _ t pc pinv HPt. exact HPt.
    - intros t t' HPt _ Hclose.
      destruct (close_iteration_others c t t' Hclose) as (E1 & _). by rewrite E1.
    - by repeat split. }
  destruct HP as (H1 & H2 & H3 & H4). cbn. repeat split; try done.
  - intros Hf. by rewrite (H3 Hf).
  - intros Hf. exists c, s. unfold start_of. rewrite Ei. split; [done |].
    by rewrite (H4 Hf).
Qed.

Lemma frozen_blocks_are_returned_unchanged_witness :
  exists r, variational (H := Ref.kernels) fit_saturated = Ok (Some r) /\
    r_alpha r = [[0]] /\ r_post_mean r = [[0]] /\ r_b0 r = [[1000]].
Proof.
  destruct (variational (H := Ref.kernels) fit_saturated) as [[r |] | ex] eqn:Er;
    try (vm_compute in Er; discriminate Er).
  destruct (frozen_blocks_are_returned_unchanged (H := Ref.kernels) fit_saturated r Er)
    as (Ha0 & Hb0 & Ha & _ & Hm & _).
  exists r. split; [reflexivity |]. split; [| split].
  - rewrite (Ha eq_refl). exact (Ha0 _ eq_refl).
  - exact (Hm eq_refl).
  - exact (Hb0 _ eq_refl).
Defined.

(** * Order and subtraction in binary64 *)

Section FloatOrder.
Local Open Scope Z_scope.

Lemma digits2_pos_upper (p : positive) : Z.pos p < 2 ^ Z.pos (digits2_pos p).
Proof.
  induction p as [p IH | p IH |]; simpl digits2_pos.
  - rewrite Pos2Z.inj_succ, Z.pow_succ_r by lia. lia.
  - rewrite Pos2Z.inj_succ, Z.pow_succ_r by lia. lia.
  - simpl. lia.
Qed.

(** A valid finite number has its exponent at or above [emin], fewer than
    54 mantissa bits, and all 53 of them above [emin]. *)
Lemma valid_finite (s : bool) (m : positive) (ex : Z) :
  SpecFloat.valid_binary prec emax (S754_finite s m ex) = true ->
  emin64 <= ex /\ Z.pos m < 2 ^ 53 /\ (emin64 < ex -> 2 ^ 52 <= Z.pos m).
Proof.
  cbn [SpecFloat.valid_binary]. unfold bounded, canonical_mantissa, fexp, SpecFloat.emin, prec, emax, emin64.
  intros Hv. apply andb_true_iff in Hv as [Hc _]. apply Z.eqb_eq in Hc.
  unfold SpecFloat.fexp, SpecFloat.emin in Hc.
  pose proof (digits2_pos_upper m) as Hu. pose proof (digits2_pos_lower m) as Hl.
  assert (Hd : Z.pos (digits2_pos m) <= 53) by lia.
  repeat split.
  - lia.
  - eapply Z.lt_le_trans; [exact Hu |]. apply Z.pow_le_mono_r; lia.
  - intros He. assert (Hd' : Z.pos (digits2_pos m) = 53) by lia.
    rewrite Hd' in Hl. exact Hl.
Qed.

Lemma iter_xO (m d : positive) : Z.pos (Pos.iter xO m d) = Z.pos m * 2 ^ Z.pos d.
Proof.
  induction d as [| d IH] using Pos.peano_ind.
  - cbn. lia.
  - rewrite Pos.iter_succ, Pos2Z.inj_succ, Z.pow_succ_r by lia.
    rewrite Pos2Z.inj_xO, IH. ring.
Qed.

Lemma shl_align_value (m : positive) (ex ez : Z) :
  ez <= ex -> Z.pos (fst (shl_align m ex ez)) = Z.pos m * 2 ^ (ex - ez).
Proof.
  intros Hle. unfold shl_align.
  destruct (ez - ex) as [| d | d] eqn:E; cbn [fst]; try lia.
  - replace (ex - ez) with 0 by lia. lia.
  - rewrite iter_xO. f_equal. f_equal. lia.
Qed.

Lemma binary_round_aux_neg m ex l :
  0 < m -> emin64 <= ex -> sf_neg (binary_round_aux prec emax true m ex l).
Proof.
  intros Hm He. unfold binary_round_aux.
  pose proof (shr_fexp_pos m ex l Hm He) as [H1 H1'].
  destruct (shr_fexp prec emax m ex l) as [mrs' e'] eqn:E1. cbn [fst snd] in *.
  pose proof (round_nearest_even_ge (shr_m mrs') (loc_of_shr_record mrs')) as Hr.
  pose proof (shr_fexp_pos (round_nearest_even (shr_m mrs') (loc_of_shr_record mrs')) e' loc_Exact
                ltac:(lia) H1') as [H2 H3].
  destruct (shr_fexp prec emax _ e' loc_Exact) as [mrs'' e''] eqn:E2. cbn [fst snd] in *.
  destruct (shr_m mrs'') as [| q | q]; cbn; try lia.
  destruct (e'' <=? emax - prec); cbn; [exact H3 | exact I].
Qed.

Lemma binary_round_neg m ex :
  emin64 <= ex -> sf_neg (binary_round prec emax true m ex).
Proof.
  intros He. unfold binary_round, shl_align.
  destruct (fexp prec emax (Z.pos (digits2_pos m) + ex) - ex) as [| q | q] eqn:E.
  - apply binary_round_aux_neg; lia.
  - apply binary_round_aux_neg; lia.
  - apply binary_round_aux_neg; [lia |].
    unfold fexp, SpecFloat.emin, prec, emax, emin64 in *. lia.
Qed.

Lemma sf_neg_ltb x : sf_neg x -> SFltb x (S754_zero false) = true.
Proof. destruct x as [[] | [] | | [] mx ex]; cbn; intros; try contradiction; reflexivity. Qed.

Lemma binary_normalize_neg (z ez : Z) :
  z < 0 -> emin64 <= ez -> sf_neg (binary_normalize prec emax z ez false).
Proof.
  intros Hz He. destruct z as [| q | q]; try lia. cbn [binary_normalize].
  by apply binary_round_neg.
Qed.

(** The difference of two valid numbers, the first below the second, is
    negative: a subtraction never rounds to zero. *)
Lemma SFsub_neg (x y : spec_float) :
  SpecFloat.valid_binary prec emax x = true -> SpecFloat.valid_binary prec emax y = true ->
  SFltb x y = true -> sf_neg (SF64sub x y).
Proof.
  intros Vx Vy Hlt. unfold SFltb in Hlt.
  destruct x as [sx | sx | | sx mx ex], y as [sy | sy | | sy my ey];
    try (destruct sx); try (destruct sy); cbn in Hlt; try discriminate; try exact I;
    try (cbn; by apply (valid_finite _ _ _ Vx));
    try (cbn; by apply (valid_finite _ _ _ Vy)).
  - (* both negative *)
    destruct (valid_finite _ _ _ Vx) as (Hex & Hux & Hlx).
    destruct (valid_finite _ _ _ Vy) as (Hey & Huy & Hly).
    unfold SF64sub, SFsub. apply binary_normalize_neg; [| lia].
    cbn [cond_Zopp]. rewrite !shl_align_value by lia.
    destruct (Z.compare_spec ex ey) as [-> | Hl | Hg]; try discriminate.
    + rewrite Z.min_id, Z.sub_diag, Z.pow_0_r, !Z.mul_1_r.
      destruct (Pos.compare_cont Eq mx my) eqn:Ec; try discriminate.
      change (Pos.compare_cont Eq mx my) with (mx ?= my)%positive in Ec.
      assert (Z.pos my < Z.pos mx)
        by (apply Pos2Z.pos_lt_pos; exact (proj1 (Pos.compare_gt_iff _ _) Ec)).
      lia.
    + rewrite Z.min_r by lia. rewrite Z.sub_diag, Z.pow_0_r, Z.mul_1_r.
      assert (2 <= 2 ^ (ex - ey)).
      { change 2 with (2 ^ 1) at 1. apply Z.pow_le_mono_r; lia. }
      specialize (Hlx ltac:(lia)). nia.
  - (* negative minus positive *)
    destruct (valid_finite _ _ _ Vx) as (Hex & _).
    destruct (valid_finite _ _ _ Vy) as (Hey & _).
    unfold SF64sub, SFsub. apply binary_normalize_neg; [| lia].
    cbn [cond_Zopp]. lia.
  - (* both positive *)
    destruct (valid_finite _ _ _ Vx) as (Hex & Hux & Hlx).
    destruct (valid_finite _ _ _ Vy) as (Hey & Huy & Hly).
    unfold SF64sub, SFsub. apply binary_normalize_neg; [| lia].
    cbn [cond_Zopp]. rewrite !shl_align_value by lia.
    destruct (Z.compare_spec ex ey) as [-> | Hl | Hg]; try discriminate.
    + rewrite Z.min_id, Z.sub_diag, Z.pow_0_r, !Z.mul_1_r.
      destruct (Pos.compare_cont Eq mx my) eqn:Ec; try discriminate.
      change (Pos.compare_cont Eq mx my) with (mx ?= my)%positive in Ec.
      assert (Z.pos mx < Z.pos my)
        by (apply Pos2Z.pos_lt_pos; exact (proj1 (Pos.compare_lt_iff _ _) Ec)).
      lia.
    + rewrite Z.min_l by lia. rewrite Z.sub_diag, Z.pow_0_r, Z.mul_1_r.
      assert (2 <= 2 ^ (ey - ex)).
      { change 2 with (2 ^ 1) at 1. apply Z.pow_le_mono_r; lia. }
      specialize (Hly ltac:(lia)). nia.
Qed.

Lemma SFltb_irrefl (x : spec_float) : SFltb x x = false.
Proof.
  unfold SFltb. destruct x as [[] | [] | | [] m ex]; cbn; try reflexivity.
  - change (Pos.compare_cont Eq m m) with (m ?= m)%positive.
    by rewrite Z.compare_refl, Pos.compare_refl.
  - change (Pos.compare_cont Eq m m) with (m ?= m)%positive.
    by rewrite Z.compare_refl, Pos.compare_refl.
Qed.
End FloatOrder.

Lemma ltb_irrefl (x : float) : (x <? x) = false.
Proof. rewrite FloatAxioms.ltb_spec. apply SFltb_irrefl. Qed.

(** [x < y] implies [x - y < 0]. *)
Lemma sub_neg_of_lt (x y : float) : (x <? y) = true -> (x - y <? 0) = true.
Proof.
  rewrite !FloatAxioms.ltb_spec, FloatAxioms.sub_spec.
  change (Prim2SF 0) with (S754_zero false).
  intros Hlt. apply sf_neg_ltb, SFsub_neg; try done; apply Prim2SF_valid.
Qed.

(** The two forms of the rejection test agree on what they accept. *)
Lemma accepted_not_below (lb prev : float) :
  rejected lb prev = false -> (lb <? prev) = false.
Proof. unfold rejected. intros Hr. by apply orb_false_iff in Hr as [_ Hr]. Qed.

Lemma accepted_alpha_not_below (lb prev : float) :
  rejected_alpha lb prev = false -> (lb <? prev) = false.
Proof.
  unfold rejected_alpha. intros Hr. apply orb_false_iff in Hr as [_ Hr].
  destruct (lb <? prev) eqn:E; [| done]. by rewrite (sub_neg_of_lt _ _ E) in Hr.
Qed.

(** * Shapes are kept *)

Section Shapes.
Context `{Extern}.
Variable e : consts.

Ltac settle_cases :=
  repeat match goal with |- context [if ?b then _ else _] => destruct b end.

Lemma well_formed_frame (s s' : vstate) :
  well_formed e s ->
  length (beta (cur s')) = length (beta (cur s)) ->
  length (alpha (cur s')) = length (alpha (cur s)) ->
  length (post_mean (cur s')) = length (post_mean (cur s)) ->
  rate s' = rate s -> 
  last_b (saved s') = last_b (saved s) -> last_a (saved s') = last_a (saved s) ->
  last_m (saved s') = last_m (saved s) -> last_rate (saved s') = last_rate (saved s) ->
  well_formed e s'.
Proof.
  unfold well_formed. intros Hwf Hb Ha Hm -> -> -> -> ->. by rewrite Hb, Ha, Hm.
Qed.

Lemma beta_block_well_formed (n : nat) (s : vstate) (fl : flow) (s' : vstate) :
  well_formed e s -> beta_block e n s = Ok (fl, s') -> well_formed e s'.
Proof.
  intros Hwf. unfold beta_block. intros Hrun. res_cases Hrun; try done.
  destruct Hwf as (H1 & H2 & H3 & H4 & H5 & H6 & H7 & H8).
  unfold beta_settle. settle_cases; unfold well_formed;
    cbn -[col set_col list_prod];
    rewrite ?length_set_col, ?fold_set_elem_length;
    repeat split; try done;
    repeat first [ apply Forall_length_set_col | apply fold_set_elem_rows ]; done.
Qed.

Lemma alpha_block_well_formed (l : nat) (s : vstate) (fl : flow) (s' : vstate) :
  well_formed e s -> alpha_block e l s = Ok (fl, s') -> well_formed e s'.
Proof.
  intros Hwf. unfold alpha_block. intros Hrun. res_cases Hrun; try done.
  match goal with Ht : alpha_trial _ _ _ _ = Ok _ |- _ =>
    unfold alpha_trial in Ht; res_cases Ht end.
  destruct Hwf as (H1 & H2 & H3 & H4 & H5 & H6 & H7 & H8).
  unfold alpha_settle. settle_cases; unfold well_formed;
    cbn -[row set_row list_prod]; unfold set_row;
    rewrite ?length_insert, ?fold_set_elem_length;
    repeat split; try done;
    repeat first [ apply fold_set_elem_rows ]; done.
Qed.

Lemma woodbury_well_formed (l : nat) (s s0 : vstate) (hinv : fmat) :
  well_formed e s -> woodbury e l s = Ok (s0, hinv) -> well_formed e s0.
Proof.
  intros Hwf Hw.
  destruct (well_formed_woodbury e l s s0 hinv Hw) as (Hc & Hr & _ & Hsv & _).
  apply (well_formed_frame s); try done; by rewrite ?Hc, ?Hsv.
Qed.

Lemma mean_block_well_formed (l : nat) (s : vstate) (fl : flow) (s' : vstate) :
  well_formed e s -> mean_block e l s = Ok (fl, s') -> well_formed e s'.
Proof.
  intros Hwf. unfold mean_block. intros Hrun.
  destruct (woodbury e l s) as [[s0 hinv] | ex] eqn:Hw; [| discriminate].
  rewrite bind_ok in Hrun.
  pose proof (woodbury_well_formed l s s0 hinv Hwf Hw) as Hwf0.
  res_cases Hrun; try done.
  destruct Hwf0 as (H1 & H2 & H3 & H4 & H5 & H6 & H7 & H8).
  unfold mean_settle. settle_cases; unfold well_formed;
    cbn -[col set_col list_prod];
    rewrite ?length_set_col, ?fold_set_elem_length;
    repeat split; try done;
    repeat first [ apply Forall_length_set_col | apply fold_set_elem_rows ]; done.
Qed.

Lemma postcov_block_well_formed (l : nat) (s : vstate) (fl : flow) (s' : vstate) :
  well_formed e s -> postcov_block e l s = Ok (fl, s') -> well_formed e s'.
Proof.
  intros Hwf. unfold postcov_block. intros Hrun.
  destruct (woodbury e l s) as [[s0 V] | ex] eqn:Hw; [| discriminate].
  rewrite bind_ok in Hrun.
  pose proof (woodbury_well_formed l s s0 V Hwf Hw) as Hwf0.
  res_cases Hrun.
  destruct Hwf0 as (H1 & H2 & H3 & H4 & H5 & H6 & H7 & H8).
  unfold well_formed. cbn -[list_prod]. rewrite ?fold_set_elem_length.
  repeat split; try done. by apply fold_set_elem_rows.
Qed.

Lemma hyper_block_well_formed (l : nat) (s : vstate) (fl : flow) (s' : vstate) :
  well_formed e s -> hyper_block e l s = Ok (fl, s') -> well_formed e s'.
Proof.
  intros Hwf Hrun.
  destruct (hyper_block_others e l s fl s' Hrun) as (Hc & Hr & Hsv & _).
  apply (well_formed_frame s); try done; by rewrite ?Hc, ?Hsv.
Qed.

Lemma close_iteration_well_formed (s s' : vstate) :
  well_formed e s -> close_iteration e s = Ok s' -> well_formed e s'.
Proof.
  intros Hwf Hrun.
  destruct (close_iteration_others e s s' Hrun) as (Hc & Hr & _ & Hsv & _).
  apply (well_formed_frame s); try done; by rewrite ?Hc, ?Hsv.
Qed.
End Shapes.

(** * The bound within an outer iteration *)

Section BoundKept.
Context `{Extern}.
Variable e : consts.

Ltac settle_cases :=
  repeat match goal with |- context [if ?b then _ else _] => destruct b end.

Lemma not_below_frame (s s' : vstate) :
  cur s' = cur s -> rate s' = rate s ->
  prior_cov (prior s') = prior_cov (prior s) ->
  prior_inv (prior s') = prior_inv (prior s) ->
  lbound s' = lbound s -> it s' = it s ->
  not_below e s -> not_below e s'.
Proof.
  unfold not_below, prev_bound. intros Hc Hr Hpc Hpi -> ->.
  by rewrite (lb_now_frame e s s' Hc Hr Hpc Hpi).
Qed.

Lemma beta_block_bound (n : nat) (s : vstate) (fl : flow) (s' : vstate) :
  well_formed e s -> n < dim_N e -> not_below e s ->
  beta_block e n s = Ok (fl, s') -> not_below e s'.
Proof.
  intros Hwf Hn HK. unfold beta_block. intros Hrun. res_cases Hrun; try done.
  match goal with |- not_below e (beta_settle e n ?pr (beta_trial e n ?d s)) =>
    set (predict := pr); set (delta := d) end.
  destruct (rejected (lb_now e (beta_trial e n delta s)) (prev_bound s)) eqn:Hrej.
  - destruct (beta_reject e n delta predict s Hwf Hn Hrej)
      as (Hc & Hr & _ & _ & _ & _ & Hp & Hl & Hi).
    apply (not_below_frame s); try done; by rewrite Hp.
  - unfold beta_settle.
    change (prev_bound (beta_trial e n delta s)) with (prev_bound s). rewrite Hrej.
    apply accepted_not_below in Hrej. by settle_cases.
Qed.

Lemma alpha_block_bound (l : nat) (s : vstate) (fl : flow) (s' : vstate) :
  well_formed e s -> not_below e s ->
  alpha_block e l s = Ok (fl, s') -> not_below e s'.
Proof.
  intros Hwf HK. unfold alpha_block. intros Hrun. res_cases Hrun; try done.
  match goal with Ht : alpha_trial e l ?d s = Ok ?t |- not_below e (alpha_settle e l ?pr ?t) =>
    set (predict := pr); pose proof Ht as Htrial;
    unfold alpha_trial in Ht; res_cases Ht end.
  match type of Htrial with _ = Ok ?t => set (s5 := t) in * end.
  assert (Hprev : prev_bound s5 = prev_bound s) by reflexivity.
  destruct (rejected_alpha (lb_now e s5) (prev_bound s)) eqn:Hrej.
  - destruct (alpha_reject e l _ predict s s5 Hwf Htrial Hrej)
      as (Hc & Hr & _ & _ & _ & _ & Hp & Hl & Hi).
    apply (not_below_frame s); try done; by rewrite Hp.
  - unfold alpha_settle. rewrite Hprev, Hrej.
    apply accepted_alpha_not_below in Hrej. by settle_cases.
Qed.

Lemma mean_block_bound (l : nat) (s : vstate) (fl : flow) (s' : vstate) :
  well_formed e s -> l < dim_L e -> not_below e s ->
  mean_block e l s = Ok (fl, s') -> not_below e s'.
Proof.
  intros Hwf Hl HK. unfold mean_block. intros Hrun.
  destruct (woodbury e l s) as [[s0 hinv] | ex] eqn:Hw; [| discriminate].
  rewrite bind_ok in Hrun.
  pose proof (woodbury_well_formed e l s s0 hinv Hwf Hw) as Hwf0.
  destruct (well_formed_woodbury e l s s0 hinv Hw)
    as (Hc & Hr & _ & _ & Hlb & Hit & _ & _ & _ & Hpc & Hpi & _).
  assert (HK0 : not_below e s0) by (by apply (not_below_frame s)).
  res_cases Hrun; try done.
  match goal with |- not_below e (mean_settle e l ?pr (mean_trial e l ?d s0)) =>
    set (predict := pr); set (delta := d) end.
  destruct (rejected (lb_now e (mean_trial e l delta s0)) (prev_bound s0)) eqn:Hrej.
  - destruct (mean_reject e l delta predict s0 Hwf0 Hl Hrej)
      as (Hc' & Hr' & _ & _ & _ & _ & Hp & Hl' & Hi).
    apply (not_below_frame s0); try done; by rewrite Hp.
  - unfold mean_settle.
    change (prev_bound (mean_trial e l delta s0)) with (prev_bound s0). rewrite Hrej.
    apply accepted_not_below in Hrej. by settle_cases.
Qed.
End BoundKept.

(** * The trace of a run *)

Section Trace.
Context `{Extern}.

Lemma zeros_like_length (M : fmat) : length (zeros_like M) = length M.
Proof. unfold zeros_like. by rewrite length_map. Qed.

Lemma zeros_like_rectangular (k : nat) (M : fmat) :
  rectangular k M -> rectangular k (zeros_like M).
Proof.
  unfold rectangular, zeros_like. intros HM. apply Forall_fmap.
  eapply Forall_impl; [exact HM |]. cbn. intros r Hr. by rewrite length_map.
Qed.

(** The loop starts with buffers of the right shapes when the arrays have
    the shapes the docstring gives. *)
Lemma initialize_well_formed (inp : inputs) (c : consts) (s : vstate) (a b : fmat) :
  initialize inp = Ok (c, s, a, b) ->
  rectangular (ncols (spike inp)) (spike inp) ->
  rectangular (ncols (spike inp)) b ->
  rectangular (ncols (prior_mean inp)) (post_mean (cur s)) ->
  well_formed c s.
Proof.
  intros Hi Hy Hb Hm.
  destruct (initialize_start inp c s a b Hi)
    as (_ & _ & HN & HL & _ & Hbeta & Halpha & _ & _ & _ & _ & _ & Hrate & Hsaved & _).
  unfold well_formed. rewrite Hsaved, Hrate, HN, HL, Hbeta, Halpha. cbn -[list_prod].
  rewrite !zeros_like_length, fold_set_elem_length, zeros_like_length.
  repeat split; try by apply zeros_like_rectangular.
  apply fold_set_elem_rows. by apply zeros_like_rectangular.
Qed.

Lemma getv_setv_ne (v : fvec) (i j : nat) (x : float) :
  i <> j -> getv (setv v i x) j = getv v j.
Proof. intros Hij. unfold getv, setv. by rewrite list_lookup_insert_ne. Qed.

Lemma getv_take (v : fvec) (k i : nat) : i < k -> getv (take k v) i = getv v i.
Proof. intros Hi. unfold getv. by rewrite lookup_take_lt. Qed.
End Trace.

(** * Monotone traces *)

(** X1.  When the posterior covariance is frozen and the hyperparameter step is
    off, only the three guarded updaters change the state, and the trace
    that [variational] returns never decreases: no entry compares below
    the entry before it.  The arrays are assumed to have the shapes the
    docstring gives. *)
Theorem guarded_trace_never_decreases `{Extern} (inp : inputs) (c : consts) (s : vstate)
    (a b : fmat) (r : output) :
  initialize inp = Ok (c, s, a, b) ->
  rectangular (ncols (spike inp)) (spike inp) ->
  rectangular (ncols (spike inp)) b ->
  rectangular (ncols (prior_mean inp))
    (match m0 inp with None => prior_mean inp | Some m => m end) ->
  fixpostcov inp = true -> hyper inp = false ->
  variational inp = Ok (Some r) ->
  forall i, 1 <= i < length (r_lbound r) ->
    (getv (r_lbound r) i <? getv (r_lbound r) (i - 1)) = false.
Proof.
  intros Hi Hy Hb Hm Hfix Hhyper Hrun.
  destruct (variational_returns inp c s a b r Hi Hrun) as (s' & Hloop & ->).
  destruct (initialize_start inp c s a b Hi)
    as (Hargs & _ & HN & HL & _ & _ & _ & Hpm & _ & _ & _ & _ & _ & _ & _ & Hlb).
  destruct (initialize_spec inp c s a b Hi) as (_ & Hlen & Hit & _ & _ & Hmax).
  assert (Hwf : well_formed c s).
  { apply (initialize_well_formed inp c s a b Hi); try done. by rewrite Hpm. }
  set (Q := fun t : vstate =>
    well_formed c t /\ 1 <= it t /\ length (lbound t) = maxiter c /\ not_below c t /\
    forall i, 1 <= i < it t -> (getv (lbound t) i <? getv (lbound t) (i - 1)) = false).
  assert (HQ : Q s').
  { apply (while_loop_invariant c Q) with (fuel := max_iterations inp) (s := s);
      try exact Hloop; unfold Q; rewrite ?Hargs.
    - intros _ n t fl t' Hn (H1 & H2 & H3 & H4 & H5) Hblock.
      destruct (beta_block_frame c n t fl t' Hblock) as (Ei & El & _).
      rewrite Ei, El. refine (conj _ (conj H2 (conj H3 (conj _ H5)))).
      + by apply (beta_block_well_formed c n t fl).
      + by apply (beta_block_bound c n t fl).
    - intros _ n t fl t' Hn (H1 & H2 & H3 & H4 & H5) Hblock.
      destruct (alpha_block_frame c n t fl t' Hblock) as (Ei & El & _).
      rewrite Ei, El. refine (conj _ (conj H2 (conj H3 (conj _ H5)))).
      + by apply (alpha_block_well_formed c n t fl).
      + by apply (alpha_block_bound c n t fl).
    - intros _ n t fl t' Hn (H1 & H2 & H3 & H4 & H5) Hblock.
      destruct (mean_block_frame c n t fl t' Hblock) as (Ei & El & _).
      rewrite Ei, El. refine (conj _ (conj H2 (conj H3 (conj _ H5)))).
      + by apply (mean_block_well_formed c n t fl).
      + by apply (mean_block_bound c n t fl).
    - intros Hf. congruence.
    - intros Hf. congruence.
    - intros Hf. congruence.
    - intros t t' (H1 & H2 & H3 & H4 & H5) Hlt Hclose.
      destruct (close_iteration_spec c t t' Hclose)
        as (_ & _ & Ei & El & _ & _ & Hc & _).
      destruct (close_iteration_others c t t' Hclose) as (_ & Hr & Hp & _).
      assert (Hprev : prev_bound t' = lb_now c t).
      { unfold prev_bound. rewrite Ei, El. cbn. rewrite Nat.sub_0_r.
        apply getv_setv. lia. }
      refine (conj _ (conj _ (conj _ (conj _ _)))).
      + by apply (close_iteration_well_formed c t).
      + lia.
      + rewrite El. unfold setv. by rewrite length_insert.
      + unfold not_below. rewrite Hprev.
        rewrite (lb_now_frame c t t') by (by rewrite ?Hp). apply ltb_irrefl.
      + intros i Hrange. rewrite Ei in Hrange. rewrite El.
        destruct (decide (i = it t)) as [-> | Hne].
        * rewrite getv_setv by lia. rewrite getv_setv_ne by lia. exact H4.
        * rewrite !getv_setv_ne by lia. apply H5. lia.
    - refine (conj Hwf (conj _ (conj Hlen (conj _ _)))).
      + lia.
      + unfold not_below, prev_bound. rewrite Hit, Hlb. cbn.
        rewrite getv_setv by (rewrite length_replicate; lia). apply ltb_irrefl.
      + intros i Hrange. lia. }
  destruct HQ as (_ & _ & _ & _ & Htrace). cbn. intros i Hrange.
  rewrite length_take in Hrange.
  rewrite !getv_take by lia. apply Htrace. lia.
Qed.

Lemma guarded_trace_never_decreases_witness :
  exists r, variational (H := Ref.kernels) fit_loading = Ok (Some r) /\
    length (r_lbound r) = 2%nat /\
    (getv (r_lbound r) 1 <? getv (r_lbound r) 0) = false.
Proof.
  eexists. split; [vm_compute; reflexivity |]. split; [reflexivity |].
  eapply (guarded_trace_never_decreases (H := Ref.kernels) fit_loading);
    [vm_compute; reflexivity | repeat constructor | repeat constructor
    | repeat constructor | reflexivity | reflexivity | vm_compute; reflexivity
    | cbn; lia].
Defined.

(** * Edge cases of the iteration budget *)

(** X11.  With the integer 1 for [control['max iteration']] the loop body
    never runs: the call returns the initial blocks, a trace that holds the
    initial bound alone, and [converged = False]; nothing is printed. *)
Theorem single_iteration_budget_returns_start `{Extern} (inp : inputs) (c : consts)
    (s : vstate) (a b : fmat) :
  initialize inp = Ok (c, s, a, b) ->
  control inp !! "max iteration" = Some (PyInt 1) ->
  exists r, variational inp = Ok (Some r) /\
    r_converged r = false /\ r_lbound r = [lb_now c s] /\
    r_alpha r = a /\ r_beta r = b /\
    r_post_mean r = match m0 inp with None => prior_mean inp | Some m => m end /\
    r_post_cov r = prior_cov (prior s) /\ r_stdout r = [].
Proof.
  intros Hi Hctl.
  assert (Hone : max_iterations inp = 1%nat) by (unfold max_iterations; by rewrite Hctl).
  destruct (initialize_start inp c s a b Hi)
    as (_ & _ & _ & _ & _ & Hb & Ha & Hm & Hv & _ & _ & _ & _ & _ & _ & Hlb).
  destruct (initialize_spec inp c s a b Hi) as (Hmax & Hlen & Hit & Hcv & Hout & _).
  unfold variational, variational_fuel. rewrite Hi, Hone. cbn [while_loop].
  rewrite Hit, Hmax, Hone, Nat.ltb_irrefl, andb_false_r. cbn -[lb_now].
  eexists. split; [reflexivity |]. cbn -[lb_now].
  rewrite Hit, Hlb, Hmax, Hone. by repeat split.
Qed.

Lemma single_iteration_budget_returns_start_witness :
  exists r, variational (H := Ref.kernels) (fit [[3]] 0 1 [[1]] [[-1.5]] (Some [[1]])
                           false false false true false 2 1) = Ok (Some r) /\
    r_converged r = false /\ r_lbound r = [-3.5] /\ r_beta r = [[-1.5]].
Proof.
  edestruct (single_iteration_budget_returns_start (H := Ref.kernels)
               (fit [[3]] 0 1 [[1]] [[-1.5]] (Some [[1]]) false false false true false 2 1))
    as (r & Hr & Hc & Hl & _ & Hb & _); [vm_compute; reflexivity | reflexivity |].
  exists r. split; [exact Hr |]. split; [exact Hc |]. split; [| exact Hb].
  rewrite Hl. vm_compute. reflexivity.
Defined.

(** X12.  A run with all four blocks frozen converges in its first outer
    iteration when the tolerance is positive and the budget allows one
    iteration: the blocks are returned as they started, the trace holds
    the initial bound twice, and [converged = True].  The hyperparameter
    step, due every fifth iteration, has not run. *)
Theorem frozen_fit_converges_at_once `{Extern} (inp : inputs) (c : consts)
    (s : vstate) (a b : fmat) :
  initialize inp = Ok (c, s, a, b) ->
  fixalpha inp = true -> fixbeta inp = true ->
  fixpostmean inp = true -> fixpostcov inp = true ->
  (2 <= max_iterations inp)%nat -> (0 <? tol c) = true ->
  exists r, variational inp = Ok (Some r) /\
    r_converged r = true /\ r_lbound r = [lb_now c s; lb_now c s] /\
    r_alpha r = a /\ r_beta r = b /\
    r_post_mean r = match m0 inp with None => prior_mean inp | Some m => m end /\
    r_post_cov r = prior_cov (prior s) /\
    r_stdout r = if verbose c then [EvPrint "Iteration"] else [].
Proof.
  intros Hi Hfa Hfb Hfm Hfc Hmax Htol.
  destruct (initialize_start inp c s a b Hi)
    as (Hargs & _ & _ & _ & _ & Hb & Ha & Hm & Hv & _ & _ & _ & _ & _ & _ & Hlb).
  destruct (initialize_spec inp c s a b Hi) as (Hmi & Hlen & Hit & Hcv & Hout & _).
  assert (Hblocks : block_updates c s = Ok s).
  { unfold block_updates, guarded_phases, postcov_phase, hyper_phase.
    rewrite Hargs, Hfa, Hfb, Hfm, Hfc. rewrite !bind_ok, Hit.
    by rewrite andb_false_r. }
  assert (Hchange : change_of c s = Ok 0).
  { unfold change_of. by rewrite Hargs, Hfa, Hfb, Hfm, Hfc. }
  unfold variational, variational_fuel. rewrite Hi.
  destruct (max_iterations inp) as [| [| k]] eqn:Ek; try lia.
  cbn [while_loop]. rewrite Hcv, Hit, Hmi.
  change (negb false && (1 <? S (S k))%nat) with true. cbn iota.
  unfold outer_iteration. rewrite Hblocks, bind_ok.
  unfold close_iteration.
  change (change_of c (upd_lbound (fun lb => setv lb (it s) (lb_now c s)) s))
    with (change_of c s).
  rewrite Hchange, bind_ok, Htol. rewrite bind_ok.
  destruct k as [| k]; cbn [while_loop];
    destruct (verbose c); cbn -[lb_now];
    (eexists; split; [reflexivity |]); cbn -[lb_now];
    rewrite Hit, Hlb, Hmi, Hout; by repeat split.
Qed.

Lemma frozen_fit_converges_at_once_witness :
  exists r, variational (H := Ref.kernels) (fit [[3]] 0 1 [[1]] [[-1.5]] (Some [[1]])
                           true true true true true 2 4) = Ok (Some r) /\
    r_converged r = true /\ r_lbound r = [-3.5; -3.5].
Proof.
  edestruct (frozen_fit_converges_at_once (H := Ref.kernels)
               (fit [[3]] 0 1 [[1]] [[-1.5]] (Some [[1]]) true true true true true 2 4))
    as (r & Hr & Hc & Hl & _);
    [vm_compute; reflexivity | reflexivity | reflexivity | reflexivity | reflexivity
    | vm_compute; lia | reflexivity |].
  exists r. split; [exact Hr |]. split; [exact Hc |].
  rewrite Hl. vm_compute. reflexivity.
Defined.

(** * The control dictionary *)

(** X9.  [variational] reads the four keys of [control] in a fixed order before
    anything else, so a dictionary that lacks one of them makes the call
    raise [KeyError] for the first missing key, whatever the arrays are;
    that includes ['fixed-point iteration'], whose value is never used. *)
Theorem missing_control_key_raises_KeyError `{Extern} (inp : inputs) :
  (control inp !! "max iteration" = None ->
   variational inp = Raise (KeyError "max iteration")) /\
  (is_Some (control inp !! "max iteration") ->
   control inp !! "fixed-point iteration" = None ->
   variational inp = Raise (KeyError "fixed-point iteration")) /\
  (is_Some (control inp !! "max iteration") ->
   is_Some (control inp !! "fixed-point iteration") ->
   control inp !! "tol" = None ->
   variational inp = Raise (KeyError "tol")) /\
  (is_Some (control inp !! "max iteration") ->
   is_Some (control inp !! "fixed-point iteration") ->
   is_Some (control inp !! "tol") ->
   control inp !! "verbose" = None ->
   variational inp = Raise (KeyError "verbose")).
Proof.
  unfold variational, variational_fuel, initialize, getitem.
  repeat split.
  - by intros ->.
  - by intros [mi ->] ->.
  - by intros [mi ->] [fp ->] ->.
  - by intros [mi ->] [fp ->] [tl ->] ->.
Qed.

Lemma missing_control_key_raises_KeyError_witness :
  variational (H := Ref.kernels)
    {| spike := [[1; 2]]; spike_dtype := Float64; p := 0; prior_mean := [[0]];
       prior_var := [1]; prior_w := [1];
       a0 := None; b0 := None; m0 := None;
       fixalpha := false; fixbeta := false; fixpostmean := false; fixpostcov := false;
       normofalpha := 1; intercept := true; hyper := false; inchol_tol := 0x1p-20;
       control := <["max iteration" := PyInt 20]> (<["tol" := PyFloat 0x1p-10]> ∅) |}
  = Raise (KeyError "fixed-point iteration").
Proof.
  apply (missing_control_key_raises_KeyError (H := Ref.kernels)).
  - by eexists.
  - reflexivity.
Defined.

(** X10.  An iteration budget that is not positive never yields a result: once
    the priors and the initial values are built, [np.full(maxiter, NINF)]
    raises [ValueError] for a negative budget, and for a budget of zero the
    assignment [lbound[0] = ...] raises [IndexError]. *)
Theorem nonpositive_budget_raises `{Extern} (inp : inputs) (z : Z) :
  control inp !! "max iteration" = Some (PyInt z) -> (z <= 0)%Z ->
  (exists ex, variational inp = Raise ex) /\
  (forall fp tl vb pri a b,
     control inp !! "fixed-point iteration" = Some fp ->
     control inp !! "tol" = Some tl -> control inp !! "verbose" = Some vb ->
     mapM (init_prior inp (length (spike inp))) (range (ncols (prior_mean inp))) = Ok pri ->
     a0 inp = Some a -> b0 inp = Some b ->
     variational inp = Raise (if (z <? 0)%Z then ValueError else IndexError)).
Proof.
  intros Hmi Hz.
  assert (Hprecise : forall fp tl vb pri a b,
     control inp !! "fixed-point iteration" = Some fp ->
     control inp !! "tol" = Some tl -> control inp !! "verbose" = Some vb ->
     mapM (init_prior inp (length (spike inp))) (range (ncols (prior_mean inp))) = Ok pri ->
     a0 inp = Some a -> b0 inp = Some b ->
     variational inp = Raise (if (z <? 0)%Z then ValueError else IndexError)).
  { intros fp tl vb pri a b Hfp Htl Hvb Hpri Ha Hb.
    unfold variational, variational_fuel, initialize, getitem.
    rewrite Hmi, Hfp, Htl, Hvb. rewrite !bind_ok, Hpri, bind_ok, Ha, Hb. rewrite !bind_ok.
    cbn [as_int int_of]. rewrite bind_ok.
    destruct (z <? 0)%Z eqn:Eneg; [done |].
    apply Z.ltb_ge in Eneg. assert (z = 0%Z) as -> by lia. done. }
  split; [| exact Hprecise].
  unfold variational, variational_fuel, initialize, getitem. rewrite Hmi, bind_ok.
  destruct (control inp !! "fixed-point iteration") as [fp |]; [| by eexists].
  rewrite bind_ok.
  destruct (control inp !! "tol") as [tl |]; [| by eexists]. rewrite bind_ok.
  destruct (control inp !! "verbose") as [vb |]; [| by eexists]. rewrite bind_ok.
  destruct (mapM _ _) as [pri |]; [| by eexists]. rewrite bind_ok.
  destruct (match a0 inp with Some _ => _ | None => _ end) as [a0' |]; [| by eexists].
  rewrite bind_ok.
  destruct (match b0 inp with Some _ => _ | None => _ end) as [b0' |]; [| by eexists].
  rewrite bind_ok. cbn [as_int int_of]. rewrite bind_ok.
  destruct (z <? 0)%Z eqn:Eneg; [by eexists |].
  apply Z.ltb_ge in Eneg. assert (z = 0%Z) as -> by lia. by eexists.
Qed.

Lemma nonpositive_budget_raises_witness :
  variational (H := Ref.kernels)
    (fit [[3]] 0 1 [[1]] [[-1.5]] (Some [[1]]) false false false true false 2 0)
  = Raise IndexError /\
  variational (H := Ref.kernels)
    (fit [[3]] 0 1 [[1]] [[-1.5]] (Some [[1]]) false false false true false 2 (-3))
  = Raise ValueError.
Proof.
  split.
  - destruct (nonpositive_budget_raises (H := Ref.kernels)
      (fit [[3]] 0 1 [[1]] [[-1.5]] (Some [[1]]) false false false true false 2 0) 0
      eq_refl ltac:(lia)) as (_ & Hp).
    eapply Hp; reflexivity.
  - destruct (nonpositive_budget_raises (H := Ref.kernels)
      (fit [[3]] 0 1 [[1]] [[-1.5]] (Some [[1]]) false false false true false 2 (-3)) (-3)
      eq_refl ltac:(lia)) as (_ & Hp).
    eapply Hp; reflexivity.
Defined.

(** * The first entry of the trace *)

(** X15.  The trace that [variational] returns is never empty, and its first
    entry is the lower bound of the initial state: no iteration overwrites
    [lbound[0]]. *)
Theorem returned_trace_starts_with_initial_bound `{Extern} (inp : inputs) (c : consts)
    (s : vstate) (a b : fmat) (r : output) :
  initialize inp = Ok (c, s, a, b) -> variational inp = Ok (Some r) ->
  r_lbound r !! 0%nat = Some (lb_now c s).
Proof.
  intros Hi Hrun.
  destruct (variational_returns inp c s a b r Hi Hrun) as (s' & Hloop & ->).
  destruct (initialize_start inp c s a b Hi)
    as (_ & _ & _ & _ & _ & _ & _ & _ & _ & _ & _ & _ & _ & _ & _ & Hlb).
  destruct (initialize_spec inp c s a b Hi) as (_ & Hlen & Hit & _ & _ & Hmax).
  set (Q := fun t : vstate =>
    (1 <= it t)%nat /\ length (lbound t) = maxiter c /\
    lbound t !! 0%nat = Some (lb_now c s)).
  assert (HQ : Q s').
  { apply (while_loop_invariant c Q) with (fuel := max_iterations inp) (s := s);
      try exact Hloop; unfold Q.
    - intros _ n t fl t' _ HQt Hblock.
      destruct (beta_block_frame c n t fl t' Hblock) as (Ei & El & _). by rewrite Ei, El.
    - intros _ n t fl t' _ HQt Hblock.
      destruct (alpha_block_frame c n t fl t' Hblock) as (Ei & El & _). by rewrite Ei, El.
    - intros _ n t fl t' _ HQt Hblock.
      destruct (mean_block_frame c n t fl t' Hblock) as (Ei & El & _). by rewrite Ei, El.
    - intros _ n t fl t' _ HQt Hblock.
      destruct (postcov_block_frame c n t fl t' Hblock) as (Ei & El & _). by rewrite Ei, El.
    - intros _ n t fl t' _ HQt Hblock.
      destruct (hyper_block_frame c n t fl t' Hblock) as (Ei & El & _). by rewrite Ei, El.
    - intros _ t pc pinv HQt. exact HQt.
    - intros t t' (H1 & H2 & H3) Hlt Hclose.
      destruct (close_iteration_spec c t t' Hclose) as (_ & _ & Ei & El & _).
      rewrite Ei, El. unfold setv. rewrite length_insert.
      repeat split; try done; [lia |].
      rewrite list_lookup_insert_ne by lia. exact H3.
    - repeat split; try done; [lia |].
      rewrite Hlb. unfold setv. apply list_lookup_insert_eq.
      rewrite length_replicate. lia. }
  destruct HQ as (H1 & H2 & H3). cbn. rewrite lookup_take_lt by lia. exact H3.
Qed.

Lemma returned_trace_starts_with_initial_bound_witness :
  exists r, variational (H := Ref.kernels) fit_loading = Ok (Some r) /\
    r_lbound r !! 0%nat = Some (-2).
Proof.
  eexists. split; [vm_compute; reflexivity |].
  erewrite (returned_trace_starts_with_initial_bound (H := Ref.kernels) fit_loading);
    [| vm_compute; reflexivity | vm_compute; reflexivity].
  vm_compute. reflexivity.
Defined.

(** * What the loop does not read *)

Section SameFit.
Context `{Extern}.

Ltac same_fit_cases c1 c2 Hsame :=
  destruct c1 as [[] ? ? ? ? ? ? ?], c2 as [[] ? ? ? ? ? ? ?];
  unfold same_fit in Hsame; cbn in Hsame;
  destruct Hsame as (? & ? & ? & ? & ? & ? & ? & ? & ? & ? & ? & ? & ? & ? & ?); subst.

Lemma guarded_phases_ext (c1 c2 : consts) (s : vstate) :
  same_fit c1 c2 -> guarded_phases c1 s = guarded_phases c2 s.
Proof. intros Hsame. by same_fit_cases c1 c2 Hsame. Qed.

Lemma postcov_phase_ext (c1 c2 : consts) (s : vstate) :
  same_fit c1 c2 -> postcov_phase c1 s = postcov_phase c2 s.
Proof. intros Hsame. by same_fit_cases c1 c2 Hsame. Qed.

Lemma close_iteration_ext (c1 c2 : consts) (s : vstate) :
  same_fit c1 c2 -> close_iteration c1 s = close_iteration c2 s.
Proof. intros Hsame. by same_fit_cases c1 c2 Hsame. Qed.

Lemma hyper_block_ext (c1 c2 : consts) (l : nat) (s : vstate) :
  same_fit c1 c2 -> hyper_block c1 l s = hyper_block c2 l s.
Proof. intros Hsame. by same_fit_cases c1 c2 Hsame. Qed.

Lemma hyper_phase_ext (c1 c2 : consts) (s : vstate) :
  same_fit c1 c2 ->
  hyper (args c1) = hyper (args c2) \/ (it s mod 5 =? 0)%nat = false ->
  hyper_phase c1 s = hyper_phase c2 s.
Proof.
  intros Hsame [Hh | Hit]; unfold hyper_phase.
  - rewrite Hh. destruct (hyper (args c2) && _); [| done].
    pose proof Hsame as (_ & _ & _ & _ & _ & _ & _ & _ & _ & _ & _ & _ & _ & -> & _).
    generalize (upd_saved (set_last_prior (prior_cov (prior s)) (prior_inv (prior s))) s).
    induction (range (dim_L c2)) as [| l ls IH]; intros t; [done |].
    cbn. rewrite (hyper_block_ext c1 c2 l t) by done.
    by destruct (hyper_block c2 l t) as [[[] t'] | ex].
  - by rewrite Hit, !andb_false_r.
Qed.

Lemma outer_iteration_ext (c1 c2 : consts) (s : vstate) :
  same_fit c1 c2 ->
  hyper (args c1) = hyper (args c2) \/ (it s mod 5 =? 0)%nat = false ->
  outer_iteration c1 s = outer_iteration c2 s.
Proof.
  intros Hsame Hh. unfold outer_iteration, block_updates.
  rewrite (guarded_phases_ext c1 c2 s Hsame).
  destruct (guarded_phases c2 s) as [s1 | ex] eqn:E1; [| done]. rewrite !bind_ok.
  rewrite (postcov_phase_ext c1 c2 s1 Hsame).
  destruct (postcov_phase c2 s1) as [s2 | ex] eqn:E2; [| done]. rewrite !bind_ok.
  pose proof (guarded_phases_frame c2 s s1 E1) as (Hi1 & _).
  pose proof (postcov_phase_frame c2 s1 s2 E2) as (Hi2 & _).
  rewrite (hyper_phase_ext c1 c2 s2 Hsame) by (rewrite Hi2, Hi1; exact Hh).
  destruct (hyper_phase c2 s2) as [s3 | ex]; [| done]. rewrite !bind_ok.
  by apply close_iteration_ext.
Qed.

(** Runs under constants that agree, the [hyper] switch apart, go through
    the same states as long as the hyperparameter step is not due. *)
Lemma while_loop_ext (c1 c2 : consts) (fuel : nat) : forall s,
  same_fit c1 c2 ->
  hyper (args c1) = hyper (args c2) \/ (1 <= it s /\ maxiter c2 <= 5) ->
  while_loop c1 fuel s = while_loop c2 fuel s.
Proof.
  induction fuel as [| fuel IH]; intros s Hsame Hh; cbn [while_loop];
    pose proof Hsame as (_ & _ & _ & _ & _ & _ & _ & _ & Hmax & _); rewrite Hmax; [done |].
  destruct (negb (converged s) && (it s <? maxiter c2)%nat) eqn:Ec; [| done].
  apply andb_true_iff in Ec as [_ Hlt]. apply Nat.ltb_lt in Hlt.
  rewrite (outer_iteration_ext c1 c2 s Hsame).
  - destruct (outer_iteration c2 s) as [s1 | ex] eqn:E1; [| done]. rewrite !bind_ok.
    destruct (outer_iteration_spec c2 s s1 E1) as (Hi & _).
    apply IH; [done |]. destruct Hh as [Hh | [H1 H5]]; [by left | right; lia].
  - destruct Hh as [Hh | [H1 H5]]; [by left | right].
    apply Nat.eqb_neq. intros Hmod.
    assert (it s < 5) by lia.
    rewrite Nat.mod_small in Hmod by lia. lia.
Qed.
End SameFit.

Section Unread.
Context `{Extern}.

(** Two calls that differ in [hyper] and in [control], the entries that
    are read apart, start the loop in the same state, or fail alike. *)
Lemma initialize_ext (inp inp' : inputs) :
  spike inp = spike inp' -> spike_dtype inp = spike_dtype inp' -> p inp = p inp' ->
  prior_mean inp = prior_mean inp' ->
  prior_var inp = prior_var inp' -> prior_w inp = prior_w inp' ->
  a0 inp = a0 inp' -> b0 inp = b0 inp' -> m0 inp = m0 inp' ->
  fixalpha inp = fixalpha inp' -> fixbeta inp = fixbeta inp' ->
  fixpostmean inp = fixpostmean inp' -> fixpostcov inp = fixpostcov inp' ->
  normofalpha inp = normofalpha inp' -> intercept inp = intercept inp' ->
  inchol_tol inp = inchol_tol inp' ->
  control inp !! "max iteration" = control inp' !! "max iteration" ->
  is_Some (control inp !! "fixed-point iteration") ->
  is_Some (control inp' !! "fixed-point iteration") ->
  control inp !! "tol" = control inp' !! "tol" ->
  control inp !! "verbose" = control inp' !! "verbose" ->
  match initialize inp, initialize inp' with
  | Ok (c, s, a, b), Ok (c', s', a', b') =>
      same_fit c c' /\ s = s' /\ a = a' /\ b = b' /\
      hyper (args c) = hyper inp /\ hyper (args c') = hyper inp'
  | Raise ex, Raise ex' => ex = ex'
  | _, _ => False
  end.
Proof.
  destruct inp as [y1 dt1 p1 pm1 pv1 pw1 a1 b1 m1 fa1 fb1 fm1 fc1 na1 ic1 hy1 tl1 ct1],
    inp' as [y2 dt2 p2 pm2 pv2 pw2 a2 b2 m2 fa2 fb2 fm2 fc2 na2 ic2 hy2 tl2 ct2].
  cbn [spike spike_dtype p prior_mean prior_var prior_w a0 b0 m0 fixalpha fixbeta
       fixpostmean fixpostcov normofalpha intercept inchol_tol control].
  intros -> -> -> -> -> -> -> -> -> -> -> -> -> -> -> -> Hmi [fp Hfp] [fp' Hfp'] Htl Hvb.
  unfold initialize, getitem.
  cbn [spike spike_dtype p prior_mean prior_var prior_w a0 b0 m0 fixalpha fixbeta
       fixpostmean fixpostcov normofalpha intercept inchol_tol control].
  rewrite Hmi, Hfp, Hfp', Htl, Hvb.
  destruct (ct2 !! "max iteration") as [mi |]; [| by cbv beta iota delta [mbind res_bind]]. rewrite !bind_ok.
  destruct (ct2 !! "tol") as [tl |]; [| by cbv beta iota delta [mbind res_bind]]. rewrite !bind_ok.
  destruct (ct2 !! "verbose") as [vb |]; [| by cbv beta iota delta [mbind res_bind]]. rewrite !bind_ok.
  match goal with |- context [mapM ?f ?l] =>
    change (mapM f l) with
      (mapM (init_prior {| spike := y2; spike_dtype := dt2; p := p2; prior_mean := pm2;
                           prior_var := pv2; prior_w := pw2;
                           a0 := a2; b0 := b2; m0 := m2; fixalpha := fa2;
                           fixbeta := fb2; fixpostmean := fm2;
                           fixpostcov := fc2; normofalpha := na2;
                           intercept := ic2; hyper := hy2;
                           inchol_tol := tl2; control := ct2 |}
               (length y2)) l)
  end.
  destruct (mapM _ _) as [pri |]; [| by cbv beta iota delta [mbind res_bind]]. rewrite !bind_ok.
  destruct a2 as [a |].
  - rewrite !bind_ok. destruct b2 as [b |].
    + rewrite !bind_ok. destruct (as_int mi) as [mz |]; [| by cbv beta iota delta [mbind res_bind]]. rewrite !bind_ok.
      destruct (mz <? 0)%Z; [done |]. destruct (mz =? 0)%Z; [done |]. cbv beta iota.
      by repeat split.
    + destruct (linalg_lstsq _ _) as [b |]; [| by cbv beta iota delta [mbind res_bind]]. rewrite !bind_ok.
      destruct (as_int mi) as [mz |]; [| by cbv beta iota delta [mbind res_bind]]. rewrite !bind_ok.
      destruct (mz <? 0)%Z; [done |]. destruct (mz =? 0)%Z; [done |]. cbv beta iota.
      by repeat split.
  - destruct (linalg_norm _) as [nrm |]; [| by cbv beta iota delta [mbind res_bind]]. rewrite !bind_ok.
    destruct b2 as [b |].
    + rewrite !bind_ok. destruct (as_int mi) as [mz |]; [| by cbv beta iota delta [mbind res_bind]]. rewrite !bind_ok.
      destruct (mz <? 0)%Z; [done |]. destruct (mz =? 0)%Z; [done |]. cbv beta iota.
      by repeat split.
    + destruct (linalg_lstsq _ _) as [b |]; [| by cbv beta iota delta [mbind res_bind]]. rewrite !bind_ok.
      destruct (as_int mi) as [mz |]; [| by cbv beta iota delta [mbind res_bind]]. rewrite !bind_ok.
      destruct (mz <? 0)%Z; [done |]. destruct (mz =? 0)%Z; [done |]. cbv beta iota.
      by repeat split.
Qed.
End Unread.

Lemma bind_raise {A B : Type} (ex : pyexn) (f : A -> res B) : (Raise ex ≫= f) = Raise ex.
Proof. reflexivity. Qed.

(** X13.  The hyperparameter step runs when [it % 5 == 0], and [it] stays below
    the budget: with [control['max iteration'] <= 5] the switch [hyper]
    changes nothing, return value and printed lines included. *)
Theorem hyper_step_needs_six_iterations `{Extern} (inp : inputs) (h : bool) :
  max_iterations inp <= 5 -> variational (with_hyper h inp) = variational inp.
Proof.
  intros Hmax. unfold variational, variational_fuel.
  change (max_iterations (with_hyper h inp)) with (max_iterations inp).
  destruct (decide (is_Some (control inp !! "fixed-point iteration"))) as [Hfp | Hfp].
  - pose proof (initialize_ext (with_hyper h inp) inp eq_refl eq_refl eq_refl eq_refl
      eq_refl eq_refl eq_refl eq_refl eq_refl eq_refl eq_refl eq_refl eq_refl eq_refl
      eq_refl eq_refl eq_refl Hfp Hfp eq_refl eq_refl) as Hext.
    destruct (initialize (with_hyper h inp)) as [[[[c s] a] b] | ex] eqn:E1,
             (initialize inp) as [[[[c' s'] a'] b'] | ex'] eqn:E2; try done; [| by subst].
    destruct Hext as (Hsame & -> & -> & -> & _).
    destruct (initialize_spec inp c' s' a' b' E2) as (Hm & _ & Hit & _).
    rewrite (while_loop_ext c c' (max_iterations inp) s' Hsame); [done |].
    right. lia.
  - apply eq_None_not_Some in Hfp.
    unfold initialize, getitem. cbn [control with_hyper]. rewrite Hfp.
    destruct (control inp !! "max iteration"); [| by rewrite !bind_raise].
    by rewrite !bind_ok, !bind_raise.
Qed.

Lemma hyper_step_needs_six_iterations_witness :
  variational (H := Ref.kernels) (with_hyper true fit_loading)
  = variational (H := Ref.kernels) fit_loading.
Proof.
  apply (hyper_step_needs_six_iterations (H := Ref.kernels) fit_loading true).
  vm_compute. lia.
Defined.

(** X14.  Of [control], [variational] uses the values under ['max iteration'],
    ['tol'] and ['verbose'] and nothing else: any other dictionary with the
    same three values gives the same result, as long as both have some
    entry under ['fixed-point iteration'], whose value is not used. *)
Theorem unread_control_entries `{Extern} (inp : inputs) (ctl : gmap string pyval) :
  ctl !! "max iteration" = control inp !! "max iteration" ->
  ctl !! "tol" = control inp !! "tol" ->
  ctl !! "verbose" = control inp !! "verbose" ->
  is_Some (ctl !! "fixed-point iteration") ->
  is_Some (control inp !! "fixed-point iteration") ->
  variational (with_control ctl inp) = variational inp.
Proof.
  intros Hmi Htl Hvb Hfp Hfp'. unfold variational, variational_fuel.
  assert (Hmax : max_iterations (with_control ctl inp) = max_iterations inp).
  { unfold max_iterations. cbn [control with_control]. by rewrite Hmi. }
  rewrite Hmax.
  pose proof (initialize_ext (with_control ctl inp) inp eq_refl eq_refl eq_refl eq_refl
    eq_refl eq_refl eq_refl eq_refl eq_refl eq_refl eq_refl eq_refl eq_refl eq_refl eq_refl
    eq_refl Hmi Hfp Hfp' Htl Hvb) as Hext.
  destruct (initialize (with_control ctl inp)) as [[[[c s] a] b] | ex] eqn:E1,
           (initialize inp) as [[[[c' s'] a'] b'] | ex'] eqn:E2; try done; [| by subst].
  destruct Hext as (Hsame & -> & -> & -> & Hh1 & Hh2).
  rewrite (while_loop_ext c c' (max_iterations inp) s' Hsame); [done |].
  left. by rewrite Hh1, Hh2.
Qed.

Lemma unread_control_entries_witness :
  variational (H := Ref.kernels)
    (with_control (<["fixed-point iteration" := PyInt 99]>
                     (<["seed" := PyInt 7]> (control_of 2))) fit_loading)
  = variational (H := Ref.kernels) fit_loading.
Proof.
  apply (unread_control_entries (H := Ref.kernels)); try reflexivity; by eexists.
Defined.

(** * The rate matrix *)

Lemma safe_of_exp_positive_finite (x : float) : positive_finite (safe_of_exp x) = true.
Proof.
  unfold positive_finite, safe_of_exp, nan_to_num.
  destruct (is_nan x) eqn:En.
  - change (0 <? 0) with false. by cbn iota.
  - destruct (is_infinity x) eqn:Ei.
    + by destruct (is_infinity_sign x Ei) as [-> | ->].
    + destruct (0 <? x) eqn:Ep; [| done].
      unfold is_finite. by rewrite En, Ei, Ep.
Qed.

Section SetElem.
Context (P : float -> Prop).

Lemma set_elem_Forall (M : fmat) (i j : nat) (x : float) :
  P x -> Forall (Forall P) M -> Forall (Forall P) (set_elem M i j x).
Proof.
  intros Hx HM. unfold set_elem. apply Forall_alter; [done |].
  intros r _ Hr. by apply Forall_insert.
Qed.

Lemma fold_set_elem_Forall (f : nat * nat -> float) (ps : list (nat * nat)) (M : fmat) :
  (forall rc, P (f rc)) -> Forall (Forall P) M ->
  Forall (Forall P) (fold_left (fun r (rc : nat * nat) => set_elem r rc.1 rc.2 (f rc)) ps M).
Proof.
  intros Hf. revert M. induction ps as [| rc ps IH]; intros M HM; cbn; [done |].
  apply IH. by apply set_elem_Forall.
Qed.

(** An entry of a matrix after a series of element assignments is the
    value assigned, if its position was assigned at all. *)
Lemma fold_set_elem_lookup (f : nat * nat -> float) (ps : list (nat * nat)) :
  forall (M : fmat) (t n : nat) (r : fvec) (x : float),
  fold_left (fun r (rc : nat * nat) => set_elem r rc.1 rc.2 (f rc)) ps M !! t = Some r ->
  r !! n = Some x -> (t, n) ∈ ps -> x = f (t, n).
Proof.
  induction ps as [| rc ps IH] using rev_ind; intros M t n r x Hr Hx Hin.
  - by apply elem_of_nil in Hin.
  - rewrite fold_left_app in Hr. cbn in Hr. unfold set_elem in Hr.
    set (M' := fold_left _ ps M) in Hr.
    destruct (decide (t = rc.1)) as [Ht | Ht].
    + subst t. rewrite list_lookup_alter_eq in Hr.
      destruct (M' !! rc.1) as [r' |] eqn:Er'; [| discriminate].
      cbn in Hr. inversion Hr; subst r. clear Hr.
      destruct (decide (n = rc.2)) as [Hn | Hn].
      * subst n. apply lookup_lt_Some in Hx as Hlt. rewrite length_insert in Hlt.
        rewrite list_lookup_insert_eq in Hx by done. inversion Hx. by destruct rc.
      * rewrite list_lookup_insert_ne in Hx by done.
        apply (IH M rc.1 n r' x Er' Hx).
        apply elem_of_app in Hin as [Hin | Hin]; [done |].
        apply list_elem_of_singleton in Hin. destruct rc. cbn in *. congruence.
    + rewrite list_lookup_alter_ne in Hr by done.
      apply (IH M t n r x Hr Hx).
      apply elem_of_app in Hin as [Hin | Hin]; [done |].
      apply list_elem_of_singleton in Hin. destruct rc. cbn in *. congruence.
Qed.

Lemma fold_set_elem_all (f : nat * nat -> float) (T N : nat) (M : fmat) :
  (forall rc, P (f rc)) -> length M = T -> rectangular N M ->
  Forall (Forall P)
    (fold_left (fun r (rc : nat * nat) => set_elem r rc.1 rc.2 (f rc))
       (list_prod (range T) (range N)) M).
Proof.
  intros Hf HT HN.
  pose proof (fold_set_elem_length f (list_prod (range T) (range N)) M) as Hlen.
  pose proof (fold_set_elem_rows N f (list_prod (range T) (range N)) M HN) as Hrows.
  apply Forall_lookup. intros t r Hr. apply Forall_lookup. intros n x Hx.
  rewrite (fold_set_elem_lookup f _ M t n r x Hr Hx); [done |].
  apply list_elem_of_In, in_prod.
  - apply list_elem_of_In, elem_of_range. apply lookup_lt_Some in Hr. lia.
  - apply list_elem_of_In, elem_of_range.
    rewrite Forall_lookup in Hrows. rewrite <- (Hrows t r Hr). by apply lookup_lt_Some in Hx.
Qed.
End SetElem.

Section Rates.
Context `{Extern}.
Variable e : consts.
Hypothesis float_counts : spike_dtype (args e) = Float64.

Ltac settle_cases :=
  repeat match goal with |- context [if ?b then _ else _] => destruct b end.

Lemma updaterate_positive (rows cols : list nat) (s : vstate) :
  rates_positive s -> rates_positive (updaterate e rows cols s).
Proof.
  unfold rates_positive, updaterate. rewrite float_counts. cbn -[list_prod]. intros Hs.
  apply (fold_set_elem_Forall (fun x => positive_finite x = true)
           (fun rc => saferate rc.1 rc.2 (regressor e) (post_mean (cur s))
                        (post_cov (cur s)) (beta (cur s)) (alpha (cur s)))); [| done].
  intros rc. apply safe_of_exp_positive_finite.
Qed.

Lemma beta_block_rates (n : nat) (s : vstate) (fl : flow) (s' : vstate) :
  well_formed e s -> n < dim_N e -> rates_positive s ->
  beta_block e n s = Ok (fl, s') -> rates_positive s'.
Proof.
  intros Hwf Hn HR. unfold beta_block. intros Hrun. res_cases Hrun; try done.
  match goal with |- rates_positive (beta_settle e n ?pr (beta_trial e n ?d s)) =>
    set (predict := pr); set (delta := d) end.
  destruct (rejected (lb_now e (beta_trial e n delta s)) (prev_bound s)) eqn:Hrej.
  - destruct (beta_reject e n delta predict s Hwf Hn Hrej) as (_ & Hr & _).
    unfold rates_positive. by rewrite Hr.
  - unfold beta_settle.
    change (prev_bound (beta_trial e n delta s)) with (prev_bound s). rewrite Hrej.
    assert (Ht : rates_positive (beta_trial e n delta s)).
    { unfold beta_trial. by apply updaterate_positive. }
    by settle_cases.
Qed.

Lemma alpha_block_rates (l : nat) (s : vstate) (fl : flow) (s' : vstate) :
  well_formed e s -> rates_positive s ->
  alpha_block e l s = Ok (fl, s') -> rates_positive s'.
Proof.
  intros Hwf HR. unfold alpha_block. intros Hrun. res_cases Hrun; try done.
  match goal with Ht : alpha_trial e l ?d s = Ok ?t |- rates_positive (alpha_settle e l ?pr ?t) =>
    set (predict := pr); pose proof Ht as Htrial;
    unfold alpha_trial in Ht; res_cases Ht end.
  match type of Htrial with _ = Ok ?t => set (s5 := t) in * end.
  assert (Hprev : prev_bound s5 = prev_bound s) by reflexivity.
  destruct (rejected_alpha (lb_now e s5) (prev_bound s)) eqn:Hrej.
  - destruct (alpha_reject e l _ predict s s5 Hwf Htrial Hrej) as (_ & Hr & _).
    unfold rates_positive. by rewrite Hr.
  - unfold alpha_settle. rewrite Hprev, Hrej.
    assert (Ht : rates_positive s5) by (by apply updaterate_positive).
    by settle_cases.
Qed.

Lemma mean_block_rates (l : nat) (s : vstate) (fl : flow) (s' : vstate) :
  well_formed e s -> l < dim_L e -> rates_positive s ->
  mean_block e l s = Ok (fl, s') -> rates_positive s'.
Proof.
  intros Hwf Hl HR. unfold mean_block. intros Hrun.
  destruct (woodbury e l s) as [[s0 hinv] | ex] eqn:Hw; [| discriminate].
  rewrite bind_ok in Hrun.
  pose proof (woodbury_well_formed e l s s0 hinv Hwf Hw) as Hwf0.
  destruct (well_formed_woodbury e l s s0 hinv Hw) as (_ & Hr & _).
  assert (HR0 : rates_positive s0) by (unfold rates_positive; by rewrite Hr).
  res_cases Hrun; try done.
  match goal with |- rates_positive (mean_settle e l ?pr (mean_trial e l ?d s0)) =>
    set (predict := pr); set (delta := d) end.
  destruct (rejected (lb_now e (mean_trial e l delta s0)) (prev_bound s0)) eqn:Hrej.
  - destruct (mean_reject e l delta predict s0 Hwf0 Hl Hrej) as (_ & Hr' & _).
    unfold rates_positive. by rewrite Hr'.
  - unfold mean_settle.
    change (prev_bound (mean_trial e l delta s0)) with (prev_bound s0). rewrite Hrej.
    assert (Ht : rates_positive (mean_trial e l delta s0)).
    { unfold mean_trial. by apply updaterate_positive. }
    by settle_cases.
Qed.

Lemma postcov_block_rates (l : nat) (s : vstate) (fl : flow) (s' : vstate) :
  rates_positive s -> postcov_block e l s = Ok (fl, s') -> rates_positive s'.
Proof.
  intros HR. unfold postcov_block. intros Hrun.
  destruct (woodbury e l s) as [[s0 V] | ex] eqn:Hw; [| discriminate].
  rewrite bind_ok in Hrun.
  destruct (well_formed_woodbury e l s s0 V Hw) as (_ & Hr & _).
  assert (HR0 : rates_positive s0) by (unfold rates_positive; by rewrite Hr).
  res_cases Hrun. by apply updaterate_positive.
Qed.
End Rates.

(** X4.  When [spike] is an array of doubles, every entry of the rate matrix
    is finite and strictly positive when the loop starts, and every outer
    iteration keeps it so, whatever the kernels return and whichever steps
    are accepted or rolled back.  The arrays are assumed to have the shapes
    the docstring gives.  (With integer counts the rate matrix is an
    integer array, and a stored rate can be 0.) *)
Theorem rates_stay_positive_and_finite `{Extern} (inp : inputs) (c : consts) (s : vstate)
    (a b : fmat) :
  initialize inp = Ok (c, s, a, b) ->
  spike_dtype inp = Float64 ->
  rectangular (ncols (spike inp)) (spike inp) ->
  rectangular (ncols (spike inp)) b ->
  rectangular (ncols (prior_mean inp))
    (match m0 inp with None => prior_mean inp | Some m => m end) ->
  well_formed c s /\ rates_positive s /\
  (forall t t', well_formed c t -> rates_positive t -> outer_iteration c t = Ok t' ->
     well_formed c t' /\ rates_positive t') /\
  (forall fuel s', while_loop c fuel s = Ok (Some s') -> rates_positive s').
Proof.
  intros Hi Hdt Hy Hb Hm.
  destruct (initialize_start inp c s a b Hi)
    as (Hargs & HT & HN & _ & _ & _ & _ & Hpm & _ & _ & _ & _ & Hrate & _).
  rewrite <- Hargs in Hdt.
  assert (Hwf : well_formed c s).
  { apply (initialize_well_formed inp c s a b Hi); try done. by rewrite Hpm. }
  assert (Hpos : rates_positive s).
  { unfold rates_positive. rewrite Hrate. unfold updaterate. rewrite Hdt. cbn -[list_prod].
    apply (fold_set_elem_all (fun x => positive_finite x = true)
             (fun rc => saferate rc.1 rc.2 (regressor c) (post_mean (cur s))
                          (post_cov (cur s)) (beta (cur s)) (alpha (cur s)))).
    - intros rc. apply safe_of_exp_positive_finite.
    - by rewrite zeros_like_length, HT.
    - rewrite HN. by apply zeros_like_rectangular. }
  set (Q := fun t : vstate => well_formed c t /\ rates_positive t).
  assert (Hblocks : forall t t', Q t -> block_updates c t = Ok t' -> Q t').
  { apply (block_updates_invariant c Q); unfold Q.
    - intros _ n t fl t' Hn [H1 H2] Hblock. split.
      + by apply (beta_block_well_formed c n t fl).
      + by apply (beta_block_rates c Hdt n t fl).
    - intros _ n t fl t' Hn [H1 H2] Hblock. split.
      + by apply (alpha_block_well_formed c n t fl).
      + by apply (alpha_block_rates c Hdt n t fl).
    - intros _ n t fl t' Hn [H1 H2] Hblock. split.
      + by apply (mean_block_well_formed c n t fl).
      + by apply (mean_block_rates c Hdt n t fl).
    - intros _ n t fl t' Hn [H1 H2] Hblock. split.
      + by apply (postcov_block_well_formed c n t fl).
      + by apply (postcov_block_rates c Hdt n t fl).
    - intros _ n t fl t' Hn [H1 H2] Hblock. split.
      + by apply (hyper_block_well_formed c n t fl).
      + destruct (hyper_block_others c n t fl t' Hblock) as (_ & Hr & _).
        unfold rates_positive. by rewrite Hr.
    - intros _ t pc pinv HQt. exact HQt. }
  assert (Hclose : forall t t', Q t -> close_iteration c t = Ok t' -> Q t').
  { intros t t' [H1 H2] Hclose. split.
    - by apply (close_iteration_well_formed c t).
    - destruct (close_iteration_others c t t' Hclose) as (_ & Hr & _).
      unfold rates_positive. by rewrite Hr. }
  refine (conj Hwf (conj Hpos (conj _ _))).
  - intros t t' H1 H2. by apply (outer_iteration_keeps c Q Hblocks Hclose).
  - intros fuel s' Hrun. by apply (while_loop_keeps c Q Hblocks Hclose fuel s s').
Qed.

Lemma rates_stay_positive_and_finite_witness :
  rates_positive state_overshoot /\
  exists t', outer_iteration (H := Ref.kernels) consts_scalar state_overshoot = Ok t' /\
    rates_positive t'.
Proof.
  destruct (rates_stay_positive_and_finite (H := Ref.kernels) fit_overshoot
              consts_scalar state_overshoot [[1]] [[-1.5]])
    as (Hwf & Hpos & Hstep & _);
    [vm_compute; reflexivity | reflexivity | repeat constructor | repeat constructor
    | repeat constructor |].
  split; [exact Hpos |].
  destruct (outer_iteration (H := Ref.kernels) consts_scalar state_overshoot)
    as [t' | ex] eqn:Eo; [| vm_compute in Eo; discriminate Eo].
  exists t'. split; [reflexivity |].
  exact (proj2 (Hstep state_overshoot t' Hwf Hpos Eo)).
Defined.

(** * Step sizes *)

Section FloatGrow.
Local Open Scope Z_scope.

Lemma shr_fexp_pos_wide m ex l :
  0 < m -> 2 ^ (emin64 - ex) <= m ->
  0 < shr_m (fst (shr_fexp prec emax m ex l)) /\ emin64 <= snd (shr_fexp prec emax m ex l).
Proof.
  intros Hm He. unfold shr_fexp, shr, fexp, SpecFloat.emin, prec, emax, emin64 in *.
  destruct (Z.max (Zdigits2 m + ex - 53) (3 - 1024 - 53) - ex) as [| q | q] eqn:E; cbn [fst snd].
  - rewrite shr_record_of_loc_m. lia.
  - rewrite iter_shr_1_m by (rewrite shr_record_of_loc_m; lia).
    rewrite shr_record_of_loc_m. split; [| lia].
    destruct m as [| pm |]; try lia. cbn [Zdigits2] in E.
    pose proof (digits2_pos_lower pm) as Hd.
    apply Z.div_str_pos. split; [apply Z.pow_pos_nonneg; lia |].
    destruct (Z.max_spec (Z.pos (digits2_pos pm) + ex - 53) (3 - 1024 - 53)) as [[_ Hmax] | [_ Hmax]];
      rewrite Hmax in E.
    + replace (Z.pos q) with (-1074 - ex) by lia. exact He.
    + assert (Hq : Z.pos q <= Z.pos (digits2_pos pm) - 1) by lia.
      assert (2 ^ Z.pos q <= 2 ^ (Z.pos (digits2_pos pm) - 1)) by (apply Z.pow_le_mono_r; lia).
      lia.
  - rewrite shr_record_of_loc_m. lia.
Qed.

Lemma binary_round_aux_pos_wide m ex l :
  0 < m -> 2 ^ (emin64 - ex) <= m -> sf_pos (binary_round_aux prec emax false m ex l).
Proof.
  intros Hm He. unfold binary_round_aux.
  pose proof (shr_fexp_pos_wide m ex l Hm He) as [H1 H1'].
  destruct (shr_fexp prec emax m ex l) as [mrs' e'] eqn:E1. cbn [fst snd] in *.
  pose proof (round_nearest_even_ge (shr_m mrs') (loc_of_shr_record mrs')) as Hr.
  pose proof (shr_fexp_pos (round_nearest_even (shr_m mrs') (loc_of_shr_record mrs')) e' loc_Exact
                ltac:(lia) H1') as [H2 H3].
  destruct (shr_fexp prec emax _ e' loc_Exact) as [mrs'' e''] eqn:E2. cbn [fst snd] in *.
  destruct (shr_m mrs'') as [| q | q]; cbn; try lia.
  destruct (e'' <=? emax - prec); cbn; [exact H3 | exact I].
Qed.
End FloatGrow.

(** [x * 1.5], the grown step size, is positive when [x] is. *)
Lemma grow_positive (x : float) : (0 <? x) = true -> (0 <? x * inflation) = true.
Proof.
  rewrite !FloatAxioms.ltb_spec, FloatAxioms.mul_spec.
  change (Prim2SF 0) with (S754_zero false).
  change (Prim2SF inflation) with (S754_finite false 6755399441055744 (-52)).
  pose proof (Prim2SF_valid x) as Hv.
  intros Hx. apply sf_pos_ltb.
  destruct (Prim2SF x) as [[] | [] | | [] mx ex]; cbn in Hx; try discriminate.
  - exact I.
  - destruct (valid_finite _ _ _ Hv) as (Hex & _). unfold emin64 in Hex.
    cbn [SF64mul SFmul xorb]. apply binary_round_aux_pos_wide; [lia |].
    unfold emin64.
    assert ((2 ^ (-1074 - (ex + -52)) <= 2 ^ 52)%Z) by (apply Z.pow_le_mono_r; lia).
    lia.
Qed.

Lemma getv_positive (v : fvec) (i : nat) :
  Forall (fun x => (0 <? x) = true) v -> i < length v -> (0 <? getv v i) = true.
Proof.
  intros Hv Hi. destruct (lookup_lt_is_Some_2 v i Hi) as [x Hx].
  unfold getv. rewrite Hx. cbn. by apply (proj1 (Forall_lookup _ v) Hv i x).
Qed.

Lemma shrink_Forall_positive (v : fvec) (i : nat) :
  Forall (fun x => (0 <? x) = true) v -> Forall (fun x => (0 <? x) = true) (shrink v i).
Proof.
  intros Hv. unfold shrink. destruct (decide (i < length v)) as [Hi | Hi].
  - rewrite getv_setv by done. unfold setv. rewrite list_insert_insert_eq.
    apply Forall_insert; [done |]. apply shrink_positive. by apply getv_positive.
  - unfold setv. by rewrite !list_insert_ge by (rewrite ?list_insert_ge; lia).
Qed.

Lemma grow_Forall_positive (v : fvec) (i : nat) :
  Forall (fun x => (0 <? x) = true) v -> Forall (fun x => (0 <? x) = true) (grow v i).
Proof.
  intros Hv. unfold grow, setv. destruct (decide (i < length v)) as [Hi | Hi].
  - apply Forall_insert; [done |]. apply grow_positive. by apply getv_positive.
  - by rewrite list_insert_ge by lia.
Qed.

Section Steps.
Context `{Extern}.
Variable e : consts.

Ltac settle_cases :=
  repeat match goal with |- context [if ?b then _ else _] => destruct b end.

Lemma beta_block_steps (n : nat) (s : vstate) (fl : flow) (s' : vstate) :
  steps_positive s -> beta_block e n s = Ok (fl, s') -> steps_positive s'.
Proof.
  intros (Ha & Hb & Hm). unfold beta_block. intros Hrun. res_cases Hrun; try done.
  unfold beta_settle. settle_cases; unfold steps_positive; cbn;
    refine (conj Ha (conj _ Hm));
    first [done | by apply shrink_Forall_positive | by apply grow_Forall_positive].
Qed.

Lemma alpha_block_steps (l : nat) (s : vstate) (fl : flow) (s' : vstate) :
  steps_positive s -> alpha_block e l s = Ok (fl, s') -> steps_positive s'.
Proof.
  intros (Ha & Hb & Hm). unfold alpha_block. intros Hrun. res_cases Hrun; try done.
  match goal with Ht : alpha_trial _ _ _ _ = Ok _ |- _ =>
    unfold alpha_trial in Ht; res_cases Ht end.
  unfold alpha_settle. settle_cases; unfold steps_positive; cbn;
    refine (conj _ (conj Hb Hm));
    first [done | by apply shrink_Forall_positive | by apply grow_Forall_positive].
Qed.

Lemma mean_block_steps (l : nat) (s : vstate) (fl : flow) (s' : vstate) :
  steps_positive s -> mean_block e l s = Ok (fl, s') -> steps_positive s'.
Proof.
  intros HS. unfold mean_block. intros Hrun.
  destruct (woodbury e l s) as [[s0 hinv] | ex] eqn:Hw; [| discriminate].
  rewrite bind_ok in Hrun.
  destruct (well_formed_woodbury e l s s0 hinv Hw) as (_ & _ & Hst & _).
  assert (HS0 : steps_positive s0) by (unfold steps_positive; by rewrite Hst).
  destruct HS0 as (Ha & Hb & Hm).
  res_cases Hrun; try done.
  unfold mean_settle. settle_cases; unfold steps_positive; cbn;
    refine (conj Ha (conj Hb _));
    first [done | by apply shrink_Forall_positive | by apply grow_Forall_positive].
Qed.
End Steps.

(** X5.  The step sizes of the three guarded updaters start at 1 and stay
    strictly positive through every outer iteration: a rejected step
    leaves [old * 0.5 + eps], an accepted one [old] or [old * 1.5], and
    neither can round to zero. *)
Theorem step_sizes_stay_positive `{Extern} (inp : inputs) (c : consts) (s : vstate)
    (a b : fmat) :
  initialize inp = Ok (c, s, a, b) ->
  steps_positive s /\
  (forall t t', steps_positive t -> outer_iteration c t = Ok t' -> steps_positive t') /\
  (forall fuel s', while_loop c fuel s = Ok (Some s') -> steps_positive s').
Proof.
  intros Hi.
  destruct (initialize_start inp c s a b Hi)
    as (_ & _ & _ & _ & _ & _ & _ & _ & _ & _ & _ & _ & _ & _ & Hsteps & _).
  assert (Hpos : steps_positive s).
  { unfold steps_positive. rewrite Hsteps. cbn. repeat split; by apply Forall_replicate. }
  assert (Hblocks : forall t t', steps_positive t -> block_updates c t = Ok t' ->
                                 steps_positive t').
  { apply (block_updates_invariant c steps_positive).
    - intros _ n t fl t' _. apply beta_block_steps.
    - intros _ n t fl t' _. apply alpha_block_steps.
    - intros _ n t fl t' _. apply mean_block_steps.
    - intros _ n t fl t' _ HS Hblock.
      destruct (postcov_block_others c n t fl t' Hblock) as (_ & _ & _ & _ & _ & _ & Hst & _).
      unfold steps_positive. by rewrite Hst.
    - intros _ n t fl t' _ HS Hblock.
      destruct (hyper_block_others c n t fl t' Hblock) as (_ & _ & _ & Hb & Ha & Hm).
      unfold steps_positive. by rewrite Hb, Ha, Hm.
    - intros _ t pc pinv HS. exact HS. }
  assert (Hclose : forall t t', steps_positive t -> close_iteration c t = Ok t' ->
                                steps_positive t').
  { intros t t' HS Hclose.
    destruct (close_iteration_others c t t' Hclose) as (_ & _ & _ & _ & Hst).
    unfold steps_positive. by rewrite Hst. }
  refine (conj Hpos (conj _ _)).
  - intros t t'. by apply (outer_iteration_keeps c steps_positive Hblocks Hclose).
  - intros fuel s'. by apply (while_loop_keeps c steps_positive Hblocks Hclose fuel s s').
Qed.

Lemma step_sizes_stay_positive_witness :
  steps_positive state_overshoot /\
  exists t', outer_iteration (H := Ref.kernels) consts_scalar state_overshoot = Ok t' /\
    steps_positive t'.
Proof.
  destruct (step_sizes_stay_positive (H := Ref.kernels) fit_overshoot
              consts_scalar state_overshoot [[1]] [[-1.5]])
    as (Hpos & Hstep & _); [vm_compute; reflexivity |].
  split; [exact Hpos |].
  destruct (outer_iteration (H := Ref.kernels) consts_scalar state_overshoot)
    as [t' | ex] eqn:Eo; [| vm_compute in Eo; discriminate Eo].
  exists t'. split; [reflexivity |]. exact (Hstep state_overshoot t' Hpos Eo).
Defined.

(** * The rate matrix and the parameters *)

Lemma col_set_col_ne (M : fmat) (j k : nat) (c : fvec) :
  j <> k -> col (set_col M j c) k = col M k.
Proof.
  intros Hjk. revert c. induction M as [| r M IH]; intros [| x c]; try done.
  cbn [set_col]. rewrite !col_cons, IH. f_equal.
  unfold getv. by rewrite list_lookup_insert_ne.
Qed.

(** An entry that a series of element assignments does not name is left
    as it was. *)
Lemma fold_set_elem_lookup_ne (f : nat * nat -> float) (ps : list (nat * nat)) :
  forall (M : fmat) (t n : nat) (r : fvec) (x : float),
  fold_left (fun r (rc : nat * nat) => set_elem r rc.1 rc.2 (f rc)) ps M !! t = Some r ->
  r !! n = Some x -> (t, n) ∉ ps ->
  exists r0, M !! t = Some r0 /\ r0 !! n = Some x.
Proof.
  induction ps as [| rc ps IH] using rev_ind; intros M t n r x Hr Hx Hin.
  - by exists r.
  - rewrite fold_left_app in Hr. cbn in Hr. unfold set_elem in Hr.
    set (M' := fold_left _ ps M) in Hr.
    assert (Hps : (t, n) ∉ ps) by (intros Hc; apply Hin, elem_of_app; by left).
    assert (Hrc : (t, n) <> rc).
    { intros Hc. apply Hin, elem_of_app. right. rewrite Hc. by apply list_elem_of_singleton. }
    destruct (decide (t = rc.1)) as [Ht | Ht].
    + subst t. rewrite list_lookup_alter_eq in Hr.
      destruct (M' !! rc.1) as [r' |] eqn:Er'; [| discriminate].
      cbn in Hr. inversion Hr; subst r. clear Hr.
      assert (Hn : n <> rc.2) by (intros ->; apply Hrc; by destruct rc).
      rewrite list_lookup_insert_ne in Hx by done.
      by apply (IH M rc.1 n r' x Er' Hx).
    + rewrite list_lookup_alter_ne in Hr by done.
      by apply (IH M t n r x Hr Hx).
Qed.

Section Consistency.
Context `{Extern}.
Variable e : consts.

Ltac settle_cases :=
  repeat match goal with |- context [if ?b then _ else _] => destruct b end.

(** The rate of channel [n] reads column [n] of [beta] and of [alpha] and
    nothing else of the two. *)
Lemma saferate_columns (t n : nat) (reg pm : fmat) (V : ftens) (b b' a a' : fmat) :
  col b n = col b' n -> col a n = col a' n ->
  saferate t n reg pm V b a = saferate t n reg pm V b' a'.
Proof. unfold saferate, lograte. by intros -> ->. Qed.

Lemma rate_consistent_frame (s s' : vstate) :
  cur s' = cur s -> rate s' = rate s -> rate_consistent e s -> rate_consistent e s'.
Proof. unfold rate_consistent. by intros -> ->. Qed.

(** Refreshing every entry makes the matrix consistent. *)
Lemma updaterate_consistent (s : vstate) :
  length (rate s) = dim_T e -> rectangular (dim_N e) (rate s) ->
  rate_consistent e (updaterate e (range (dim_T e)) (range (dim_N e)) s).
Proof.
  intros HT HN. split; [by rewrite updaterate_length |].
  cbn -[list_prod]. intros t n r x Hr Hx.
  set (f := fun rc : nat * nat =>
    astype (spike_dtype (args e))
      (saferate rc.1 rc.2 (regressor e) (post_mean (cur s)) (post_cov (cur s))
         (beta (cur s)) (alpha (cur s)))) in *.
  pose proof (fold_set_elem_length f (list_prod (range (dim_T e)) (range (dim_N e))) (rate s))
    as Hlen.
  pose proof (fold_set_elem_rows (dim_N e) f (list_prod (range (dim_T e)) (range (dim_N e)))
                (rate s) HN) as Hrows.
  apply (fold_set_elem_lookup f _ (rate s) t n r x Hr Hx).
  apply list_elem_of_In, in_prod.
  - apply list_elem_of_In, elem_of_range. apply lookup_lt_Some in Hr.
    rewrite fold_set_elem_length in Hr. lia.
  - apply list_elem_of_In, elem_of_range.
    rewrite Forall_lookup in Hrows. rewrite <- (Hrows t r Hr). by apply lookup_lt_Some in Hx.
Qed.

(** Refreshing column [n] after a change of column [n] of [beta] keeps
    the matrix consistent. *)
Lemma beta_trial_consistent (n : nat) (delta : fvec) (s : vstate) :
  rate_consistent e s -> rate_consistent e (beta_trial e n delta s).
Proof.
  intros [HT Hs]. split; [unfold beta_trial; by rewrite updaterate_length |].
  unfold beta_trial. cbn -[list_prod col set_col]. intros t m r x Hr Hx.
  set (b' := set_col (beta (cur s)) n (vadd (col (beta (cur s)) n) delta)) in *.
  set (f := fun rc : nat * nat =>
    astype (spike_dtype (args e))
      (saferate rc.1 rc.2 (regressor e) (post_mean (cur s)) (post_cov (cur s))
         b' (alpha (cur s)))) in *.
  destruct (decide (m = n)) as [-> | Hm].
  - apply (fold_set_elem_lookup f _ (rate s) t n r x Hr Hx).
    apply list_elem_of_In, in_prod.
    + apply list_elem_of_In, elem_of_range. apply lookup_lt_Some in Hr.
      rewrite fold_set_elem_length in Hr. lia.
    + by left.
  - destruct (fold_set_elem_lookup_ne f _ (rate s) t m r x Hr Hx) as (r0 & Hr0 & Hx0).
    + intros Hin. apply list_elem_of_In, in_prod_iff in Hin as [_ Hin].
      destruct Hin as [Hin | []]. congruence.
    + rewrite (Hs t m r0 x Hr0 Hx0). f_equal. apply saferate_columns; [| done].
      unfold b'. by rewrite col_set_col_ne by congruence.
Qed.

Lemma beta_block_consistent (n : nat) (s : vstate) (fl : flow) (s' : vstate) :
  well_formed e s -> n < dim_N e -> rate_consistent e s ->
  beta_block e n s = Ok (fl, s') -> rate_consistent e s'.
Proof.
  intros Hwf Hn HR. unfold beta_block. intros Hrun. res_cases Hrun; try done.
  match goal with |- rate_consistent e (beta_settle e n ?pr (beta_trial e n ?d s)) =>
    set (predict := pr); set (delta := d) end.
  destruct (rejected (lb_now e (beta_trial e n delta s)) (prev_bound s)) eqn:Hrej.
  - destruct (beta_reject e n delta predict s Hwf Hn Hrej) as (Hc & Hr & _).
    by apply (rate_consistent_frame s).
  - unfold beta_settle.
    change (prev_bound (beta_trial e n delta s)) with (prev_bound s). rewrite Hrej.
    pose proof (beta_trial_consistent n delta s HR) as Ht.
    by settle_cases.
Qed.

Lemma alpha_block_consistent (l : nat) (s : vstate) (fl : flow) (s' : vstate) :
  well_formed e s -> rate_consistent e s ->
  alpha_block e l s = Ok (fl, s') -> rate_consistent e s'.
Proof.
  intros Hwf HR. unfold alpha_block. intros Hrun. res_cases Hrun; try done.
  match goal with Ht : alpha_trial e l ?d s = Ok ?t |- rate_consistent e (alpha_settle e l ?pr ?t) =>
    set (predict := pr); pose proof Ht as Htrial;
    unfold alpha_trial in Ht; res_cases Ht end.
  match type of Htrial with _ = Ok ?t => set (s5 := t) in * end.
  assert (Hprev : prev_bound s5 = prev_bound s) by reflexivity.
  destruct (rejected_alpha (lb_now e s5) (prev_bound s)) eqn:Hrej.
  - destruct (alpha_reject e l _ predict s s5 Hwf Htrial Hrej) as (Hc & Hr & _).
    by apply (rate_consistent_frame s).
  - unfold alpha_settle. rewrite Hprev, Hrej.
    assert (Ht : rate_consistent e s5).
    { destruct HR as [HT _]. destruct Hwf as (_ & _ & _ & _ & HN & _).
      by apply updaterate_consistent. }
    by settle_cases.
Qed.

Lemma mean_block_consistent (l : nat) (s : vstate) (fl : flow) (s' : vstate) :
  well_formed e s -> l < dim_L e -> rate_consistent e s ->
  mean_block e l s = Ok (fl, s') -> rate_consistent e s'.
Proof.
  intros Hwf Hl HR. unfold mean_block. intros Hrun.
  destruct (woodbury e l s) as [[s0 hinv] | ex] eqn:Hw; [| discriminate].
  rewrite bind_ok in Hrun.
  pose proof (woodbury_well_formed e l s s0 hinv Hwf Hw) as Hwf0.
  destruct (well_formed_woodbury e l s s0 hinv Hw) as (Hc & Hr & _).
  assert (HR0 : rate_consistent e s0) by (by apply (rate_consistent_frame s)).
  res_cases Hrun; try done.
  match goal with |- rate_consistent e (mean_settle e l ?pr (mean_trial e l ?d s0)) =>
    set (predict := pr); set (delta := d) end.
  destruct (rejected (lb_now e (mean_trial e l delta s0)) (prev_bound s0)) eqn:Hrej.
  - destruct (mean_reject e l delta predict s0 Hwf0 Hl Hrej) as (Hc' & Hr' & _).
    by apply (rate_consistent_frame s0).
  - unfold mean_settle.
    change (prev_bound (mean_trial e l delta s0)) with (prev_bound s0). rewrite Hrej.
    assert (Ht : rate_consistent e (mean_trial e l delta s0)).
    { destruct HR0 as [HT _]. destruct Hwf0 as (_ & _ & _ & _ & HN & _).
      unfold mean_trial. by apply updaterate_consistent. }
    by settle_cases.
Qed.

Lemma postcov_block_consistent (l : nat) (s : vstate) (fl : flow) (s' : vstate) :
  well_formed e s -> rate_consistent e s ->
  postcov_block e l s = Ok (fl, s') -> rate_consistent e s'.
Proof.
  intros Hwf HR. unfold postcov_block. intros Hrun.
  destruct (woodbury e l s) as [[s0 V] | ex] eqn:Hw; [| discriminate].
  rewrite bind_ok in Hrun.
  pose proof (woodbury_well_formed e l s s0 V Hwf Hw) as Hwf0.
  destruct (well_formed_woodbury e l s s0 V Hw) as (Hc & Hr & _).
  res_cases Hrun.
  destruct HR as [HT _]. destruct Hwf0 as (_ & _ & _ & _ & HN & _).
  apply updaterate_consistent; cbn; [by rewrite Hr | done].
Qed.
End Consistency.

(** X3.  The rate matrix that the loop carries is, entry by entry, the rate
    [saferate] gives for the current parameters, as an array of the dtype
    of [spike] stores it (unchanged when [spike] holds doubles, the integer
    part when it holds integers): when the loop starts and after every
    outer iteration, whether the steps of the iteration were accepted or
    rolled back.  The arrays are assumed to have the shapes the docstring
    gives. *)
Theorem rate_matches_parameters `{Extern} (inp : inputs) (c : consts) (s : vstate)
    (a b : fmat) :
  initialize inp = Ok (c, s, a, b) ->
  rectangular (ncols (spike inp)) (spike inp) ->
  rectangular (ncols (spike inp)) b ->
  rectangular (ncols (prior_mean inp))
    (match m0 inp with None => prior_mean inp | Some m => m end) ->
  rate_consistent c s /\
  (forall t t', well_formed c t -> rate_consistent c t -> outer_iteration c t = Ok t' ->
     well_formed c t' /\ rate_consistent c t') /\
  (forall fuel s', while_loop c fuel s = Ok (Some s') -> rate_consistent c s').
Proof.
  intros Hi Hy Hb Hm.
  destruct (initialize_start inp c s a b Hi)
    as (_ & HT & HN & _ & _ & _ & _ & Hpm & _ & _ & _ & _ & Hrate & _).
  assert (Hwf : well_formed c s).
  { apply (initialize_well_formed inp c s a b Hi); try done. by rewrite Hpm. }
  assert (Hcons : rate_consistent c s).
  { pose proof (updaterate_consistent c (upd_rate (fun _ => zeros_like (spike inp)) s)) as Hu.
    destruct Hu as [Hu1 Hu2].
    - cbn. by rewrite zeros_like_length, HT.
    - cbn. rewrite HN. by apply zeros_like_rectangular.
    - split; [by rewrite Hrate |]. rewrite Hrate. exact Hu2. }
  set (Q := fun t : vstate => well_formed c t /\ rate_consistent c t).
  assert (Hblocks : forall t t', Q t -> block_updates c t = Ok t' -> Q t').
  { apply (block_updates_invariant c Q); unfold Q.
    - intros _ n t fl t' Hn [H1 H2] Hblock. split.
      + by apply (beta_block_well_formed c n t fl).
      + by apply (beta_block_consistent c n t fl).
    - intros _ n t fl t' Hn [H1 H2] Hblock. split.
      + by apply (alpha_block_well_formed c n t fl).
      + by apply (alpha_block_consistent c n t fl).
    - intros _ n t fl t' Hn [H1 H2] Hblock. split.
      + by apply (mean_block_well_formed c n t fl).
      + by apply (mean_block_consistent c n t fl).
    - intros _ n t fl t' Hn [H1 H2] Hblock. split.
      + by apply (postcov_block_well_formed c n t fl).
      + by apply (postcov_block_consistent c n t fl).
    - intros _ n t fl t' Hn [H1 H2] Hblock. split.
      + by apply (hyper_block_well_formed c n t fl).
      + destruct (hyper_block_others c n t fl t' Hblock) as (Hc & Hr & _).
        by apply (rate_consistent_frame c t).
    - intros _ t pc pinv HQt. exact HQt. }
  assert (Hclose : forall t t', Q t -> close_iteration c t = Ok t' -> Q t').
  { intros t t' [H1 H2] Hclose. split.
    - by apply (close_iteration_well_formed c t).
    - destruct (close_iteration_others c t t' Hclose) as (Hc & Hr & _).
      by apply (rate_consistent_frame c t). }
  refine (conj Hcons (conj _ _)).
  - intros t t' H1 H2. by apply (outer_iteration_keeps c Q Hblocks Hclose).
  - intros fuel s' Hrun. by apply (while_loop_keeps c Q Hblocks Hclose fuel s s').
Qed.

Lemma rate_matches_parameters_witness :
  rate_consistent (H := Ref.kernels) consts_scalar state_overshoot /\
  exists t', outer_iteration (H := Ref.kernels) consts_scalar state_overshoot = Ok t' /\
    rate_consistent (H := Ref.kernels) consts_scalar t'.
Proof.
  destruct (rate_matches_parameters (H := Ref.kernels) fit_overshoot
              consts_scalar state_overshoot [[1]] [[-1.5]])
    as (Hcons & Hstep & _);
    [vm_compute; reflexivity | repeat constructor | repeat constructor
    | repeat constructor |].
  split; [exact Hcons |].
  destruct (outer_iteration (H := Ref.kernels) consts_scalar state_overshoot)
    as [t' | ex] eqn:Eo; [| vm_compute in Eo; discriminate Eo].
  exists t'. split; [reflexivity |].
  exact (proj2 (Hstep state_overshoot t' well_formed_overshoot Hcons Eo)).
Defined.

(** * The slice an updater owns *)

Lemma col_set_elem_ne (M : fmat) (i j k : nat) (x : float) :
  j <> k -> col (set_elem M i j x) k = col M k.
Proof.
  intros Hjk. revert i. induction M as [| r M IH]; intros i; [done |].
  destruct i as [| i]; cbn [set_elem alter list_alter]; rewrite !col_cons.
  - f_equal. unfold getv. by rewrite list_lookup_insert_ne.
  - f_equal. apply (IH i).
Qed.

Lemma fold_set_elem_col_ne (f : nat * nat -> float) (ps : list (nat * nat)) (M : fmat)
    (n k : nat) :
  Forall (fun rc : nat * nat => rc.2 = n) ps -> n <> k ->
  col (fold_left (fun r (rc : nat * nat) => set_elem r rc.1 rc.2 (f rc)) ps M) k = col M k.
Proof.
  intros Hps Hnk. revert M. induction Hps as [| rc ps Hrc Hps IH]; intros M; [done |].
  cbn [fold_left]. rewrite IH. apply col_set_elem_ne. by rewrite Hrc.
Qed.

Lemma row_set_row_ne (M : fmat) (i k : nat) (r : fvec) :
  i <> k -> row (set_row M i r) k = row M k.
Proof. intros Hik. unfold row, set_row. by rewrite list_lookup_insert_ne. Qed.

Lemma getv_shrink_ne (v : fvec) (i k : nat) : i <> k -> getv (shrink v i) k = getv v k.
Proof. intros Hik. unfold shrink. by rewrite !getv_setv_ne. Qed.

Lemma getv_grow_ne (v : fvec) (i k : nat) : i <> k -> getv (grow v i) k = getv v k.
Proof. intros Hik. unfold grow. by rewrite getv_setv_ne. Qed.

Section Slices.
Context `{Extern}.
Variable e : consts.

Lemma beta_block_slice (i k : nat) (s : vstate) (fl : flow) (s' : vstate) :
  i <> k -> beta_block e i s = Ok (fl, s') ->
  col (beta (cur s')) k = col (beta (cur s)) k /\
  col (rate s') k = col (rate s) k /\
  getv (stepsize_beta (steps s')) k = getv (stepsize_beta (steps s)) k.
Proof.
  intros Hik Hblock. refine (conj _ (conj _ _)).
  all: revert Hblock; unfold beta_block; intros Hrun; res_cases Hrun; try done;
    unfold beta_settle;
    repeat match goal with |- context [if ?b then _ else _] => destruct b end;
    cbn -[col set_col list_prod];
    rewrite ?col_set_col_ne, ?getv_shrink_ne, ?getv_grow_ne by done; try done.
  all: rewrite ?(fold_set_elem_col_ne _ _ _ i k) by (done || apply list_prod_single);
    try done.
Qed.

Lemma alpha_block_slice (i k : nat) (s : vstate) (fl : flow) (s' : vstate) :
  i <> k -> alpha_block e i s = Ok (fl, s') ->
  row (alpha (cur s')) k = row (alpha (cur s)) k /\
  getv (stepsize_alpha (steps s')) k = getv (stepsize_alpha (steps s)) k.
Proof.
  intros Hik Hblock. split.
  all: revert Hblock; unfold alpha_block; intros Hrun; res_cases Hrun; try done;
    match goal with Ht : alpha_trial _ _ _ _ = Ok _ |- _ =>
      unfold alpha_trial in Ht; res_cases Ht end;
    unfold alpha_settle;
    repeat match goal with |- context [if ?b then _ else _] => destruct b end;
    cbn -[row set_row list_prod];
    rewrite ?row_set_row_ne, ?getv_shrink_ne, ?getv_grow_ne by done; done.
Qed.

Lemma mean_block_slice (i k : nat) (s : vstate) (fl : flow) (s' : vstate) :
  i <> k -> mean_block e i s = Ok (fl, s') ->
  col (post_mean (cur s')) k = col (post_mean (cur s)) k /\
  getv (stepsize_post_mean (steps s')) k = getv (stepsize_post_mean (steps s)) k.
Proof.
  intros Hik Hblock. split.
  all: revert Hblock; unfold mean_block; intros Hrun;
    destruct (woodbury e i s) as [[s0 hinv] | ex] eqn:Hw; [| discriminate];
    rewrite bind_ok in Hrun;
    destruct (well_formed_woodbury e i s s0 hinv Hw) as (Hc & _ & Hst & _);
    res_cases Hrun; rewrite <- ?Hc, <- ?Hst; try done;
    unfold mean_settle;
    repeat match goal with |- context [if ?b then _ else _] => destruct b end;
    cbn -[col set_col list_prod];
    rewrite ?col_set_col_ne, ?getv_shrink_ne, ?getv_grow_ne by done; done.
Qed.
End Slices.

(** X6.  One pass of a guarded updater changes nothing outside the slice it
    is called for: the beta updater of channel [i] leaves every other
    column of [beta] and of the rate matrix and every other step size as
    they were, and does not touch [alpha], the posterior or the prior;
    likewise the alpha updater for the other rows of [alpha] and the
    posterior-mean updater for the other columns of [post_mean]. *)
Theorem guarded_updaters_keep_to_their_slice `{Extern} (e : consts) (i k : nat)
    (s : vstate) (fl : flow) (s' : vstate) :
  i <> k ->
  (beta_block e i s = Ok (fl, s') ->
   col (beta (cur s')) k = col (beta (cur s)) k /\
   col (rate s') k = col (rate s) k /\
   getv (stepsize_beta (steps s')) k = getv (stepsize_beta (steps s)) k /\
   alpha (cur s') = alpha (cur s) /\ post_mean (cur s') = post_mean (cur s) /\
   post_cov (cur s') = post_cov (cur s) /\ prior s' = prior s) /\
  (alpha_block e i s = Ok (fl, s') ->
   row (alpha (cur s')) k = row (alpha (cur s)) k /\
   getv (stepsize_alpha (steps s')) k = getv (stepsize_alpha (steps s)) k /\
   beta (cur s') = beta (cur s) /\ post_mean (cur s') = post_mean (cur s) /\
   post_cov (cur s') = post_cov (cur s) /\ prior s' = prior s) /\
  (mean_block e i s = Ok (fl, s') ->
   col (post_mean (cur s')) k = col (post_mean (cur s)) k /\
   getv (stepsize_post_mean (steps s')) k = getv (stepsize_post_mean (steps s)) k /\
   beta (cur s') = beta (cur s) /\ alpha (cur s') = alpha (cur s) /\
   post_cov (cur s') = post_cov (cur s) /\
   prior_cov (prior s') = prior_cov (prior s) /\
   prior_inv (prior s') = prior_inv (prior s)).
Proof.
  intros Hik. split; [| split]; intros Hblock.
  - destruct (beta_block_others e i s fl s' Hblock) as (Ha & Hm & Hv & Hp & _).
    destruct (beta_block_slice e i k s fl s' Hik Hblock) as (H1 & H2 & H3).
    by repeat split.
  - destruct (alpha_block_others e i s fl s' Hblock) as (Hb & Hm & Hv & Hp & _).
    destruct (alpha_block_slice e i k s fl s' Hik Hblock) as (H1 & H2).
    by repeat split.
  - destruct (mean_block_others e i s fl s' Hblock) as (Hb & Ha & Hv & Hpc & Hpi & _).
    destruct (mean_block_slice e i k s fl s' Hik Hblock) as (H1 & H2).
    by repeat split.
Qed.

Lemma guarded_updaters_keep_to_their_slice_witness :
  match start_of (H := Ref.kernels) fit_two_channels with
  | Some (c, s) =>
      exists fl s', beta_block (H := Ref.kernels) c 1 s = Ok (fl, s') /\
        col (beta (cur s')) 0 = col (beta (cur s)) 0 /\
        col (rate s') 0 = col (rate s) 0
  | None => False
  end.
Proof.
  destruct (start_of (H := Ref.kernels) fit_two_channels) as [[c s] |] eqn:Es;
    [| vm_compute in Es; discriminate Es].
  destruct (beta_block (H := Ref.kernels) c 1 s) as [[fl s'] | ex] eqn:Eb.
  - exists fl, s'. split; [reflexivity |].
    destruct (guarded_updaters_keep_to_their_slice (H := Ref.kernels) c 1 0 s fl s'
                ltac:(lia)) as (Hbeta & _).
    destruct (Hbeta Eb) as (H1 & H2 & _). by split.
  - exfalso. vm_compute in Es. inversion Es; subst. vm_compute in Eb. discriminate Eb.
Defined.

(** * Exceptions that are not caught *)

(** X8.  The updaters catch [LinAlgError] from [linalg.solve] and nothing
    else.  When, in the first outer iteration, [linalg.norm] raises for the
    gradient of the first channel (it does for a gradient that is not
    finite), or [linalg.solve] raises anything but [LinAlgError] for its
    Newton system, the exception leaves [variational]: no block is
    skipped and nothing is returned. *)
Theorem only_LinAlgError_is_caught `{Extern} (inp : inputs) (c : consts) (s : vstate)
    (a b : fmat) (ex : pyexn) :
  initialize inp = Ok (c, s, a, b) ->
  fixbeta inp = false -> 0 < ncols (spike inp) -> 2 <= max_iterations inp ->
  linalg_norm_inf (grad_b c 0 s) = Raise ex \/
  (exists x, linalg_norm_inf (grad_b c 0 s) = Ok x /\ (x <? eps) = false /\
     linalg_solve (neg_hess_b c 0 s) (grad_b c 0 s) = Raise ex /\ ex <> LinAlgError) ->
  variational inp = Raise ex.
Proof.
  intros Hi Hfix HN Hmax Hraise.
  destruct (initialize_start inp c s a b Hi) as (Hargs & _ & HdN & _).
  destruct (initialize_spec inp c s a b Hi) as (Hmi & _ & Hit & Hcv & _).
  assert (Hblock : beta_block c 0 s = Raise ex).
  { unfold beta_block. destruct Hraise as [-> | (x & -> & Hx & -> & Hne)]; [done |].
    rewrite bind_ok, Hx. by destruct ex. }
  assert (Houter : outer_iteration c s = Raise ex).
  { unfold outer_iteration, block_updates, guarded_phases. rewrite Hargs, Hfix, HdN.
    destruct (ncols (spike inp)) as [| N] eqn:EN; [lia |].
    unfold range. cbn [seq for_each]. by rewrite Hblock. }
  unfold variational, variational_fuel. rewrite Hi.
  destruct (max_iterations inp) as [| k] eqn:Ek; [lia |].
  cbn [while_loop]. rewrite Hcv, Hit, Hmi.
  replace (1 <? S k)%nat with true by (symmetry; apply Nat.ltb_lt; lia).
  cbn [negb andb]. by rewrite Houter.
Qed.

Lemma only_LinAlgError_is_caught_witness :
  variational (H := Ref.kernels)
    (fit [[nan]] 0 1 [[1]] [[0]] (Some [[0]]) true false true true false 1 3)
  = Raise ValueError.
Proof.
  eapply (only_LinAlgError_is_caught (H := Ref.kernels));
    [vm_compute; reflexivity | reflexivity | vm_compute; lia | vm_compute; lia |].
  left. vm_compute. reflexivity.
Defined.

(** * Latents beyond the number of channels *)

Section StepLengths.
Context `{Extern}.
Variable e : consts.

Lemma length_shrink (v : fvec) (i : nat) : length (shrink v i) = length v.
Proof. unfold shrink, setv. by rewrite !length_insert. Qed.

Lemma length_grow (v : fvec) (i : nat) : length (grow v i) = length v.
Proof. unfold grow, setv. by rewrite length_insert. Qed.

Lemma alpha_block_step_length (l : nat) (s : vstate) (fl : flow) (s' : vstate) :
  alpha_block e l s = Ok (fl, s') ->
  length (stepsize_alpha (steps s')) = length (stepsize_alpha (steps s)).
Proof.
  unfold alpha_block. intros Hrun. res_cases Hrun; try done.
  match goal with Ht : alpha_trial _ _ _ _ = Ok _ |- _ =>
    unfold alpha_trial in Ht; res_cases Ht end.
  unfold alpha_settle.
  repeat match goal with |- context [if ?b then _ else _] => destruct b end;
    cbn; by rewrite ?length_shrink, ?length_grow.
Qed.

(** [stepsize_alpha[l]] is read before the Newton system is solved: for
    an index outside the vector the updater can only leave the loop. *)
Lemma alpha_block_out_of_range (l : nat) (s : vstate) (fl : flow) (s' : vstate) :
  length (stepsize_alpha (steps s)) <= l ->
  alpha_block e l s = Ok (fl, s') -> fl = Break /\ s' = s.
Proof.
  intros Hl. unfold alpha_block. intros Hrun.
  destruct (linalg_norm_inf _) as [x |]; [| discriminate]. rewrite bind_ok in Hrun.
  destruct (x <? eps); [by inversion Hrun |].
  unfold index in Hrun. by rewrite lookup_ge_None_2 in Hrun by lia.
Qed.
End StepLengths.

(** X7.  [stepsize_alpha] has one entry per channel and is indexed by the
    latent.  With more latents than channels the alpha updater of a
    latent [k >= N] can only find a gradient below [eps] and leave the
    loop, or raise [IndexError]: if [variational] returns, rows [k >= N]
    of the returned [alpha] are the rows of the initial value. *)
Theorem latents_beyond_channels_are_never_updated `{Extern} (inp : inputs) (r : output)
    (k : nat) :
  variational inp = Ok (Some r) -> ncols (spike inp) <= k ->
  row (r_alpha r) k = row (r_a0 r) k.
Proof.
  intros Hrun Hk.
  destruct (initialize inp) as [[[[c s] a] b] | ex] eqn:Ei;
    [| unfold variational, variational_fuel in Hrun; by rewrite Ei in Hrun].
  destruct (variational_returns inp c s a b r Ei Hrun) as (s' & Hloop & ->).
  destruct (initialize_start inp c s a b Ei)
    as (_ & _ & HN & _ & _ & _ & Ha & _ & _ & _ & _ & _ & _ & _ & Hsteps & _).
  set (P := fun t : vstate =>
    length (stepsize_alpha (steps t)) = dim_N c /\ row (alpha (cur t)) k = row a k).
  assert (HP : P s').
  { apply (while_loop_invariant c P) with (fuel := max_iterations inp) (s := s);
      try exact Hloop; unfold P.
    - intros _ n t fl t' _ [H1 H2] Hblock.
      destruct (beta_block_others c n t fl t' Hblock) as (E1 & _ & _ & _ & E2 & _).
      by rewrite E1, E2.
    - intros _ l t fl t' _ [H1 H2] Hblock.
      destruct (decide (l < dim_N c)) as [Hl | Hl].
      + rewrite (alpha_block_step_length c l t fl t' Hblock).
        destruct (alpha_block_slice c l k t fl t' ltac:(lia) Hblock) as (E1 & _).
        by rewrite E1.
      + destruct (alpha_block_out_of_range c l t fl t' ltac:(lia) Hblock) as (_ & ->).
        done.
    - intros _ l t fl t' _ [H1 H2] Hblock.
      destruct (mean_block_others c l t fl t' Hblock)
        as (_ & E1 & _ & _ & _ & _ & _ & E2 & _).
      by rewrite E1, E2.
    - intros _ l t fl t' _ [H1 H2] Hblock.
      destruct (postcov_block_others c l t fl t' Hblock)
        as (_ & E1 & _ & _ & _ & _ & E2 & _).
      by rewrite E1, E2.
    - intros _ l t fl t' _ [H1 H2] Hblock.
      destruct (hyper_block_others c l t fl t' Hblock) as (E1 & _ & _ & _ & E2 & _).
      by rewrite E1, E2.
    - intros _ t pc pinv HPt. exact HPt.
    - intros t t' [H1 H2] _ Hclose.
      destruct (close_iteration_others c t t' Hclose) as (E1 & _ & _ & _ & E2).
      by rewrite E1, E2.
    - rewrite Hsteps, Ha. cbn. by rewrite length_replicate. }
  destruct HP as [_ HP]. exact HP.
Qed.

Lemma latents_beyond_channels_are_never_updated_witness :
  exists r, variational (H := Ref.kernels)
              {| spike := [[3]]; spike_dtype := Float64; p := 0; prior_mean := [[0; 0]]; prior_var := [1; 1];
                 prior_w := [1; 1]; a0 := Some [[0]; [2]]; b0 := Some [[1]];
                 m0 := None; fixalpha := false; fixbeta := true; fixpostmean := true;
                 fixpostcov := true; normofalpha := 1; intercept := true;
                 hyper := false; inchol_tol := 0x1p-20; control := control_of 3 |}
            = Ok (Some r) /\
    row (r_alpha r) 1 = [2].
Proof.
  match goal with |- exists r, ?run = _ /\ _ =>
    destruct run as [[r |] | ex] eqn:Er; try (vm_compute in Er; discriminate Er);
    pose proof (latents_beyond_channels_are_never_updated (H := Ref.kernels) _ r 1 Er
                  ltac:(cbn; lia)) as Hrow
  end.
  exists r. split; [reflexivity |]. rewrite Hrow.
  vm_compute in Er. by inversion Er.
Defined.

(** * Accepted hyperparameter steps *)

Lemma slice_set_slice (A : ftens) (l : nat) (M : fmat) :
  l < length A -> slice (set_slice A l M) l = M.
Proof. intros Hl. unfold slice, set_slice. by rewrite list_lookup_insert_eq. Qed.

Lemma index_lt (v : fvec) (i : nat) (x : float) : index v i = Ok x -> i < length v.
Proof.
  unfold index. destruct (v !! i) eqn:E; [| discriminate].
  intros _. by apply lookup_lt_Some in E.
Qed.

(** X16.  A hyperparameter step that is accepted (it prints its [Hyper] line
    and no failure line) leaves the prior of latent [l] regenerated as a
    whole: the stored covariance is [sqexpcov] of the stored inverse
    squared lengthscale and variance, and the stored precision is the
    pseudo-inverse of that covariance; parameters, rates and step sizes
    are not touched. *)
Theorem accepted_hyper_step_regenerates_prior `{Extern} (e : consts) (l : nat)
    (s : vstate) (fl : flow) (s' : vstate) :
  hyper_block e l s = Ok (fl, s') ->
  stdout s' = stdout s ++ [EvPrint "Hyper"] ->
  l < length (prior_cov (prior s)) -> l < length (prior_inv (prior s)) ->
  slice (prior_cov (prior s')) l
  = sqexpcov (dim_T e) (getv (w (prior s')) l) (getv (variance (prior s')) l) /\
  pinv_svd (slice (prior_cov (prior s')) l) = Ok (slice (prior_inv (prior s')) l) /\
  cur s' = cur s /\ rate s' = rate s /\ steps s' = steps s.
Proof.
  unfold hyper_block. intros Hrun Hout Hpc Hpi.
  destruct (index (variance (prior s)) l) as [var_l |] eqn:Ev; [| discriminate].
  rewrite bind_ok in Hrun. cbv zeta in Hrun.
  destruct (index _ l) as [w_l |] eqn:Ew in Hrun; [| discriminate].
  rewrite bind_ok in Hrun.
  destruct (pinv_svd _) as [pinv' |] eqn:Ep in Hrun; [| discriminate].
  rewrite bind_ok in Hrun.
  apply index_lt in Ev. apply index_lt in Ew.
  cbn -[new_var grad_w setv getv slice set_slice] in Ew, Ep.
  destruct (rejected _ _) in Hrun; inversion Hrun; subst; clear Hrun;
    cbn -[new_var grad_w setv getv slice set_slice] in Hout |- *.
  - exfalso. rewrite <- app_assoc in Hout. apply app_inv_head in Hout. discriminate.
  - rewrite !slice_set_slice by done. rewrite slice_set_slice in Ep by done.
    rewrite (getv_setv (w _)) in * by done.
    rewrite (getv_setv (variance _)) in * by done.
    by repeat split.
Qed.

Lemma accepted_hyper_step_regenerates_prior_witness :
  exists s', hyper_block (H := Ref.kernels) consts_scalar 0 (state_scalar (-1.5) 1 3 1 (-7))
             = Ok (Next, s') /\
    slice (prior_cov (prior s')) 0
    = sqexpcov (Extern := Ref.kernels) 1
        (getv (w (prior s')) 0) (getv (variance (prior s')) 0) /\
    variance (prior s') = [10].
Proof.
  destruct (hyper_block (H := Ref.kernels) consts_scalar 0 (state_scalar (-1.5) 1 3 1 (-7)))
    as [[fl s'] | ex] eqn:Eh; [| vm_compute in Eh; discriminate Eh].
  assert (Hrun : fl = Next /\ stdout s' = [EvPrint "Hyper"] /\ variance (prior s') = [10]).
  { vm_compute in Eh. by inversion Eh. }
  destruct Hrun as (-> & Hout & Hvar).
  exists s'. split; [reflexivity |]. split; [| exact Hvar].
  apply (accepted_hyper_step_regenerates_prior (H := Ref.kernels) consts_scalar 0
           (state_scalar (-1.5) 1 3 1 (-7)) Next s' Eh); [exact Hout | cbn; lia | cbn; lia].
Defined.

(** * The two lower bounds *)

Section FloatOpp.

Lemma binary_round_aux_opp (sx : bool) (m ex : Z) (l : location) :
  SFopp (binary_round_aux prec emax sx m ex l) = binary_round_aux prec emax (negb sx) m ex l.
Proof.
  unfold binary_round_aux.
  destruct (shr_fexp prec emax m ex l) as [mrs' e'].
  destruct (shr_fexp prec emax _ e' loc_Exact) as [mrs'' e''].
  destruct (shr_m mrs'') as [| q | q]; cbn; try reflexivity.
  by destruct (e'' <=? emax - prec)%Z.
Qed.

Lemma SFmul_opp_l (x y : spec_float) : SF64mul (SFopp x) y = SFopp (SF64mul x y).
Proof.
  destruct x as [sx | sx | | sx mx ex], y as [sy | sy | | sy my ey]; cbn;
    try reflexivity; try (by destruct sx, sy);
    try (rewrite binary_round_aux_opp; by destruct sx, sy).
Qed.

Lemma SFadd_opp_r (x y : spec_float) : SF64add x (SFopp y) = SF64sub x y.
Proof.
  destruct x as [sx | sx | | sx mx ex], y as [sy | sy | | sy my ey]; cbn;
    try reflexivity; try (by destruct sx, sy);
    try (f_equal; destruct sy; cbn; lia).
Qed.
End FloatOpp.

(** [a + (-0.5) * t] and [a - 0.5 * t] are the same double. *)
Lemma add_neg_half (a t : float) : a + (- 0.5) * t = a - 0.5 * t.
Proof.
  apply Prim2SF_inj.
  rewrite FloatAxioms.add_spec, FloatAxioms.sub_spec, !FloatAxioms.mul_spec.
  change (Prim2SF (- 0.5)) with (SFopp (Prim2SF 0.5)).
  by rewrite SFmul_opp_l, SFadd_opp_r.
Qed.

Lemma fold_left_pointwise {A B : Type} (f g : A -> B -> A) (l : list B) :
  (forall x y, f x y = g x y) -> forall x, fold_left f l x = fold_left g l x.
Proof.
  intros Hfg. induction l as [| y l IH]; intros x; cbn; [done |]. by rewrite Hfg, IH.
Qed.

(** X17.  [vb.lowerbound] and [optimization.lowerbound] compute the same
    double when the latter is given the rate matrix the former builds for
    itself: the older function is the newer one with the rates computed
    inside (the prior covariance, which the newer one accepts, is not
    read). *)
Theorem vb_lowerbound_agrees `{Extern} (y Y mu : fmat) (omega : ftens) (m : fmat)
    (V : ftens) (b a : fmat) (prior_cov : ftens) :
  vb_lowerbound y Y mu omega m V b a
  = lowerbound y b a mu prior_cov omega m V Y (vb_rates y Y m V b a).
Proof.
  unfold vb_lowerbound, lowerbound. cbn zeta.
  apply fold_left_pointwise. intros lb l. by rewrite add_neg_half.
Qed.

(** * The design matrix of [vb.variational] *)

Lemma length_concat_rectangular (k : nat) (M : fmat) :
  rectangular k M -> length (concat M) = (length M * k)%nat.
Proof.
  unfold rectangular. induction 1 as [| r M Hr HM IH]; cbn; [done |].
  rewrite length_app, IH, Hr. lia.
Qed.

Lemma rectangular_take (k n : nat) (M : fmat) : rectangular k M -> rectangular k (take n M).
Proof. unfold rectangular. apply Forall_take. Qed.

Lemma rectangular_drop (k n : nat) (M : fmat) : rectangular k M -> rectangular k (drop n M).
Proof. unfold rectangular. apply Forall_drop. Qed.

Lemma vb_regressor_row (y : fmat) (p t : nat) :
  t < length y ->
  vb_regressor y p !! t
  = Some (1 :: if (p <=? t)%nat then concat (take p (drop (t - p)%nat y))
               else replicate ((p - t) * ncols y)%nat 0 ++ concat (take t y)).
Proof.
  intros Ht. unfold vb_regressor, Ref.lagged. rewrite list_lookup_imap.
  destruct (lookup_lt_is_Some_2 y t Ht) as [r ->]. reflexivity.
Qed.

(** X18.  For a spike matrix with [T] bins and [N] channels the design matrix
    has [T] rows of [1 + p * N] entries, each starting with the constant
    1, whatever the order [p] is, bins before the record started
    included. *)
Theorem vb_regressor_shape (y : fmat) (p : nat) :
  rectangular (ncols y) y ->
  length (vb_regressor y p) = length y /\
  rectangular (1 + p * ncols y)%nat (vb_regressor y p) /\
  Forall (fun r => r !! 0%nat = Some 1) (vb_regressor y p).
Proof.
  intros Hy. split; [unfold vb_regressor, Ref.lagged; by rewrite length_imap |].
  assert (Hrow : forall t r, vb_regressor y p !! t = Some r ->
            length r = (1 + p * ncols y)%nat /\ r !! 0%nat = Some 1).
  { intros t r Hr.
    assert (Ht : t < length y).
    { apply lookup_lt_Some in Hr. unfold vb_regressor, Ref.lagged in Hr.
      by rewrite length_imap in Hr. }
    rewrite (vb_regressor_row y p t Ht) in Hr. inversion Hr; subst r. clear Hr.
    split; [| done]. cbn [length]. f_equal.
    destruct (p <=? t)%nat eqn:Ep.
    - apply Nat.leb_le in Ep.
      rewrite (length_concat_rectangular (ncols y))
        by (by apply rectangular_take, rectangular_drop).
      rewrite length_take, length_drop. f_equal. lia.
    - apply Nat.leb_gt in Ep.
      rewrite length_app, length_replicate.
      rewrite (length_concat_rectangular (ncols y)) by (by apply rectangular_take).
      rewrite length_take. nia. }
  split; apply Forall_lookup; intros t r Hr; by destruct (Hrow t r Hr).
Qed.

Lemma vb_regressor_shape_witness :
  vb_regressor [[1; 0]; [0; 1]; [1; 1]] 2%nat
  = [[1; 0; 0; 0; 0]; [1; 0; 0; 1; 0]; [1; 1; 0; 0; 1]] /\
  rectangular 5%nat (vb_regressor [[1; 0]; [0; 1]; [1; 1]] 2%nat).
Proof.
  split; [reflexivity |].
  apply (vb_regressor_shape [[1; 0]; [0; 1]; [1; 1]] 2%nat). repeat constructor.
Defined.

(** X19.  Row [t] of the design matrix is made of the [p] bins before bin [t]
    (fewer at the start of the record) and of nothing else: two spike
    matrices with the same number of channels that agree on those bins
    have the same row [t], whatever they hold at bin [t] and after. *)
Theorem vb_regressor_is_causal (y y' : fmat) (p t : nat) :
  t < length y -> t < length y' -> ncols y = ncols y' ->
  drop (t - p)%nat (take t y) = drop (t - p)%nat (take t y') ->
  vb_regressor y p !! t = vb_regressor y' p !! t.
Proof.
  intros Ht Ht' HN Hpast. rewrite !vb_regressor_row by done. rewrite HN.
  destruct (p <=? t)%nat eqn:Ep.
  - apply Nat.leb_le in Ep.
    assert (Hwin : forall z : fmat, take p (drop (t - p)%nat z) = drop (t - p)%nat (take t z)).
    { intros z. rewrite take_drop_commute. f_equal. f_equal. lia. }
    by rewrite !Hwin, Hpast.
  - apply Nat.leb_gt in Ep. replace (t - p)%nat with 0%nat in Hpast by lia.
    rewrite !drop_0 in Hpast. by rewrite Hpast.
Qed.

Lemma vb_regressor_is_causal_witness :
  vb_regressor [[1; 0]; [0; 1]; [1; 1]; [5; 5]] 2%nat !! 2%nat
  = vb_regressor [[1; 0]; [0; 1]; [7; 7]] 2%nat !! 2%nat.
Proof.
  apply (vb_regressor_is_causal [[1; 0]; [0; 1]; [1; 1]; [5; 5]]
           [[1; 0]; [0; 1]; [7; 7]] 2%nat 2%nat); cbn; first [lia | reflexivity].
Defined.

(** * Rounding to binary64 *)

Section RoundingError.
Local Open Scope Z_scope.

Lemma Zdigits2_bounds (m : Z) : 0 < m -> 2 ^ (Zdigits2 m - 1) <= m < 2 ^ Zdigits2 m.
Proof.
  destruct m as [| p |]; try lia. intros _. cbn [Zdigits2].
  split; [apply digits2_pos_lower | apply digits2_pos_upper].
Qed.

Lemma Zdigits2_nonneg (m : Z) : 0 <= Zdigits2 m.
Proof. destruct m; cbn; lia. Qed.

Lemma loc_of_shr_record_of_loc (m : Z) (l : location) :
  loc_of_shr_record (shr_record_of_loc m l) = l.
Proof. by destruct l as [| []]. Qed.

Lemma round_nearest_even_le (m : Z) (l : location) : round_nearest_even m l <= m + 1.
Proof. destruct l as [| []]; cbn; try destruct (Z.even m); lia. Qed.

(** The mantissa and the exponent after the shift to the canonical
    exponent. *)
Lemma shr_fexp_exact (m e : Z) (l : location) :
  0 <= m -> e <= fexp prec emax (Zdigits2 m + e) ->
  shr_m (fst (shr_fexp prec emax m e l)) = m / 2 ^ (fexp prec emax (Zdigits2 m + e) - e) /\
  snd (shr_fexp prec emax m e l) = fexp prec emax (Zdigits2 m + e) /\
  (fexp prec emax (Zdigits2 m + e) = e ->
   fst (shr_fexp prec emax m e l) = shr_record_of_loc m l).
Proof.
  intros Hm He. unfold shr_fexp, shr.
  destruct (fexp prec emax (Zdigits2 m + e) - e) as [| q | q] eqn:E; cbn [fst snd]; try lia.
  - rewrite shr_record_of_loc_m, Z.div_1_r. repeat split; lia.
  - rewrite iter_shr_1_m by (rewrite shr_record_of_loc_m; lia).
    rewrite shr_record_of_loc_m. repeat split; lia.
Qed.

(** What [binary_round_aux] returns for a mantissa [mx] at an exponent [ex]
    that is not above the canonical one, [e']: an overflow, or zero or a
    finite number which, counted in units of [2^ex], is an integer [M] at
    most [P = 2^(e' - ex)], one unit in the last place, away from every
    value between [mx] and [mx + 1]. *)
Lemma binary_round_aux_error (sx : bool) (mx ex : Z) (lx : location) :
  0 <= mx -> ex <= fexp prec emax (Zdigits2 mx + ex) ->
  let e' := fexp prec emax (Zdigits2 mx + ex) in
  let P := 2 ^ (e' - ex) in
  (binary_round_aux prec emax sx mx ex lx = S754_infinity sx /\ emax - prec <= e') \/
  exists M,
    ((binary_round_aux prec emax sx mx ex lx = S754_zero sx /\ M = 0) \/
     exists m2 e2, binary_round_aux prec emax sx mx ex lx = S754_finite sx m2 e2 /\
       ex <= e2 /\ M = Z.pos m2 * 2 ^ (e2 - ex)) /\
    M - P <= mx /\ mx + 1 <= M + P /\
    (e' = emin64 \/ 2 ^ 52 * P <= mx) /\
    (lx = loc_Exact -> e' = ex -> M = mx).
Proof.
  intros Hm He e' P.
  assert (HP : 0 < P) by (apply Z.pow_pos_nonneg; lia).
  assert (Hmin : emin64 <= e').
  { unfold e', fexp, SpecFloat.emin, prec, emax, emin64. lia. }
  remember (binary_round_aux prec emax sx mx ex lx) as r eqn:Hr.
  (* the first shift *)
  destruct (shr_fexp_exact mx ex lx Hm He) as (H1m & H1e & H1x).
  unfold binary_round_aux in Hr.
  destruct (shr_fexp prec emax mx ex lx) as [mrs1 e1] eqn:E1. cbn [fst snd] in *.
  fold e' in H1m, H1e, H1x. fold P in H1m. subst e1.
  set (m := shr_m mrs1) in *.
  assert (Hmlo : m * P <= mx) by (rewrite H1m, Z.mul_comm; apply Z.mul_div_le; lia).
  assert (Hmhi : mx < (m + 1) * P).
  { rewrite H1m, Z.mul_comm. replace (mx / P + 1) with (Z.succ (mx / P)) by lia.
    apply Z.mul_succ_div_gt. lia. }
  assert (Hm0 : 0 <= m) by (rewrite H1m; apply Z.div_pos; lia).
  (* the size of the shifted mantissa *)
  assert (Hbig : e' = emin64 \/ 2 ^ 52 * P <= mx).
  { destruct (Z.eq_dec e' emin64) as [-> | Hne]; [by left | right].
    assert (Hd : e' = Zdigits2 mx + ex - 53).
    { unfold e', fexp, SpecFloat.emin, prec, emax, emin64 in *. lia. }
    assert (Hpos : 0 < mx).
    { destruct (Z.eq_dec mx 0) as [-> | ?]; [| lia]. cbn in Hd. lia. }
    pose proof (Zdigits2_bounds mx Hpos) as [Hlo _].
    unfold P. rewrite <- Z.pow_add_r by lia.
    replace (52 + (e' - ex)) with (Zdigits2 mx - 1) by lia. exact Hlo. }
  assert (Hsmall : m < 2 ^ 53).
  { destruct (Z.eq_dec mx 0) as [Hz | Hnz].
    - rewrite H1m, Hz, Z.div_0_l by lia. lia.
    - pose proof (Zdigits2_bounds mx ltac:(lia)) as [_ Hhi].
      assert (Hd : Zdigits2 mx <= 53 + (e' - ex)).
      { unfold e', fexp, SpecFloat.emin, prec, emax, emin64 in *. lia. }
      rewrite H1m. apply Z.div_lt_upper_bound; [lia |].
      unfold P. rewrite Z.mul_comm, <- Z.pow_add_r by lia.
      eapply Z.lt_le_trans; [exact Hhi |]. apply Z.pow_le_mono_r; lia. }
  (* rounding *)
  set (m1 := round_nearest_even m (loc_of_shr_record mrs1)) in *.
  pose proof (round_nearest_even_ge m (loc_of_shr_record mrs1)) as Hge.
  pose proof (round_nearest_even_le m (loc_of_shr_record mrs1)) as Hle.
  fold m1 in Hge, Hle.
  assert (Hexact : lx = loc_Exact -> e' = ex -> m1 = mx).
  { intros -> Hee. unfold m1, m. rewrite (H1x Hee). reflexivity. }
  assert (Hunit : e' = ex -> P = 1) by (intros Hee; unfold P; by rewrite Hee, Z.sub_diag).
  (* the second shift *)
  assert (H2 : (m1 < 2 ^ 53 /\ fexp prec emax (Zdigits2 m1 + e') - e' <= 0) \/
               (m1 = 2 ^ 53 /\ fexp prec emax (Zdigits2 m1 + e') - e' = 1)).
  { destruct (Z.eq_dec m1 (2 ^ 53)) as [-> | Hne].
    - right. split; [done |]. change (Zdigits2 (2 ^ 53)) with 54.
      unfold fexp, SpecFloat.emin, prec, emax, emin64 in *. lia.
    - left. split; [lia |].
      destruct (Z.eq_dec m1 0) as [-> | Hnz].
      + cbn [Zdigits2]. unfold fexp, SpecFloat.emin, prec, emax, emin64 in *. lia.
      + pose proof (Zdigits2_bounds m1 ltac:(lia)) as [Hlo _].
        assert (Zdigits2 m1 - 1 < 53).
        { apply (Z.pow_lt_mono_r_iff 2); lia. }
        unfold fexp, SpecFloat.emin, prec, emax, emin64 in *. lia. }
  unfold shr_fexp, shr in Hr.
  destruct H2 as [[Hlt Hn2] | [Heq Hn2]].
  - (* no second shift *)
    assert (Hr' : r = match m1 with
                      | 0 => S754_zero sx
                      | Z.pos p1 => if e' <=? emax - prec then S754_finite sx p1 e'
                                    else S754_infinity sx
                      | Z.neg _ => S754_nan
                      end).
    { destruct (fexp prec emax (Zdigits2 m1 + e') - e') as [| q | q]; try lia;
        by rewrite shr_record_of_loc_m in Hr. }
    clear Hr. destruct m1 as [| p1 |] eqn:Em1; try lia.
    + right. exists 0. split; [by left |]. repeat split; try lia; try done;
        try (intros Hx Hee; by rewrite <- (Hexact Hx Hee)).
    + destruct (e' <=? emax - prec) eqn:Eov;
        [| left; split; [done | apply Z.leb_gt in Eov; lia]].
      right. exists (Z.pos p1 * P). split.
      * right. exists p1, e'. repeat split; [done | lia].
      * repeat split; try nia; try done;
          try (intros Hx Hee; rewrite <- (Hexact Hx Hee), (Hunit Hee); lia).
  - (* the mantissa was rounded up to [2^53] *)
    rewrite Hn2 in Hr. cbn [SpecFloat.iter_pos] in Hr.
    rewrite shr_1_m in Hr by (rewrite shr_record_of_loc_m; lia).
    rewrite shr_record_of_loc_m, Heq in Hr.
    change (2 ^ 53 / 2) with (Z.pos (2 ^ 52)%positive) in Hr. cbv iota in Hr.
    destruct (e' + 1 <=? emax - prec) eqn:Eov;
      [| left; split; [done | apply Z.leb_gt in Eov; lia]].
    right. exists (m1 * P). split.
    + right. exists (2 ^ 52)%positive, (e' + 1). repeat split; [done | lia |].
      rewrite Heq. unfold P. replace (e' + 1 - ex) with (1 + (e' - ex)) by lia.
      rewrite Z.pow_add_r by lia. lia.
    + repeat split; try nia; try done;
        try (intros Hx Hee; rewrite <- (Hexact Hx Hee), (Hunit Hee); lia).
Qed.
End RoundingError.

(** * Rounding errors in real numbers *)

Section Bpow.
Local Open Scope R_scope.

Lemma bpow_pos (e : Z) : 0 < bpow e.
Proof. apply powerRZ_lt. lra. Qed.

Lemma bpow_add (a b : Z) : bpow (a + b) = bpow a * bpow b.
Proof. apply powerRZ_add. lra. Qed.

Lemma bpow_IZR (k : Z) : (0 <= k)%Z -> IZR (2 ^ k) = bpow k.
Proof.
  intros Hk. unfold bpow. rewrite <- (Z2Nat.id k Hk) at 1 2.
  by rewrite <- pow_IZR, pow_powerRZ.
Qed.

Lemma bpow_ge_1 (k : Z) : (0 <= k)%Z -> 1 <= bpow k.
Proof.
  intros Hk. rewrite <- bpow_IZR by done. apply IZR_le.
  assert (0 < 2 ^ k)%Z by (apply Z.pow_pos_nonneg; lia). lia.
Qed.

Lemma bpow_le (a b : Z) : (a <= b)%Z -> bpow a <= bpow b.
Proof.
  intros Hab. replace b with (a + (b - a))%Z by lia. rewrite bpow_add.
  pose proof (bpow_pos a). pose proof (bpow_ge_1 (b - a) ltac:(lia)). nra.
Qed.

Lemma bpow_0 : bpow 0 = 1.
Proof. reflexivity. Qed.
End Bpow.

Section RoundingReal.
Local Open Scope R_scope.

(** [binary_round_aux] in real numbers: unless it overflows, the result is
    within one unit in the last place, [2^e'], of every real number [v]
    between [mx * 2^ex] and [(mx + 1) * 2^ex]. *)
Lemma binary_round_aux_real (sx : bool) (mx ex : Z) (lx : location) (v : R) :
  (0 <= mx)%Z -> (ex <= fexp prec emax (Zdigits2 mx + ex))%Z ->
  IZR mx * bpow ex <= v <= IZR (mx + 1) * bpow ex ->
  let e' := fexp prec emax (Zdigits2 mx + ex) in
  let r := binary_round_aux prec emax sx mx ex lx in
  (r = S754_infinity sx /\ (emax - prec <= e')%Z) \/
  exists W : R,
    SF2R r = (if sx then - W else W) /\ sf_finite r /\
    Rabs (W - v) <= bpow e' /\
    (e' = emin64 \/ bpow (52 + e') <= v) /\
    (lx = loc_Exact -> e' = ex -> W = IZR mx * bpow ex).
Proof.
  intros Hm He [Hlo Hhi] e' r.
  destruct (binary_round_aux_error sx mx ex lx Hm He)
    as [Hinf | (M & Hres & HM1 & HM2 & Hbig & Hex)]; [by left | right].
  fold e' in HM1, HM2, Hbig, Hex. fold r in Hres.
  exists (IZR M * bpow ex).
  assert (HP : IZR (2 ^ (e' - ex)) * bpow ex = bpow e').
  { rewrite bpow_IZR by (unfold e'; lia). rewrite <- bpow_add. f_equal. lia. }
  pose proof (bpow_pos ex) as Hb.
  split; [| split; [| split; [| split]]].
  - destruct Hres as [[-> ->] | (m2 & e2 & -> & He2 & ->)]; cbn [SF2R].
    + destruct sx; lra.
    + rewrite mult_IZR, bpow_IZR by lia.
      replace (bpow e2) with (bpow (e2 - ex) * bpow ex)
        by (rewrite <- bpow_add; f_equal; lia).
      destruct sx; ring.
  - by destruct Hres as [[-> _] | (m2 & e2 & -> & _)].
  - apply IZR_le in HM1, HM2. rewrite minus_IZR in HM1. rewrite !plus_IZR in HM2.
    rewrite plus_IZR in Hhi.
    apply Rabs_le. rewrite <- HP. split; nra.
  - destruct Hbig as [Hbig | Hbig]; [by left | right].
    apply IZR_le in Hbig. rewrite mult_IZR in Hbig.
    rewrite bpow_add, <- (bpow_IZR 52), <- HP by lia.
    set (p := IZR (2 ^ (e' - ex))) in *. set (c := IZR (2 ^ 52)) in *.
    apply Rle_trans with (IZR mx * bpow ex); [| exact Hlo].
    rewrite <- Rmult_assoc. apply Rmult_le_compat_r; lra.
  - intros Hx Hee. by rewrite (Hex Hx Hee).
Qed.
End RoundingReal.

Section Operations.
Local Open Scope R_scope.

Lemma digits2_pos_iter_xO (m d : positive) :
  Z.pos (digits2_pos (Pos.iter xO m d)) = (Z.pos (digits2_pos m) + Z.pos d)%Z.
Proof.
  induction d as [| d IH] using Pos.peano_ind.
  - cbn. lia.
  - rewrite Pos.iter_succ. cbn [digits2_pos]. rewrite Pos2Z.inj_succ, IH. lia.
Qed.

(** Aligning a mantissa to a lower exponent keeps the value and the
    position of the leading digit. *)
Lemma shl_align_spec (m : positive) (ex ez : Z) :
  let '(m', e') := shl_align m ex ez in
  e' = Z.min ex ez /\ Z.pos m' = (Z.pos m * 2 ^ (ex - e'))%Z /\
  (Z.pos (digits2_pos m') + e' = Z.pos (digits2_pos m) + ex)%Z.
Proof.
  unfold shl_align. destruct (ez - ex)%Z as [| d | d] eqn:E.
  - replace (ex - ex)%Z with 0%Z by lia. repeat split; lia.
  - replace (ex - ex)%Z with 0%Z by lia. repeat split; lia.
  - rewrite iter_xO, digits2_pos_iter_xO.
    replace (ex - ez)%Z with (Z.pos d) by lia. repeat split; lia.
Qed.

(** Rounding an integer multiple of a power of two, not below the least
    exponent: the relative error is at most [2^-52]. *)
Lemma binary_round_real (sx : bool) (m : positive) (e : Z) :
  (emin64 <= e)%Z ->
  let r := binary_round prec emax sx m e in
  (r = S754_infinity sx /\ (emax - prec <= fexp prec emax (Z.pos (digits2_pos m) + e))%Z) \/
  exists W : R,
    SF2R r = (if sx then - W else W) /\ sf_finite r /\
    Rabs (W - IZR (Z.pos m) * bpow e) <= bpow (-52) * (IZR (Z.pos m) * bpow e).
Proof.
  intros He r. unfold binary_round in r.
  pose proof (shl_align_spec m e (fexp prec emax (Z.pos (digits2_pos m) + e))) as Hal.
  destruct (shl_align m e _) as [mz ez] eqn:Eal. destruct Hal as (Hez & Hmz & Hdig).
  set (v := IZR (Z.pos m) * bpow e).
  assert (Hv : IZR (Z.pos mz) * bpow ez = v).
  { unfold v. rewrite Hmz, mult_IZR, bpow_IZR by lia.
    rewrite Rmult_assoc, <- bpow_add. do 2 f_equal. lia. }
  assert (Hfexp : fexp prec emax (Zdigits2 (Z.pos mz) + ez)
                  = fexp prec emax (Z.pos (digits2_pos m) + e)).
  { cbn [Zdigits2]. by rewrite Hdig. }
  assert (Hcan : (ez <= fexp prec emax (Zdigits2 (Z.pos mz) + ez))%Z) by lia.
  assert (Hmin : (emin64 <= ez)%Z).
  { unfold fexp, SpecFloat.emin, prec, emax, emin64 in *. lia. }
  pose proof (bpow_pos ez) as Hbz.
  destruct (binary_round_aux_real sx (Z.pos mz) ez loc_Exact v ltac:(lia) Hcan)
    as [[Hinf Hov] | (W & HW & Hfin & Herr & Hbig & Hex)].
  { rewrite plus_IZR, <- Hv. split; [lra | nra]. }
  { left. split; [exact Hinf | by rewrite <- Hfexp]. }
  right. exists W. fold r in HW, Hfin. split; [exact HW |]. split; [exact Hfin |].
  set (e' := fexp prec emax (Zdigits2 (Z.pos mz) + ez)) in *.
  assert (Hvpos : 0 < v).
  { unfold v. apply Rmult_lt_0_compat; [apply IZR_lt; lia | apply bpow_pos]. }
  destruct Hbig as [Hbig | Hbig].
  - assert (Hee : e' = ez) by lia.
    rewrite (Hex eq_refl Hee), Hv, Rminus_diag, Rabs_R0.
    pose proof (bpow_pos (-52)). nra.
  - eapply Rle_trans; [exact Herr |].
    replace e' with (-52 + (52 + e'))%Z by lia. rewrite bpow_add.
    pose proof (bpow_pos (-52)). nra.
Qed.

Lemma binary_normalize_real (z ez : Z) :
  (emin64 <= ez)%Z -> sf_finite (binary_normalize prec emax z ez false) ->
  Rabs (SF2R (binary_normalize prec emax z ez false) - IZR z * bpow ez)
  <= bpow (-52) * Rabs (IZR z * bpow ez).
Proof.
  intros He Hfin. pose proof (bpow_pos (-52)) as Hu. pose proof (bpow_pos ez) as Hb.
  destruct z as [| p | p]; cbn [binary_normalize] in *.
  - cbn [SF2R]. rewrite Rmult_0_l, Rminus_diag, Rabs_R0. lra.
  - destruct (binary_round_real false p ez He) as [[Hinf _] | (W & HW & _ & Herr)];
      [by rewrite Hinf in Hfin |].
    rewrite HW. assert (0 < IZR (Z.pos p)) by (apply IZR_lt; lia).
    rewrite (Rabs_pos_eq (IZR (Z.pos p) * bpow ez)) by nra. exact Herr.
  - destruct (binary_round_real true p ez He) as [[Hinf _] | (W & HW & _ & Herr)];
      [by rewrite Hinf in Hfin |].
    rewrite HW. assert (0 < IZR (Z.pos p)) by (apply IZR_lt; lia).
    change (Z.neg p) with (- Z.pos p)%Z. rewrite opp_IZR.
    replace (- W - - IZR (Z.pos p) * bpow ez) with (- (W - IZR (Z.pos p) * bpow ez)) by ring.
    replace (- IZR (Z.pos p) * bpow ez) with (- (IZR (Z.pos p) * bpow ez)) by ring.
    rewrite !Rabs_Ropp. rewrite (Rabs_pos_eq (IZR (Z.pos p) * bpow ez)) by nra. exact Herr.
Qed.

(** The value of an aligned operand. *)
Lemma aligned_value (s : bool) (m : positive) (ex ez : Z) :
  (ez <= ex)%Z ->
  IZR (cond_Zopp s (Z.pos (fst (shl_align m ex ez)))) * bpow ez
  = SF2R (S754_finite s m ex).
Proof.
  intros Hle. rewrite shl_align_value by done. cbn [SF2R].
  replace (bpow ex) with (bpow (ex - ez) * bpow ez) by (rewrite <- bpow_add; f_equal; lia).
  rewrite <- (bpow_IZR (ex - ez)) by lia.
  destruct s; cbn [cond_Zopp]; rewrite ?opp_IZR, mult_IZR; ring.
Qed.

(** Addition and subtraction: when the result is finite, so are the
    operands, and the relative error is at most [2^-52]. *)
Lemma SFadd_real (x y : spec_float) :
  sf_valid x -> sf_valid y -> sf_finite (SF64add x y) ->
  sf_finite x /\ sf_finite y /\
  Rabs (SF2R (SF64add x y) - (SF2R x + SF2R y)) <= bpow (-52) * Rabs (SF2R x + SF2R y).
Proof.
  pose proof (bpow_pos (-52)) as Hu.
  assert (Hz : forall a, Rabs (a - (0 + a)) <= bpow (-52) * Rabs (0 + a)).
  { intros a. replace (a - (0 + a)) with 0 by ring. rewrite Rabs_R0.
    pose proof (Rabs_pos (0 + a)). nra. }
  assert (Hz' : forall a, Rabs (a - (a + 0)) <= bpow (-52) * Rabs (a + 0)).
  { intros a. replace (a - (a + 0)) with 0 by ring. rewrite Rabs_R0.
    pose proof (Rabs_pos (a + 0)). nra. }
  destruct x as [[] | [] | | sx mx ex], y as [[] | [] | | sy my ey];
    cbn -[bpow shl_align]; intros Hx Hy Hfin; try done;
    try (repeat split; try done; first [apply Hz | apply Hz']).
  pose proof (binary_normalize_real _ (Z.min ex ey) ltac:(lia) Hfin) as Herr.
  rewrite plus_IZR, Rmult_plus_distr_r, !aligned_value in Herr by lia.
  split; [done |]. split; [done | exact Herr].
Qed.

Lemma SFsub_real (x y : spec_float) :
  sf_valid x -> sf_valid y -> sf_finite (SF64sub x y) ->
  sf_finite x /\ sf_finite y /\
  Rabs (SF2R (SF64sub x y) - (SF2R x - SF2R y)) <= bpow (-52) * Rabs (SF2R x - SF2R y).
Proof.
  pose proof (bpow_pos (-52)) as Hu.
  assert (Hz : forall a b, a = b -> Rabs (a - b) <= bpow (-52) * Rabs b).
  { intros a b ->. rewrite Rminus_diag, Rabs_R0. pose proof (Rabs_pos b). nra. }
  destruct x as [[] | [] | | sx mx ex], y as [[] | [] | | sy my ey];
    cbn -[bpow shl_align]; intros Hx Hy Hfin; try done;
    try (repeat split; try done; apply Hz; try destruct sy; cbn; ring).
  pose proof (binary_normalize_real _ (Z.min ex ey) ltac:(lia) Hfin) as Herr.
  rewrite minus_IZR, Rmult_minus_distr_r, !aligned_value in Herr by lia.
  split; [done |]. split; [done | exact Herr].
Qed.
End Operations.

Section Division.
Local Open Scope R_scope.

(** The quotient the division starts from: an integer [q] at an exponent
    [e'] not above the canonical one, with the exact quotient between
    [q * 2^e'] and [(q + 1) * 2^e']. *)
Lemma SFdiv_core_real (mx my : positive) (ex ey : Z) :
  let '(q, e', l) := SFdiv_core_binary prec emax (Z.pos mx) ex (Z.pos my) ey in
  let v := IZR (Z.pos mx) * bpow ex / (IZR (Z.pos my) * bpow ey) in
  (0 <= q)%Z /\ (e' <= fexp prec emax (Zdigits2 q + e'))%Z /\
  IZR q * bpow e' <= v <= IZR (q + 1) * bpow e'.
Proof.
  unfold SFdiv_core_binary.
  set (d1 := Zdigits2 (Z.pos mx)). set (d2 := Zdigits2 (Z.pos my)).
  set (e' := Z.min (fexp prec emax (d1 + ex - (d2 + ey))) (ex - ey)).
  set (s := (ex - ey - e')%Z).
  assert (Hs : (0 <= s)%Z) by (unfold s, e'; lia).
  set (m' := match s with Z.pos _ => Z.shiftl (Z.pos mx) s | 0%Z => Z.pos mx | _ => 0%Z end).
  assert (Hm' : m' = (Z.pos mx * 2 ^ s)%Z).
  { unfold m'. destruct s as [| p | p] eqn:Es; try lia.
    by rewrite Z.shiftl_mul_pow2 by lia. }
  pose proof (Z_div_mod m' (Z.pos my) ltac:(lia)) as Hdiv.
  destruct (Z.div_eucl m' (Z.pos my)) as [q r]. destruct Hdiv as [Heq Hr].
  assert (Hpow : (0 < 2 ^ s)%Z) by (apply Z.pow_pos_nonneg; lia).
  assert (Hq : (0 <= q)%Z) by nia.
  split; [exact Hq |]. split.
  - (* the quotient has 53 digits unless the exponent is the least one *)
    destruct (Z_le_gt_dec e' emin64) as [Hle | Hgt].
    + unfold fexp, SpecFloat.emin, prec, emax, emin64 in *. lia.
    + assert (Hs' : (53 + d2 - d1 <= s)%Z).
      { unfold s, e', fexp, SpecFloat.emin, prec, emax, emin64 in *. lia. }
      pose proof (Zdigits2_bounds (Z.pos mx) ltac:(lia)) as [H1 _].
      pose proof (Zdigits2_bounds (Z.pos my) ltac:(lia)) as [_ H2].
      fold d1 in H1. fold d2 in H2.
      assert (Hd1 : (0 < d1)%Z) by (unfold d1; cbn; lia).
      assert (Hd2 : (0 < d2)%Z) by (unfold d2; cbn; lia).
      assert (Hbig : (2 ^ 52 * Z.pos my <= m')%Z).
      { rewrite Hm'.
        apply Z.le_trans with (2 ^ (d1 - 1) * 2 ^ s)%Z; [| nia].
        rewrite <- Z.pow_add_r by lia.
        apply Z.le_trans with (2 ^ 52 * 2 ^ d2)%Z; [nia |].
        rewrite <- Z.pow_add_r by lia. apply Z.pow_le_mono_r; lia. }
      assert (Hq52 : (2 ^ 52 <= q)%Z) by nia.
      pose proof (Zdigits2_bounds q ltac:(lia)) as [_ H3].
      assert (52 < Zdigits2 q)%Z.
      { apply (Z.pow_lt_mono_r_iff 2); [lia | apply Zdigits2_nonneg | lia]. }
      unfold fexp, SpecFloat.emin, prec, emax, emin64 in *. lia.
  - pose proof (bpow_pos e') as He'. pose proof (bpow_pos ey) as Hey.
    assert (Ha : 0 < IZR (Z.pos my)) by (apply IZR_lt; lia).
    assert (Hv : IZR (Z.pos mx) * bpow ex / (IZR (Z.pos my) * bpow ey)
                 = IZR m' / IZR (Z.pos my) * bpow e').
    { rewrite Hm', mult_IZR, bpow_IZR by lia.
      replace (bpow ex) with (bpow s * bpow e' * bpow ey)
        by (rewrite <- !bpow_add; f_equal; unfold s; lia).
      field. lra. }
    rewrite Hv. apply (f_equal IZR) in Heq. rewrite plus_IZR, mult_IZR in Heq.
    destruct Hr as [Hr0 Hr1]. apply IZR_le in Hr0. apply IZR_lt in Hr1.
    rewrite plus_IZR.
    assert (Hquo : IZR q <= IZR m' / IZR (Z.pos my) <= IZR q + 1).
    { rewrite Heq. split.
      - apply Rmult_le_reg_r with (IZR (Z.pos my)); [lra |].
        unfold Rdiv. rewrite Rmult_assoc, Rinv_l by lra. lra.
      - apply Rmult_le_reg_r with (IZR (Z.pos my)); [lra |].
        unfold Rdiv. rewrite Rmult_assoc, Rinv_l by lra. lra. }
    split; apply Rmult_le_compat_r; lra.
Qed.

(** Division: when the result is finite and the divisor is, the error is
    at most [2^-52] of the quotient, or at most [2^-1074]. *)
Lemma SFdiv_real (x y : spec_float) :
  sf_finite y -> sf_finite (SF64div x y) ->
  sf_finite x /\ SF2R y <> 0 /\
  (Rabs (SF2R (SF64div x y) - SF2R x / SF2R y) <= bpow (-52) * Rabs (SF2R x / SF2R y) \/
   Rabs (SF2R (SF64div x y) - SF2R x / SF2R y) <= bpow (-1074)).
Proof.
  pose proof (bpow_pos (-52)) as Hu.
  destruct x as [sx | sx | | sx mx ex], y as [sy | sy | | sy my ey];
    cbn -[bpow SFdiv_core_binary]; intros Hy Hfin; try done.
  - pose proof (bpow_pos ey). assert (0 < IZR (Z.pos my)) by (apply IZR_lt; lia).
    split; [done |]. split; [destruct sy; nra |]. left.
    unfold Rdiv. rewrite Rmult_0_l, Rminus_diag, Rabs_R0. lra.
  - pose proof (SFdiv_core_real mx my ex ey) as Hcore.
    destruct (SFdiv_core_binary prec emax (Z.pos mx) ex (Z.pos my) ey) as [[q e'] l].
    destruct Hcore as (Hq & Hcan & Hv).
    set (v := IZR (Z.pos mx) * bpow ex / (IZR (Z.pos my) * bpow ey)) in *.
    pose proof (bpow_pos ey) as Hey. pose proof (bpow_pos ex) as Hex.
    assert (Ha : 0 < IZR (Z.pos my)) by (apply IZR_lt; lia).
    assert (Hb : 0 < IZR (Z.pos mx)) by (apply IZR_lt; lia).
    assert (Hvpos : 0 < v) by (unfold v; apply Rdiv_lt_0_compat; nra).
    split; [done |]. split; [destruct sy; nra |].
    destruct (binary_round_aux_real (xorb sx sy) q e' l v Hq Hcan Hv)
      as [[Hinf _] | (W & HW & _ & Herr & Hbig & _)];
      [by rewrite Hinf in Hfin |].
    rewrite HW.
    assert (Hquo : (if sx then -1 else 1) * IZR (Z.pos mx) * bpow ex
                   / ((if sy then -1 else 1) * IZR (Z.pos my) * bpow ey)
                   = if xorb sx sy then - v else v).
    { unfold v. destruct sx, sy; cbn [xorb]; field; lra. }
    rewrite Hquo.
    assert (Habs : Rabs ((if xorb sx sy then - W else W) - (if xorb sx sy then - v else v))
                   = Rabs (W - v)).
    { destruct (xorb sx sy); [| done].
      replace (- W - - v) with (- (W - v)) by ring. apply Rabs_Ropp. }
    assert (Habsv : Rabs (if xorb sx sy then - v else v) = v).
    { destruct (xorb sx sy); [rewrite Rabs_Ropp |]; apply Rabs_pos_eq; lra. }
    rewrite Habs, Habsv.
    destruct Hbig as [Hbig | Hbig].
    + right. by rewrite Hbig in Herr.
    + left. eapply Rle_trans; [exact Herr |].
      replace (fexp prec emax (Zdigits2 q + e')) with
        (-52 + (52 + fexp prec emax (Zdigits2 q + e')))%Z by lia.
      rewrite bpow_add. nra.
Qed.
End Division.

(** * Rounding errors of the operations on doubles *)

Section FloatErrors.
Local Open Scope R_scope.

Lemma is_finite_SF (x : float) : is_finite x = true <-> sf_finite (Prim2SF x).
Proof.
  unfold is_finite, is_nan, is_infinity.
  rewrite !FloatAxioms.eqb_spec, abs_spec.
  change (Prim2SF infinity) with (S754_infinity false).
  destruct (Prim2SF x) as [[] | [] | | [] m e]; cbn; try done;
    rewrite Z.compare_refl; change (Pos.compare_cont Eq m m) with (m ?= m)%positive;
    by rewrite Pos.compare_refl.
Qed.

Lemma Prim2SF_sf_valid (x : float) : sf_valid (Prim2SF x).
Proof.
  pose proof (Prim2SF_valid x) as Hv. destruct (Prim2SF x) as [| | | s m e]; try done.
  by destruct (valid_finite s m e Hv).
Qed.

Lemma add_error (x y : float) :
  is_finite (x + y) = true ->
  is_finite x = true /\ is_finite y = true /\
  Rabs (value (x + y) - (value x + value y)) <= bpow (-52) * Rabs (value x + value y).
Proof.
  rewrite !is_finite_SF. unfold value. rewrite add_spec.
  apply SFadd_real; apply Prim2SF_sf_valid.
Qed.

Lemma sub_error (x y : float) :
  is_finite (x - y) = true ->
  is_finite x = true /\ is_finite y = true /\
  Rabs (value (x - y) - (value x - value y)) <= bpow (-52) * Rabs (value x - value y).
Proof.
  rewrite !is_finite_SF. unfold value. rewrite sub_spec.
  apply SFsub_real; apply Prim2SF_sf_valid.
Qed.

Lemma div_error (x y : float) :
  is_finite y = true -> is_finite (x / y) = true ->
  is_finite x = true /\ value y <> 0 /\
  (Rabs (value (x / y) - value x / value y) <= bpow (-52) * Rabs (value x / value y) \/
   Rabs (value (x / y) - value x / value y) <= bpow (-1074)).
Proof.
  rewrite !is_finite_SF. unfold value. rewrite div_spec. apply SFdiv_real.
Qed.

(** The conversion of a positive integer below [2^63]. *)
Lemma float_of_nat_error (n : nat) :
  (1 <= n)%nat -> (Z.of_nat n < 2 ^ 63)%Z ->
  is_finite (float_of_nat n) = true /\
  Rabs (value (float_of_nat n) - INR n) <= bpow (-52) * INR n.
Proof.
  intros H1 H63. unfold float_of_nat, float_of_Z.
  destruct (Z.of_nat n) as [| p | p] eqn:En; try lia.
  rewrite is_finite_SF. unfold value. rewrite of_uint63_spec, Uint63.of_Z_spec.
  rewrite Z.mod_small by (change Uint63.wB with (2 ^ 63)%Z; lia).
  cbn [binary_normalize].
  assert (Hn : INR n = IZR (Z.pos p) * bpow 0).
  { rewrite INR_IZR_INZ, En, bpow_0. ring. }
  destruct (binary_round_real false p 0 ltac:(unfold emin64; lia))
    as [[_ Hov] | (W & HW & Hfin & Herr)].
  - exfalso. pose proof (digits2_pos_lower p) as Hlo.
    assert (Z.pos (digits2_pos p) - 1 < 63)%Z.
    { apply (Z.pow_lt_mono_r_iff 2); lia. }
    unfold fexp, SpecFloat.emin, prec, emax in Hov. lia.
  - split; [exact Hfin |]. rewrite HW, Hn. exact Herr.
Qed.
End FloatErrors.

(** * Sums and Euclidean norms of real vectors *)

Section RealVectors.
Local Open Scope R_scope.
Context {A : Type}.
Implicit Types (f g : A -> R) (l : list A).

Lemma sumsq_cons (x : R) (a : list R) : sumsq (x :: a) = x * x + sumsq a.
Proof. reflexivity. Qed.
Lemma sumprod_cons f g (x : A) l : sumprod f g (x :: l) = f x * g x + sumprod f g l.
Proof. reflexivity. Qed.
Lemma sumR_cons (x : R) (a : list R) : sumR (x :: a) = x + sumR a.
Proof. reflexivity. Qed.

Lemma sumsq_nonneg (a : list R) : 0 <= sumsq a.
Proof. induction a as [| x a IH]; [cbn; lra | rewrite sumsq_cons; nra]. Qed.

Lemma norm2R_nonneg (a : list R) : 0 <= norm2R a.
Proof. apply sqrt_pos. Qed.

Lemma norm2R_sq (a : list R) : norm2R a * norm2R a = sumsq a.
Proof. apply sqrt_sqrt, sumsq_nonneg. Qed.

Lemma sq_abs (x : R) : Rabs x * Rabs x = x * x.
Proof. pose proof (Rsqr_abs x) as Hs. unfold Rsqr in Hs. lra. Qed.

Lemma sumsq_mono f g l :
  (forall x, In x l -> Rabs (f x) <= g x) -> sumsq (map f l) <= sumsq (map g l).
Proof.
  induction l as [| x l IH]; intros Hle; [cbn; lra |].
  cbn [map]. rewrite !sumsq_cons.
  assert (Hx := Hle x (or_introl eq_refl)).
  assert (Hl := IH (fun y Hy => Hle y (or_intror Hy))).
  pose proof (Rabs_pos (f x)). pose proof (sq_abs (f x)). nra.
Qed.

Lemma norm2R_mono f g l :
  (forall x, In x l -> Rabs (f x) <= g x) -> norm2R (map f l) <= norm2R (map g l).
Proof. intros Hle. apply sqrt_le_1_alt. by apply sumsq_mono. Qed.

Lemma norm2R_abs f l : norm2R (map (fun x => Rabs (f x)) l) = norm2R (map f l).
Proof.
  unfold norm2R. fold (sumsq (map (fun x => Rabs (f x)) l)). fold (sumsq (map f l)). f_equal.
  induction l as [| x l IH]; [done |].
  cbn [map]. by rewrite !sumsq_cons, IH, sq_abs.
Qed.

Lemma sumsq_scale (k : R) f l :
  sumsq (map (fun x => k * f x) l) = k * k * sumsq (map f l).
Proof.
  induction l as [| x l IH]; [cbn; lra |]. cbn [map]. rewrite !sumsq_cons, IH. ring.
Qed.

Lemma norm2R_scale (k : R) f l :
  0 <= k -> norm2R (map (fun x => k * f x) l) = k * norm2R (map f l).
Proof.
  intros Hk. unfold norm2R. fold (sumsq (map (fun x => k * f x) l)). fold (sumsq (map f l)).
  rewrite sumsq_scale.
  rewrite sqrt_mult by (try apply sumsq_nonneg; nra). by rewrite sqrt_square.
Qed.

Lemma sumsq_const (c : R) l : sumsq (map (fun _ => c) l) = INR (length l) * (c * c).
Proof.
  induction l as [| x l IH]; [cbn; lra |].
  cbn [map length]. rewrite S_INR, sumsq_cons, IH. ring.
Qed.

Lemma norm2R_const (c : R) l :
  0 <= c -> norm2R (map (fun _ => c) l) <= INR (length l) * c.
Proof.
  intros Hc. unfold norm2R. fold (sumsq (map (fun _ : A => c) l)). rewrite sumsq_const.
  pose proof (pos_INR (length l)) as Hn.
  destruct l as [| x l]; [cbn; rewrite Rmult_0_l, sqrt_0; lra |].
  assert (1 <= INR (length (x :: l))).
  { cbn [length]. rewrite S_INR. pose proof (pos_INR (length l)). lra. }
  rewrite <- (sqrt_square (INR (length (x :: l)) * c)) by nra.
  apply sqrt_le_1_alt. nra.
Qed.

(** The inequality of Cauchy and Schwarz. *)
Lemma cauchy_schwarz f g l :
  sumprod f g l * sumprod f g l <= sumsq (map f l) * sumsq (map g l).
Proof.
  induction l as [| x l IH]; [cbn; lra |].
  cbn [map]. rewrite !sumsq_cons, sumprod_cons.
  set (S := sumprod f g l) in *. set (P := sumsq (map f l)) in *.
  set (Q := sumsq (map g l)) in *. set (a := f x). set (b := g x).
  pose proof (sumsq_nonneg (map f l)) as HP. pose proof (sumsq_nonneg (map g l)) as HQ.
  fold P in HP. fold Q in HQ.
  set (X := a * a * Q + b * b * P). set (Y := 2 * a * b * S).
  assert (HX : 0 <= X) by (unfold X; nra).
  assert (HYX : Y * Y <= X * X).
  { unfold X, Y.
    assert (H1 : 0 <= (a * a * Q - b * b * P) * (a * a * Q - b * b * P))
      by apply (Rle_0_sqr (a * a * Q - b * b * P)).
    assert (H2 : 0 <= (a * b) * (a * b) * (P * Q - S * S)).
    { apply Rmult_le_pos; nra. }
    nra. }
  assert (HY : Y <= X) by nra.
  unfold X, Y in HY. nra.
Qed.

(** The triangle inequality. *)
Lemma norm2R_triangle f g l :
  norm2R (map (fun x => f x + g x) l) <= norm2R (map f l) + norm2R (map g l).
Proof.
  pose proof (norm2R_nonneg (map f l)) as Hf. pose proof (norm2R_nonneg (map g l)) as Hg.
  pose proof (norm2R_sq (map f l)) as Hf2. pose proof (norm2R_sq (map g l)) as Hg2.
  set (nf := norm2R (map f l)) in *. set (ng := norm2R (map g l)) in *.
  rewrite <- (sqrt_square (nf + ng)) by lra.
  apply sqrt_le_1_alt. fold (sumsq (map (fun x => f x + g x) l)).
  assert (Hexp : sumsq (map (fun x => f x + g x) l)
                 = sumsq (map f l) + 2 * sumprod f g l + sumsq (map g l)).
  { clear. induction l as [| x l IH]; [cbn; lra |].
    cbn [map]. rewrite !sumsq_cons, sumprod_cons, IH. ring. }
  rewrite Hexp, <- Hf2, <- Hg2.
  pose proof (cauchy_schwarz f g l) as Hcs. rewrite <- Hf2, <- Hg2 in Hcs.
  assert (Hs : sumprod f g l <= nf * ng).
  { assert (0 <= nf * ng) by nra.
    destruct (Rle_or_lt (sumprod f g l) (nf * ng)) as [? | Hgt]; [done | exfalso].
    assert (nf * ng * (nf * ng) < sumprod f g l * sumprod f g l) by nra. nra. }
  nra.
Qed.

Lemma sumR_map_plus f g l :
  sumR (map (fun x => f x + g x) l) = sumR (map f l) + sumR (map g l).
Proof.
  induction l as [| x l IH]; [cbn; lra |]. cbn [map]. rewrite !sumR_cons, IH. ring.
Qed.

Lemma sumR_map_const (c : R) l : sumR (map (fun _ => c) l) = INR (length l) * c.
Proof.
  induction l as [| x l IH]; [cbn; lra |].
  cbn [map length]. rewrite S_INR, sumR_cons, IH. ring.
Qed.

Lemma sumR_map_bound f (c : R) l :
  (forall x, In x l -> Rabs (f x) <= c) -> Rabs (sumR (map f l)) <= INR (length l) * c.
Proof.
  induction l as [| x l IH]; intros Hle.
  - cbn. rewrite Rabs_R0. lra.
  - cbn [map length]. rewrite S_INR, sumR_cons.
    assert (Hx := Hle x (or_introl eq_refl)).
    assert (Hl := IH (fun y Hy => Hle y (or_intror Hy))).
    eapply Rle_trans; [apply Rabs_triang |]. lra.
Qed.
End RealVectors.

(** * The mean of a re-centered column *)

Section Centering.
Local Open Scope R_scope.

Lemma value_zero : value 0%float = 0.
Proof. reflexivity. Qed.

(** The sum of [n] doubles of magnitude at most [M], added one after the
    other to an accumulator: the error is at most
    [2 n 2^-52 (|acc| + n M)]. *)
Lemma fold_add_error (M : R) (l : fvec) : forall acc : float,
  0 <= M -> 2 * INR (length l) * bpow (-52) <= 1 ->
  Forall (fun x => Rabs (value x) <= M) l ->
  is_finite (fold_left PrimFloat.add l acc) = true ->
  is_finite acc = true /\
  Rabs (value (fold_left PrimFloat.add l acc) - (value acc + sumR (map value l)))
  <= 2 * INR (length l) * bpow (-52) * (Rabs (value acc) + INR (length l) * M).
Proof.
  pose proof (bpow_pos (-52)) as Hu. set (u := bpow (-52)) in *.
  induction l as [| x l IH]; intros acc HM Hn Hall Hfin.
  - cbn in *. split; [done |]. replace (value acc - (value acc + 0)) with 0 by ring.
    rewrite Rabs_R0. lra.
  - apply Forall_cons in Hall as [Hx Hall].
    cbn [fold_left length map] in *. rewrite S_INR in *. rewrite sumR_cons.
    pose proof (pos_INR (length l)) as Hlen. set (n := INR (length l)) in *.
    destruct (IH (acc + x)%float HM ltac:(nra) Hall Hfin) as [Hfin' IHerr].
    destruct (add_error acc x Hfin') as (Hfa & _ & Hadd). fold u in Hadd.
    split; [exact Hfa |].
    set (S := value (fold_left PrimFloat.add l (acc + x)%float)) in *.
    set (s' := value (acc + x)%float) in *. set (s := value acc) in *.
    set (a := value x) in *. set (Sig := sumR (map value l)) in *.
    pose proof (Rabs_pos s) as Hs0.
    assert (Hsa : Rabs (s + a) <= Rabs s + M).
    { eapply Rle_trans; [apply Rabs_triang |]. lra. }
    assert (Hs' : Rabs s' <= (1 + u) * (Rabs s + M)).
    { replace s' with ((s' - (s + a)) + (s + a)) by ring.
      eapply Rle_trans; [apply Rabs_triang |]. nra. }
    replace (S - (s + (a + Sig))) with ((S - (s' + Sig)) + (s' - (s + a))) by ring.
    eapply Rle_trans; [apply Rabs_triang |].
    assert (H1 : Rabs (S - (s' + Sig)) <= 2 * n * u * ((1 + u) * (Rabs s + M) + n * M)).
    { eapply Rle_trans; [exact IHerr |].
      apply Rmult_le_compat_l; [nra | lra]. }
    assert (H2 : Rabs (s' - (s + a)) <= u * (Rabs s + M)) by nra.
    eapply Rle_trans; [apply Rplus_le_compat; [exact H1 | exact H2] |].
    set (B := Rabs s + M) in *. assert (HB : 0 <= B) by (unfold B; lra).
    assert (HnuB : 0 <= n * u * B) by (apply Rmult_le_pos; nra).
    assert (Hnu : 2 * n * u <= 1) by nra.
    assert (Hq : 2 * n * u * (u * B) <= u * B).
    { assert (0 <= u * B) by nra. nra. }
    assert (HnuM : 0 <= n * u * M) by (apply Rmult_le_pos; nra).
    replace (Rabs s + (n + 1) * M) with (B + n * M) by (unfold B; ring).
    lra.
Qed.

Lemma Rabs_le_inv (x b : R) : Rabs x <= b -> - b <= x <= b.
Proof. unfold Rabs. destruct (Rcase_abs x); lra. Qed.

(** From the errors of the sum, of the conversion of the length and of the
    division to the error of the mean. *)
Lemma mean_arith (Tr u eta M Sig Sv Tv D mbar mu : R) :
  1 <= Tr -> 0 < u -> 16 * Tr * u <= 1 -> 0 <= eta -> 0 <= M ->
  Rabs Sig <= Tr * M ->
  Rabs (Sv - Sig) <= 2 * Tr * u * (Tr * M) ->
  Rabs (Tv - Tr) <= u * Tr ->
  D * Tv = Sv -> mbar * Tr = Sig ->
  Rabs (mu - D) <= u * Rabs D \/ Rabs (mu - D) <= eta ->
  Rabs (mu - mbar) <= (2 * Tr + 4) * u * M + eta.
Proof.
  intros HT Hu HTu Heta HM HSig HS HTv HD Hmbar Hmu.
  apply Rabs_le_inv in HSig, HS, HTv.
  assert (Hu16 : 16 * u <= 1) by nra.
  assert (HTM : 0 <= Tr * M) by nra.
  assert (HTv0 : Tr * (1 - u) <= Tv) by nra.
  assert (HTvpos : 0 < Tv) by nra.
  assert (HTuM : 0 <= Tr * u * (Tr * M)) by (apply Rmult_le_pos; nra).
  (* the quotient is at most 2 M *)
  assert (HDb : Rabs D <= 2 * M).
  { apply Rabs_le. split.
    - apply Rmult_le_reg_r with Tv; [exact HTvpos |]. rewrite HD.
      assert (2 * M * (Tr * (1 - u)) <= 2 * M * Tv) by (apply Rmult_le_compat_l; lra).
      nra.
    - apply Rmult_le_reg_r with Tv; [exact HTvpos |]. rewrite HD.
      assert (2 * M * (Tr * (1 - u)) <= 2 * M * Tv) by (apply Rmult_le_compat_l; lra).
      nra. }
  (* the quotient against the exact mean *)
  assert (Hprod : (D - mbar) * (Tv * Tr) = (Sv - Sig) * Tr + Sig * (Tr - Tv)).
  { rewrite <- HD, <- Hmbar. ring. }
  assert (HTT : Tr * Tr * (1 - u) <= Tv * Tr) by nra.
  assert (HTTpos : 0 < Tv * Tr) by nra.
  assert (Hnum : Rabs ((Sv - Sig) * Tr + Sig * (Tr - Tv)) <= Tr * Tr * u * M * (2 * Tr + 1)).
  { eapply Rle_trans; [apply Rabs_triang |]. rewrite !Rabs_mult.
    assert (Rabs (Sv - Sig) <= 2 * Tr * u * (Tr * M)) by (apply Rabs_le; lra).
    assert (Rabs Sig <= Tr * M) by (apply Rabs_le; lra).
    assert (Rabs (Tr - Tv) <= u * Tr) by (apply Rabs_le; lra).
    rewrite (Rabs_pos_eq Tr) by lra.
    pose proof (Rabs_pos (Sv - Sig)). pose proof (Rabs_pos Sig).
    pose proof (Rabs_pos (Tr - Tv)).
    assert (Rabs (Sv - Sig) * Tr <= 2 * Tr * u * (Tr * M) * Tr)
      by (apply Rmult_le_compat_r; lra).
    assert (Rabs Sig * Rabs (Tr - Tv) <= Tr * M * (u * Tr))
      by (apply Rmult_le_compat; lra).
    lra. }
  assert (HDm : Rabs (D - mbar) <= (2 * Tr + 2) * u * M).
  { apply Rmult_le_reg_r with (Tv * Tr); [exact HTTpos |].
    rewrite <- (Rabs_pos_eq (Tv * Tr)) at 1 by lra.
    rewrite <- Rabs_mult, Hprod.
    eapply Rle_trans; [exact Hnum |].
    assert (HuM : 0 <= u * M) by nra.
    apply Rle_trans with ((2 * Tr + 2) * u * M * (Tr * Tr * (1 - u))).
    - assert (0 <= Tr * Tr * (u * M)) by (apply Rmult_le_pos; nra).
      assert (Tr * Tr * (u * M) * (2 * Tr * u + 2 * u) <= Tr * Tr * (u * M) * 1)
        by (apply Rmult_le_compat_l; nra).
      lra.
    - apply Rmult_le_compat_l; [| exact HTT].
      apply Rmult_le_pos; [apply Rmult_le_pos |]; lra. }
  replace (mu - mbar) with ((mu - D) + (D - mbar)) by ring.
  eapply Rle_trans; [apply Rabs_triang |].
  assert (Rabs (mu - D) <= 2 * u * M + eta).
  { destruct Hmu as [Hmu | Hmu]; [| nra].
    eapply Rle_trans; [exact Hmu |]. nra. }
  lra.
Qed.

Lemma bpow_m4 : bpow (-4) = / 16.
Proof. unfold bpow, powerRZ. change (Pos.to_nat 4) with 4%nat. simpl pow. lra. Qed.

Lemma bpow_1 : bpow 1 = 2.
Proof. unfold bpow, powerRZ. change (Pos.to_nat 1) with 1%nat. simpl pow. lra. Qed.

(** The column [x - mean(x)], computed in binary64: its mean, taken in
    exact arithmetic, is at most [(2 T + 7) 2^-52 M + 2^-1073] away from 0,
    for [T <= 2^48] entries of magnitude at most [M]. *)
Lemma recenter_mean_bound (c : fvec) (M : R) :
  (1 <= length c)%nat -> (Z.of_nat (length c) <= 2 ^ 48)%Z ->
  Forall (fun x => Rabs (value x) <= M) c ->
  Forall (fun y => is_finite y = true) (recenter c) ->
  Rabs (meanR (map value (recenter c)))
  <= (2 * INR (length c) + 7) * bpow (-52) * M + bpow (-1073).
Proof.
  intros H1 H48 HM Hfin. unfold recenter in *. cbv zeta in *.
  set (mu := np_mean c) in *.
  pose proof (bpow_pos (-52)) as Hu. pose proof (bpow_pos (-1074)) as Heta.
  set (u := bpow (-52)) in *. set (eta := bpow (-1074)) in *.
  set (Tr := INR (length c)).
  assert (HT1 : 1 <= Tr).
  { unfold Tr. replace 1 with (INR 1) by reflexivity. by apply le_INR. }
  assert (HTu : 16 * Tr * u <= 1).
  { assert (HT48 : Tr <= bpow 48).
    { unfold Tr. rewrite INR_IZR_INZ, <- bpow_IZR by lia. by apply IZR_le. }
    assert (Hb : bpow 48 * u = / 16).
    { unfold u. rewrite <- bpow_add. exact bpow_m4. }
    assert (Tr * u <= bpow 48 * u) by (apply Rmult_le_compat_r; lra). lra. }
  assert (HM0 : 0 <= M).
  { destruct c as [| x0 c']; [cbn in H1; lia |].
    apply Forall_cons in HM as [Hx _]. pose proof (Rabs_pos (value x0)). lra. }
  (* the mean is finite *)
  assert (Hmu : is_finite mu = true).
  { destruct c as [| x0 c']; [cbn in H1; lia |].
    cbn [map] in Hfin. apply Forall_cons in Hfin as [Hx _].
    by destruct (sub_error x0 mu Hx) as (_ & ? & _). }
  (* its error *)
  destruct (float_of_nat_error (length c) H1 ltac:(lia)) as [HTfin HTerr].
  unfold mu, np_mean in Hmu.
  destruct (div_error (vsum c) (float_of_nat (length c)) HTfin Hmu) as (HSfin & HTv & Hdiv).
  fold u in HTerr, Hdiv. fold eta in Hdiv. fold Tr in HTerr.
  destruct (fold_add_error M c 0%float HM0 ltac:(fold u Tr; lra) HM HSfin) as [_ HSerr].
  fold (vsum c) in HSerr. rewrite value_zero, Rabs_R0, !Rplus_0_l in HSerr.
  fold u Tr in HSerr.
  pose proof (sumR_map_bound value M c
                ltac:(intros x Hx; rewrite Forall_forall in HM; apply HM;
                      by apply list_elem_of_In)) as HSig.
  fold Tr in HSig.
  set (Sig := sumR (map value c)) in *. set (Sv := value (vsum c)) in *.
  set (Tv := value (float_of_nat (length c))) in *.
  fold (np_mean c) in Hdiv. fold mu in Hdiv. set (muv := value mu) in *.
  assert (Hmean : Rabs (muv - Sig / Tr) <= (2 * Tr + 4) * u * M + eta).
  { apply (mean_arith Tr u eta M Sig Sv Tv (Sv / Tv) (Sig / Tr) muv); try lra; try done.
    - field. exact HTv.
    - field. lra. }
  (* the entries of the column *)
  set (res := fun x : float => value (x - mu)%float - (value x - muv)).
  assert (Hres : forall x, In x c -> Rabs (res x) <= u * (M + Rabs muv)).
  { intros x Hx. apply list_elem_of_In in Hx.
    assert (Hfx : is_finite (x - mu) = true).
    { rewrite Forall_forall in Hfin. apply Hfin. apply list_elem_of_fmap. by exists x. }
    destruct (sub_error x mu Hfx) as (_ & _ & Herr). fold u muv in Herr.
    eapply Rle_trans; [exact Herr |]. apply Rmult_le_compat_l; [lra |].
    rewrite Forall_forall in HM. specialize (HM x Hx).
    unfold Rminus. eapply Rle_trans; [apply Rabs_triang |]. rewrite Rabs_Ropp. lra. }
  assert (Hsum : sumR (map value (map (fun x => (x - mu)%float) c))
                 = Sig - Tr * muv + sumR (map res c)).
  { rewrite map_map.
    rewrite (map_ext _ (fun x => (value x + - muv) + res x))
      by (intros x; unfold res; ring).
    rewrite (sumR_map_plus (fun x => value x + - muv) res).
    rewrite (sumR_map_plus value (fun _ => - muv)), sumR_map_const.
    fold Sig Tr. ring. }
  pose proof (sumR_map_bound res _ c Hres) as HR. fold Tr in HR.
  unfold meanR. rewrite !length_map. fold Tr. rewrite Hsum.
  set (R0 := sumR (map res c)) in *.
  apply Rabs_le_inv in Hmean, HR.
  assert (Hmbar : Rabs (Sig / Tr) <= M).
  { apply Rabs_le. apply Rabs_le_inv in HSig. split.
    - apply Rmult_le_reg_r with Tr; [lra |]. unfold Rdiv.
      rewrite Rmult_assoc, Rinv_l by lra. lra.
    - apply Rmult_le_reg_r with Tr; [lra |]. unfold Rdiv.
      rewrite Rmult_assoc, Rinv_l by lra. lra. }
  apply Rabs_le_inv in Hmbar.
  assert (Hmuv : Rabs muv <= 2 * M + eta).
  { assert (Hu0 : 0 < u) by apply bpow_pos.
    assert (Hk : (2 * Tr + 4) * u <= 1) by nra.
    assert (Hk' : (2 * Tr + 4) * u * M <= 1 * M)
      by (apply Rmult_le_compat_r; lra).
    apply Rabs_le. lra. }
  pose proof (Rabs_pos muv) as Hmu0.
  assert (Hdecomp : (Sig - Tr * muv + R0) / Tr = (Sig / Tr - muv) + R0 / Tr)
    by (field; lra).
  rewrite Hdecomp.
  assert (HR' : Rabs (R0 / Tr) <= u * (M + Rabs muv)).
  { apply Rabs_le. split.
    - apply Rmult_le_reg_r with Tr; [lra |]. unfold Rdiv.
      rewrite Rmult_assoc, Rinv_l by lra. lra.
    - apply Rmult_le_reg_r with Tr; [lra |]. unfold Rdiv.
      rewrite Rmult_assoc, Rinv_l by lra. lra. }
  eapply Rle_trans; [apply Rabs_triang |].
  assert (Hfirst : Rabs (Sig / Tr - muv) <= (2 * Tr + 4) * u * M + eta)
    by (apply Rabs_le; lra).
  replace (bpow (-1073)) with (2 * eta)
    by (unfold eta; replace (-1073)%Z with (1 + -1074)%Z by lia;
        by rewrite bpow_add, bpow_1).
  assert (Hu16 : 16 * u <= 1) by nra.
  assert (u * eta <= eta) by nra.
  assert (u * Rabs muv <= u * (2 * M + eta)) by (apply Rmult_le_compat_l; lra).
  lra.
Qed.
End Centering.

(** * C6: the mean of the posterior-mean columns *)

Section Centered.
Local Open Scope R_scope.

Lemma maxabsR_nonneg (a : list R) : 0 <= maxabsR a.
Proof.
  induction a as [| x a IH]; cbn; [lra |].
  eapply Rle_trans; [exact IH | apply Rmax_r].
Qed.

Lemma maxabsR_bound (a : list R) : Forall (fun x => Rabs x <= maxabsR a) a.
Proof.
  induction a as [| x a IH]; constructor.
  - apply Rmax_l.
  - eapply Forall_impl; [exact IH |]. cbn. intros y Hy.
    eapply Rle_trans; [exact Hy | apply Rmax_r].
Qed.

(** What [c - np.mean(c)] leaves of the mean of a column of [T] finite
    entries of magnitude at most [M]: at most [(2 T + 7) 2^-52 M + 2^-1073]. *)
Lemma recenter_centered (c : fvec) :
  (Z.of_nat (length c) <= 2 ^ 48)%Z ->
  Forall (fun y => is_finite y = true) (recenter c) ->
  Rabs (meanR (map value (recenter c)))
  <= (2 * INR (length c) + 7) * bpow (-52) * maxabsR (map value c) + bpow (-1073).
Proof.
  intros HT Hfin. destruct (decide (1 <= length c)%nat) as [H1 | H0].
  - apply recenter_mean_bound; try done.
    pose proof (maxabsR_bound (map value c)) as Hb.
    rewrite Forall_forall in Hb. rewrite Forall_forall. intros x Hx.
    apply Hb. apply list_elem_of_fmap. by exists x.
  - destruct c as [| x c]; [| cbn in H0; lia].
    unfold meanR. cbn [recenter map length sumR fold_right INR].
    unfold Rdiv. rewrite (Rmult_0_l (/ 0)), Rabs_R0.
    apply Rplus_le_le_0_compat; [| apply Rlt_le, bpow_pos].
    apply Rmult_le_pos; [| apply maxabsR_nonneg].
    apply Rmult_le_pos; [| apply Rlt_le, bpow_pos].
    lra.
Qed.

(** For instance the column [1, 2, 4], whose mean 7/3 is not a double. *)
Example recenter_centered_three :
  Rabs (meanR (map value (recenter [1; 2; 4]%float)))
  <= (2 * INR 3 + 7) * bpow (-52) * maxabsR (map value [1; 2; 4]%float) + bpow (-1073).
Proof. apply (recenter_centered [1; 2; 4]%float); [cbn; lia | repeat constructor]. Qed.
End Centered.

Lemma Forall_lt_set_col (M : fmat) (j : nat) (c : fvec) :
  Forall (fun r => (j < length r)%nat) M ->
  Forall (fun r => (j < length r)%nat) (set_col M j c).
Proof.
  revert c. induction M as [| r M IH]; intros [| x c] HM; cbn; try done.
  inversion HM; subst. constructor; [by rewrite length_insert | by apply IH].
Qed.




(** * C5: the norm of the loadings *)

Section Normalized.
Local Open Scope R_scope.

Lemma value_nonzero_finite (x : float) : value x <> 0 -> is_finite x = true.
Proof.
  intros Hx. apply is_finite_SF. unfold value in Hx.
  by destruct (Prim2SF x); cbn in *.
Qed.

Lemma bpow_m52_le : bpow (-52) <= / 16.
Proof. rewrite <- bpow_m4. apply bpow_le. lia. Qed.

(** The quotient [nl / c] as a scale factor: within a relative [2^-52] of
    the exact quotient in both directions, when it is a normal number. *)
Lemma scale_factor (nl c : float) :
  0 < value c -> bpow (-1022) <= value (nl / c) ->
  let u := bpow (-52) in let d := value (nl / c) in
  is_finite (nl / c) = true /\ 0 < d /\ bpow (-1074) <= u * d /\
  (1 - u) * value nl <= d * value c /\ (1 - u) * (d * value c) <= value nl.
Proof.
  intros Hc Hd u d. fold d in Hd.
  pose proof (bpow_pos (-1022)) as Hmin.
  pose proof (bpow_pos (-52)) as Hu0. fold u in Hu0.
  pose proof bpow_m52_le as Hu1. fold u in Hu1.
  assert (Hd0 : 0 < d) by lra.
  assert (Hfk : is_finite (nl / c) = true) by (apply value_nonzero_finite; fold d; lra).
  assert (Hfc : is_finite c = true) by (apply value_nonzero_finite; lra).
  assert (Heta : bpow (-1074) <= u * d).
  { replace (-1074)%Z with (-52 + -1022)%Z by lia. rewrite bpow_add. fold u.
    apply Rmult_le_compat_l; lra. }
  destruct (div_error nl c Hfc Hfk) as (_ & _ & Herr). fold u d in Herr.
  set (q := value nl / value c) in *.
  assert (Hq : value nl = q * value c) by (unfold q; field; lra).
  assert (Hboth : (1 - u) * q <= d /\ (1 - u) * d <= q).
  { assert (Hud : 0 <= (/ 16 - u) * d) by (apply Rmult_le_pos; lra).
    assert (Hud' : 0 <= u * d) by (apply Rmult_le_pos; lra).
    assert (Huu : 0 <= u * (u * d)) by (apply Rmult_le_pos; lra).
    destruct Herr as [Hrel | Habs].
    - apply Rabs_le_inv in Hrel. unfold Rabs in Hrel.
      destruct (Rcase_abs q) as [Hneg | Hpos].
      + exfalso. assert (0 <= (/ 16 - u) * - q) by (apply Rmult_le_pos; lra). lra.
      + assert (0 <= u * q) by (apply Rmult_le_pos; lra).
        assert (0 <= u * (u * q)) by (apply Rmult_le_pos; lra).
        split; [lra |].
        replace ((1 - u) * d) with (d - u * d) by ring.
        assert (u * d <= u * (q + u * q)) by (apply Rmult_le_compat_l; lra).
        assert (u * (u * q) <= u * q).
        { rewrite <- (Rmult_1_l (u * q)) at 2. apply Rmult_le_compat_r; lra. }
        destruct (Rle_or_lt (d - u * d) q) as [? | Hgt]; [done | exfalso].
        (* d - u d > q and d >= q - u q: then u d < d - q <= u q, so d < q *)
        assert (u * d < u * q) by lra.
        assert (d < q) by (apply Rmult_lt_reg_l with u; lra).
        lra.
    - apply Rabs_le_inv in Habs. split; [| lra].
      replace ((1 - u) * q) with (q - u * q) by ring.
      assert (Hq0 : 0 <= q) by lra.
      assert (0 <= u * q) by (apply Rmult_le_pos; lra).
      destruct (Rle_or_lt (q - u * q) d) as [? | Hgt]; [done | exfalso].
      assert (u * q < u * d) by lra.
      assert (q < d) by (apply Rmult_lt_reg_l with u; lra).
      lra. }
  destruct Hboth as [Hb1 Hb2].
  rewrite Hq. repeat split; try done.
  - rewrite <- Rmult_assoc. apply Rmult_le_compat_r; lra.
  - replace ((1 - u) * (d * value c)) with ((1 - u) * d * value c) by ring.
    apply Rmult_le_compat_r; lra.
Qed.

(** The arithmetic of the bound. *)
Lemma norm_arith (u e cv G Y Neta : R) :
  0 < u -> u <= / 16 -> 0 <= e -> e <= / 4 -> 0 < cv -> 0 <= G -> 0 <= Neta ->
  (1 - u) * ((1 - e) * G) <= cv -> (1 - u) * cv <= (1 + e) * G ->
  Y <= (1 + u) * G + Neta -> G <= Y + u * G + Neta ->
  Rabs (Y - cv) <= (2 * e + 8 * u) * cv + Neta.
Proof.
  intros Hu0 Hu1 He0 He1 Hc HG HN Hup Hlo HY1 HY2.
  apply Rabs_le. split.
  - assert (Hp : (1 - 2 * e - 8 * u) * (1 + e) <= (1 - u) * (1 - u)) by nra.
    assert (Hk : (1 - 2 * e - 8 * u) * cv <= (1 - u) * G).
    { destruct (Rle_or_lt (1 - 2 * e - 8 * u) 0) as [Hneg | Hpos]; [nra |].
      assert ((1 - 2 * e - 8 * u) * ((1 - u) * cv)
              <= (1 - 2 * e - 8 * u) * ((1 + e) * G))
        by (apply Rmult_le_compat_l; lra).
      assert ((1 - 2 * e - 8 * u) * (1 + e) * G <= (1 - u) * (1 - u) * G)
        by (apply Rmult_le_compat_r; lra).
      assert (0 < 1 - u) by lra. nra. }
    lra.
  - assert (Hp : 1 + u <= (1 + 2 * e + 8 * u) * ((1 - u) * (1 - e))) by nra.
    assert (Hk : (1 + u) * G <= (1 + 2 * e + 8 * u) * cv).
    { assert ((1 + u) * G <= (1 + 2 * e + 8 * u) * ((1 - u) * (1 - e)) * G)
        by (apply Rmult_le_compat_r; lra).
      assert ((1 + 2 * e + 8 * u) * ((1 - u) * ((1 - e) * G))
              <= (1 + 2 * e + 8 * u) * cv)
        by (apply Rmult_le_compat_l; lra).
      lra. }
    lra.
Qed.

(** The Euclidean norm of [a / (nl / c)], entry by entry in binary64, for
    a norm [nl] that is within a relative [e] of the norm of [a]. *)
Lemma vdiv_norm_bound (a : fvec) (nl c : float) (e : R) :
  0 < value c -> bpow (-1022) <= value (nl / c) -> 0 <= e <= / 4 ->
  Rabs (value nl - norm2R (map value a)) <= e * norm2R (map value a) ->
  Forall (fun y => is_finite y = true) (vdiv a (nl / c)) ->
  Rabs (norm2R (map value (vdiv a (nl / c))) - value c)
  <= (2 * e + bpow (-49)) * value c + INR (length a) * bpow (-1074).
Proof.
  intros Hc Hd [He0 He1] Hacc Hfin.
  destruct (scale_factor nl c Hc Hd) as (Hfk & Hd0 & Heta & Hlo & Hup).
  set (k := (nl / c)%float) in *. set (d := value k) in *.
  set (u := bpow (-52)) in *. set (eta := bpow (-1074)) in *.
  pose proof (bpow_pos (-52)) as Hu0. fold u in Hu0.
  pose proof bpow_m52_le as Hu1. fold u in Hu1.
  pose proof (bpow_pos (-1074)) as He. fold eta in He.
  pose proof (norm2R_nonneg (map value a)) as HA.
  set (A := norm2R (map value a)) in *.
  apply Rabs_le_inv in Hacc.
  assert (Hid : / d * d = 1) by (apply Rinv_l; lra).
  assert (Hid0 : 0 < / d) by (by apply Rinv_0_lt_compat).
  set (G := / d * A).
  assert (HG : 0 <= G) by (unfold G; apply Rmult_le_pos; lra).
  assert (HGd : G * d = A) by (unfold G; rewrite Rmult_assoc, (Rmult_comm A), <- Rmult_assoc, Hid; ring).
  (* the entries *)
  set (res := fun x : float => value (x / k)%float - / d * value x).
  assert (Hres : forall x, In x a -> Rabs (res x) <= u * (/ d * Rabs (value x)) + eta).
  { intros x Hx. apply list_elem_of_In in Hx.
    assert (Hfx : is_finite (x / k) = true).
    { rewrite Forall_forall in Hfin. apply Hfin. unfold vdiv.
      apply list_elem_of_fmap. by exists x. }
    destruct (div_error x k Hfk Hfx) as (_ & _ & Herr). fold u eta d in Herr.
    unfold res. replace (/ d * value x) with (value x / d) by (unfold Rdiv; ring).
    assert (Habs : Rabs (value x / d) = / d * Rabs (value x)).
    { unfold Rdiv. rewrite Rabs_mult, (Rabs_pos_eq (/ d)) by lra. ring. }
    rewrite Habs in Herr.
    assert (0 <= u * (/ d * Rabs (value x))).
    { apply Rmult_le_pos; [lra |]. apply Rmult_le_pos; [lra | apply Rabs_pos]. }
    destruct Herr; lra. }
  assert (Hnres : norm2R (map res a) <= u * G + INR (length a) * eta).
  { eapply Rle_trans; [apply (norm2R_mono res _ a Hres) |].
    eapply Rle_trans; [apply (norm2R_triangle (fun x => u * (/ d * Rabs (value x)))
                                (fun _ => eta)) |].
    apply Rplus_le_compat; [| apply norm2R_const; lra].
    rewrite (norm2R_scale u (fun x => / d * Rabs (value x))) by lra.
    rewrite (norm2R_scale (/ d) (fun x => Rabs (value x))) by lra.
    rewrite (norm2R_abs value). unfold G. rewrite <- (map_map value (fun x => x)), map_id.
    fold A. lra. }
  assert (Hnmres : norm2R (map (fun x => - res x) a) = norm2R (map res a)).
  { rewrite <- (norm2R_abs (fun x => - res x)), <- (norm2R_abs res).
    f_equal. apply map_ext. intros x. apply Rabs_Ropp. }
  assert (Hscaled : norm2R (map (fun x => / d * value x) a) = G).
  { rewrite (norm2R_scale (/ d) value) by lra. reflexivity. }
  set (Y := norm2R (map value (vdiv a k))).
  assert (HY : Y = norm2R (map (fun x => value (x / k)%float) a)).
  { unfold Y, vdiv. by rewrite map_map. }
  assert (HY1 : Y <= (1 + u) * G + INR (length a) * eta).
  { rewrite HY.
    rewrite (map_ext _ (fun x => / d * value x + res x)) by (intros x; unfold res; ring).
    eapply Rle_trans; [apply norm2R_triangle |]. rewrite Hscaled. lra. }
  assert (HY2 : G <= Y + u * G + INR (length a) * eta).
  { rewrite <- Hscaled at 1.
    rewrite (map_ext _ (fun x => value (x / k)%float + - res x))
      by (intros x; unfold res; ring).
    eapply Rle_trans; [apply norm2R_triangle |]. rewrite <- HY, Hnmres. lra. }
  replace (bpow (-49)) with (8 * u).
  2:{ unfold u. replace (-49)%Z with (3 + -52)%Z by lia. rewrite bpow_add. f_equal.
      unfold bpow, powerRZ. change (Pos.to_nat 3) with 3%nat. simpl pow. lra. }
  apply (norm_arith u e (value c) G Y (INR (length a) * eta)); try lra.
  - apply Rmult_le_pos; [apply pos_INR | lra].
  - (* (1 - u) (1 - e) G <= c *)
    apply Rmult_le_reg_r with d; [lra |].
    replace ((1 - u) * ((1 - e) * G) * d) with ((1 - u) * ((1 - e) * A))
      by (rewrite <- HGd; ring).
    assert ((1 - u) * ((1 - e) * A) <= (1 - u) * value nl)
      by (apply Rmult_le_compat_l; lra).
    lra.
  - apply Rmult_le_reg_r with d; [lra |].
    replace ((1 + e) * G * d) with ((1 + e) * A) by (rewrite <- HGd; ring).
    lra.
Qed.
End Normalized.

Section ConcreteValues.
Local Open Scope R_scope.

Lemma value_positive (x : float) (m : positive) (e : Z) :
  Prim2SF x = S754_finite false m e -> 0 < value x.
Proof.
  intros E. unfold value. rewrite E. cbn [SF2R].
  apply Rmult_lt_0_compat; [| apply bpow_pos].
  rewrite Rmult_1_l. apply IZR_lt. lia.
Qed.

Lemma value_normal (x : float) (m : positive) (e : Z) :
  Prim2SF x = S754_finite false m e -> (2 ^ 52 <= Z.pos m)%Z -> (-1074 <= e)%Z ->
  bpow (-1022) <= value x.
Proof.
  intros E Hm He. unfold value. rewrite E. cbn [SF2R]. rewrite Rmult_1_l.
  apply Rle_trans with (bpow 52 * bpow e).
  - rewrite <- bpow_add. apply bpow_le. lia.
  - apply Rmult_le_compat_r; [apply Rlt_le, bpow_pos |].
    rewrite <- bpow_IZR by lia. by apply IZR_le.
Qed.

Lemma norm2R_single (v : R) : 0 <= v -> norm2R [v] = v.
Proof.
  intros Hv. unfold norm2R. cbn. rewrite Rplus_0_r. by apply sqrt_square.
Qed.
End ConcreteValues.

(** C5.  When the step of the loading updater on latent [l] is accepted
    (the bound of the trial state is a number and not below the previous
    one), the block returns a state whose row [l] of [alpha] is the row the
    acceptance test saw: the stepped row divided, entry by entry in
    binary64, by [norm / normofalpha], with [norm] what [linalg.norm]
    returned for the stepped row.  For a positive target, a scale factor
    that is a normal number, finite entries and a [linalg.norm] within a
    relative [err <= 1/4] of the Euclidean norm, the Euclidean norm of that
    row differs from the target by at most
    [(2 err + 2^-49) normofalpha + N 2^-1074], with [N] the length of the
    row. *)
Theorem accepted_loading_is_renormalized `{Extern} (e : consts) (s : vstate) (l : nat) :
  forall x step sol s5,
    (l < length (alpha (cur s)))%nat ->
    linalg_norm_inf (grad_a e l s) = Ok x -> (x <? eps) = false ->
    index (stepsize_alpha (steps s)) l = Ok step ->
    linalg_solve (neg_hess_a l s) (grad_a e l s) = Ok sol ->
    alpha_trial e l (vscale step sol) s = Ok s5 ->
    rejected_alpha (lb_now e s5) (prev_bound s) = false ->
    let stepped := vadd (row (alpha (cur s)) l) (vscale step sol) in
    let c := normofalpha (args e) in
    exists s' nl, alpha_block e l s = Ok (Next, s') /\
      linalg_norm stepped = Ok nl /\
      row (alpha (cur s5)) l = vdiv stepped (nl / c) /\
      row (alpha (cur s')) l = vdiv stepped (nl / c) /\
      (forall err : R,
          (0 < value c)%R -> (bpow (-1022) <= value (nl / c))%R ->
          (0 <= err <= / 4)%R ->
          (Rabs (value nl - norm2R (map value stepped))
           <= err * norm2R (map value stepped))%R ->
          Forall (fun y => is_finite y = true) (vdiv stepped (nl / c)) ->
          (Rabs (norm2R (map value (row (alpha (cur s')) l)) - value c)
           <= (2 * err + bpow (-49)) * value c
              + INR (length stepped) * bpow (-1074))%R).
Proof.
  intros x step sol s5 Hl Hn Hx Hstep Hsol Htrial Hacc stepped c.
  pose proof Htrial as Ht. unfold alpha_trial in Ht.
  cbn -[row set_row updaterate] in Ht.
  rewrite row_set_row in Ht by exact Hl. fold stepped c in Ht.
  destruct (linalg_norm stepped) as [nl |] eqn:En; [| discriminate].
  rewrite bind_ok in Ht. unfold py_div in Ht.
  destruct (c =? 0)%float; [discriminate |]. rewrite bind_ok in Ht.
  injection Ht as Hs5.
  assert (Hrow : row (alpha (cur s5)) l = vdiv stepped (nl / c)).
  { rewrite <- Hs5. cbn -[row set_row]. rewrite set_row_set_row.
    by rewrite !row_set_row by exact Hl. }
  assert (Hrow' : forall pr, row (alpha (cur (alpha_settle e l pr s5))) l
                             = vdiv stepped (nl / c)).
  { intros pr. unfold alpha_settle.
    replace (prev_bound s5) with (prev_bound s) by (by rewrite <- Hs5).
    rewrite Hacc.
    match goal with |- context [if ?b then _ else _] => destruct b end; exact Hrow. }
  eexists _, nl. split; [| split; [reflexivity | split; [exact Hrow | split]]].
  - unfold alpha_block. rewrite Hn, bind_ok, Hx, Hstep, bind_ok, Hsol, Htrial, bind_ok.
    reflexivity.
  - apply Hrow'.
  - intros err Hc Hk Herr Hnorm Hfin. rewrite Hrow'.
    by apply vdiv_norm_bound.
Qed.

Lemma accepted_loading_is_renormalized_witness :
  match start_of (H := Ref.kernels) fit_loading with
  | Some (c, s) =>
      exists s', alpha_block (H := Ref.kernels) c 0 s = Ok (Next, s') /\
        row (alpha (cur s')) 0 = [0x1.c000000000001p+2] /\
        (Rabs (norm2R (map value (row (alpha (cur s')) 0)) - value 7)
         <= (2 * 0 + bpow (-49)) * value 7 + INR 1 * bpow (-1074))%R
  | None => False
  end.
Proof.
  destruct (start_of (H := Ref.kernels) fit_loading) as [[c s] |] eqn:Es;
    [| vm_compute in Es; discriminate Es].
  vm_compute in Es. inversion Es; subst. clear Es.
  match goal with |- context [alpha_block ?c 0%nat ?s] =>
    pose proof (accepted_loading_is_renormalized (H := Ref.kernels) c s 0) as Hstep
  end.
  edestruct Hstep as (s' & nl & Hrun & Hnl & _ & Hrow & Hnorm);
    [cbn; lia | vm_compute; reflexivity | reflexivity | vm_compute; reflexivity
    | vm_compute; reflexivity | vm_compute; reflexivity | vm_compute; reflexivity |].
  vm_compute in Hnl. inversion Hnl; subst nl. clear Hnl.
  exists s'. split; [exact Hrun |]. split; [rewrite Hrow; vm_compute; reflexivity |].
  apply Hnorm.
  - destruct (Prim2SF 7) as [| | | [] m ex] eqn:Ec; vm_compute in Ec; try discriminate Ec.
    exact (value_positive 7 m ex Ec).
  - vm_compute PrimFloat.div.
    match goal with |- (_ <= value ?k)%R =>
      destruct (Prim2SF k) as [| | | [] m ex] eqn:Ek; vm_compute in Ek; try discriminate Ek
    end.
    inversion Ek; subst. eapply value_normal; [exact Ek | lia | lia].
  - lra.
  - vm_compute vadd. cbn [map]. rewrite Rmult_0_l.
    match goal with |- (Rabs (value ?a - norm2R [value ?b]) <= 0)%R =>
      destruct (Prim2SF a) as [| | | [] m ex] eqn:Ea; vm_compute in Ea; try discriminate Ea;
      pose proof (value_positive a m ex Ea)
    end.
    rewrite norm2R_single by lra. rewrite Rminus_diag, Rabs_R0. lra.
  - repeat constructor.
Defined.
